(** * Avatar VMM dependency checker ([scripts/check_deps.py])

    A shallow embedding of the [DependencyAnalyzer] class and of [main]:
    file discovery, include extraction, include resolution, the graph
    builder, the depth-first cycle detector, the Kahn ordering, the DOT
    exporter and the statistics reporter, followed by the properties the
    specification states about them.

    Conventions of the embedding.
    - A Python [str] is a [string]; one [ascii] stands for one code point
      below 256.
    - A Python [dict] is an association list in insertion order
      ([dict_set] keeps the position of an existing key); a [defaultdict]
      is the same list read through [dd_get], which also returns the
      dictionary extended by the missing key.
    - A Python [set] of strings is a duplicate-free list; its iteration
      order is unspecified in Python, so every property below is stated
      for an arbitrary order of the elements.
    - The operating system ([os.walk], [os.path.exists],
      [os.path.relpath], [open]) and the recursion limit of the
      interpreter are a [world] record.
    - Printing appends lines to an output list; an uncaught exception ends
      the run with exit status 1. *)

From Stdlib Require Import List String Ascii Bool Arith ZArith Lia.
From Stdlib Require Import DecimalString Permutation.
Import ListNotations.
Open Scope string_scope.
Open Scope list_scope.

(** ** Python primitives *)

Module Py.

Definition chr (n : nat) : string := String (ascii_of_nat n) EmptyString.

(** The double quote and the line feed, which the f-strings of the
    exporter contain. *)
Definition dq : string := chr 34.
Definition nl : string := chr 10.

(** [str.isspace] on one code point below 256; the class the pattern
    [\s] matches on a [str]. *)
Definition is_space (c : ascii) : bool :=
  let n := nat_of_ascii c in
  (Nat.leb 9 n && Nat.leb n 13) || (Nat.leb 28 n && Nat.leb n 32)
  || Nat.eqb n 133 || Nat.eqb n 160.

Fixpoint lstrip (s : string) : string :=
  match s with
  | EmptyString => EmptyString
  | String c s' => if is_space c then lstrip s' else s
  end.

Fixpoint rstrip (s : string) : string :=
  match s with
  | EmptyString => EmptyString
  | String c s' =>
      match rstrip s' with
      | EmptyString => if is_space c then EmptyString else String c EmptyString
      | r => String c r
      end
  end.

(** [s.strip()] *)
Definition strip (s : string) : string := rstrip (lstrip s).

(** [s.startswith(p)] *)
Definition startswith (s p : string) : bool := String.prefix p s.

(** [s.endswith(p)] *)
Fixpoint endswith (s p : string) : bool :=
  String.eqb s p ||
  match s with
  | EmptyString => false
  | String _ s' => endswith s' p
  end.

(** [s.endswith((p1, p2, ...))] *)
Definition endswith_any (s : string) (ps : list string) : bool :=
  existsb (endswith s) ps.

(** [sub in s] on strings *)
Fixpoint contains (sub s : string) : bool :=
  String.prefix sub s ||
  match s with
  | EmptyString => false
  | String _ s' => contains sub s'
  end.

(** [x in l] on a list or a set of strings *)
Definition mem (x : string) (l : list string) : bool :=
  existsb (String.eqb x) l.

(** [s.add(x)] *)
Definition set_add (x : string) (s : list string) : list string :=
  if mem x s then s else s ++ [x].

(** [s.remove(x)] for an element that is present *)
Definition set_remove (x : string) (s : list string) : list string :=
  filter (fun y => negb (String.eqb x y)) s.

(** Truth value of a string: the empty string is false. *)
Definition truthy (s : string) : bool :=
  match s with EmptyString => false | _ => true end.

(** [os.path.join(a, b)] (posixpath) *)
Definition os_path_join (a b : string) : string :=
  if startswith b "/" then b
  else if String.eqb a EmptyString || endswith a "/" then (a ++ b)%string
  else (a ++ "/" ++ b)%string.

(** [os.path.basename(p)]: what follows the last slash *)
Fixpoint os_path_basename (p : string) : string :=
  match p with
  | EmptyString => EmptyString
  | String c p' =>
      if contains "/" p then os_path_basename p' else p
  end.

(** [str(n)] for a natural number *)
Definition str_of_nat (n : nat) : string :=
  NilEmpty.string_of_uint (Nat.to_uint n).

(** [f"{n:3d}"]: right-aligned in a field of width 3 *)
Definition fmt_3d (n : nat) : string :=
  let s := str_of_nat n in
  match String.length s with
  | 0 => ("   " ++ s)%string
  | 1 => ("  " ++ s)%string
  | 2 => (" " ++ s)%string
  | _ => s
  end.

(** [sep.join(l)] *)
Definition join (sep : string) (l : list string) : string :=
  String.concat sep l.

(** [l.index(x)] and [l[l.index(x):]] in one: the suffix of [l] that starts
    at the first occurrence of [x]; [None] stands for [ValueError]. *)
Fixpoint slice_from (x : string) (l : list string) : option (list string) :=
  match l with
  | [] => None
  | y :: l' => if String.eqb y x then Some l else slice_from x l'
  end.

(** [l.pop()] *)
Definition pop_last (l : list string) : list string := removelast l.

End Py.
Import Py.

(** ** Dictionaries in insertion order *)

Section Dict.
Context {V : Type}.

Definition dict := list (string * V).

Fixpoint dict_get (d : dict) (k : string) : option V :=
  match d with
  | [] => None
  | (k', v) :: d' => if String.eqb k' k then Some v else dict_get d' k
  end.

(** [d[k] = v] *)
Fixpoint dict_set (d : dict) (k : string) (v : V) : dict :=
  match d with
  | [] => [(k, v)]
  | (k', v') :: d' =>
      if String.eqb k' k then (k', v) :: d' else (k', v') :: dict_set d' k v
  end.

Definition dict_keys (d : dict) : list string := map fst d.
Definition dict_values (d : dict) : list V := map snd d.
Definition dict_has (d : dict) (k : string) : bool :=
  match dict_get d k with Some _ => true | None => false end.

(** A dictionary holds each key once. *)
Definition dict_wf (d : dict) : Prop := NoDup (dict_keys d).

(** [defaultdict.__getitem__] with default [dflt]: the value, and the
    dictionary, which gains the key when it was missing. *)
Definition dd_get (dflt : V) (d : dict) (k : string) : V * dict :=
  match dict_get d k with
  | Some v => (v, d)
  | None => (dflt, d ++ [(k, dflt)])
  end.
End Dict.
Arguments dict V : clear implicits.

(** The forward mapping and the reverse index:
    [defaultdict(set)]. *)
Definition graph := dict (list string).

(** The set stored under [k] as [self.dependencies[k]] reads it. *)
Definition adj (d : graph) (k : string) : list string := fst (dd_get [] d k).
(** The dictionary after that read. *)
Definition touch (d : graph) (k : string) : graph := snd (dd_get [] d k).

(** [d[k].add(x)] on a [defaultdict(set)] *)
Definition dd_add (d : graph) (k x : string) : graph :=
  dict_set (touch d k) k (set_add x (adj d k)).

(** ** The operating system *)

(** A directory as [os.walk] sees it: the names of its files and its
    sub-directories, each with its own content, in listing order. *)
Inductive dirtree : Type :=
| Dir (files : list string) (subdirs : forest)
with forest : Type :=
| NoDirs
| SubDir (name : string) (t : dirtree) (rest : forest).

Scheme dirtree_forest_ind := Induction for dirtree Sort Prop
  with forest_dirtree_ind := Induction for forest Sort Prop.
Combined Scheme dirtree_forest_mutind
  from dirtree_forest_ind, forest_dirtree_ind.

(** [os.walk(top)], top-down; the list of sub-directory names of each
    triple is left out, the script never reads it. *)
Fixpoint os_walk (top : string) (t : dirtree) : list (string * list string) :=
  match t with
  | Dir fs subs => (top, fs) :: walk_subdirs top subs
  end
with walk_subdirs (top : string) (f : forest) : list (string * list string) :=
  match f with
  | NoDirs => []
  | SubDir name t rest =>
      os_walk (os_path_join top name) t ++ walk_subdirs top rest
  end.

(** What iterating over an opened file delivers: the lines read, and the
    error that ended the reading, if any. A file that cannot be opened
    delivers no line and an error. *)
Record read_result : Type := {
  rr_lines : list string;
  rr_error : option string
}.

Record world : Type := {
  (** [os.path.exists] *)
  os_path_exists : string -> bool;
  (** the tree below a directory path; [None] when the path is not a
      directory, on which [os.walk] yields nothing *)
  os_dir_tree : string -> option dirtree;
  (** [os.path.relpath] with respect to the working directory *)
  os_path_relpath : string -> string;
  (** [open(path, 'r', encoding='utf-8', errors='ignore')] and the
      iteration over its lines *)
  open_read : string -> read_result;
  (** whether [open(path, 'w')] succeeds *)
  open_write_ok : string -> bool;
  (** [sys.getrecursionlimit()]: 1000 when the interpreter starts, and
      the script never changes it *)
  recursion_limit : nat
}.

(** ** The analyzer *)

Record analyzer : Type := {
  src_dirs : list string;
  include_dirs : list string;
  dependencies : graph;
  reverse_deps : graph;
  files : dict string
}.

(** [DependencyAnalyzer.__init__] *)
Definition init (src_dirs include_dirs : list string) : analyzer :=
  {| src_dirs := src_dirs; include_dirs := include_dirs;
     dependencies := []; reverse_deps := []; files := [] |}.

Definition set_files (a : analyzer) (f : dict string) : analyzer :=
  {| src_dirs := src_dirs a; include_dirs := include_dirs a;
     dependencies := dependencies a; reverse_deps := reverse_deps a;
     files := f |}.

Definition set_graph (a : analyzer) (fwd rev : graph) : analyzer :=
  {| src_dirs := src_dirs a; include_dirs := include_dirs a;
     dependencies := fwd; reverse_deps := rev; files := files a |}.

(** *** File discovery *)

Definition source_exts : list string := [".c"; ".h"; ".S"].
Definition guest_subdirs : list string :=
  ["guest/linux"; "guest/nimbos"; "guest/testos"].
Definition guest_allowed : list string :=
  ["test_guest.S"; "guest_manifests.c"; "guest_manifest.h"].

(** The test that makes the walk skip a directory. *)
Definition skipped_root (root : string) : bool :=
  contains "clib" root || existsb (fun subdir => contains subdir root) guest_subdirs.

(** The body of [for file in files]. *)
Definition visit_file (w : world) (root : string) (fs : dict string)
    (file : string) : dict string :=
  if endswith_any file source_exts then
    let full_path := os_path_join root file in
    let rel_path := os_path_relpath w full_path in
    if contains "guest" root then
      if mem file guest_allowed then dict_set fs file rel_path else fs
    else if contains "app" root && String.eqb file "syscall.S" then fs
    else dict_set fs file rel_path
  else fs.

(** The body of [for root, dirs, files in os.walk(src_dir)]. *)
Definition visit_dir (w : world) (fs : dict string)
    (entry : string * list string) : dict string :=
  let (root, names) := entry in
  if skipped_root root then fs
  else fold_left (visit_file w root) names fs.

(** [os.walk(src_dir)] in the world. *)
Definition walk (w : world) (src_dir : string) : list (string * list string) :=
  match os_dir_tree w src_dir with
  | Some t => os_walk src_dir t
  | None => []
  end.

(** The body of [for src_dir in self.src_dirs]. *)
Definition scan_root (w : world) (fs : dict string) (src_dir : string)
    : dict string :=
  if negb (os_path_exists w src_dir) then fs
  else fold_left (visit_dir w) (walk w src_dir) fs.

Definition find_source_files (w : world) (a : analyzer) : analyzer :=
  set_files a (fold_left (scan_root w) (src_dirs a) (files a)).

(** *** Include extraction *)

(** The fragment of regular expressions the include pattern is written
    in, matched as [re.match] does: anchored at the start, greedy, with
    backtracking. *)
Inductive re_item : Type :=
| Lit (s : string)
| Cls (p : ascii -> bool)
| StarCls (p : ascii -> bool)
| GroupPlus (p : ascii -> bool).

Fixpoint strip_prefix (p s : string) : option string :=
  match p, s with
  | EmptyString, _ => Some s
  | String a p', String b s' =>
      if Ascii.eqb a b then strip_prefix p' s' else None
  | String _ _, EmptyString => None
  end.

Section Matcher.
Context {R : Type}.

(** [p*] followed by [k]: the longest run first. *)
Fixpoint star_k (p : ascii -> bool) (k : string -> option R) (s : string)
    : option R :=
  match s with
  | String c s' =>
      if p c then
        match star_k p k s' with
        | Some r => Some r
        | None => k s
        end
      else k s
  | EmptyString => k s
  end.

(** [(p+)] followed by [k], which receives the captured text; [acc] is
    what the group has consumed so far. *)
Fixpoint plus_k (p : ascii -> bool) (k : string -> string -> option R)
    (acc : string) (s : string) : option R :=
  match s with
  | String c s' =>
      if p c then
        let acc' := (acc ++ String c EmptyString)%string in
        match plus_k p k acc' s' with
        | Some r => Some r
        | None => k acc' s'
        end
      else None
  | EmptyString => None
  end.
End Matcher.

(** [re.match(items, s)]: the first group of the match, if there is a
    match ([cap] is the group captured so far). *)
Fixpoint re_match (items : list re_item) (s : string) (cap : option string)
    : option (option string) :=
  match items with
  | [] => Some cap
  | Lit l :: r =>
      match strip_prefix l s with
      | Some s' => re_match r s' cap
      | None => None
      end
  | Cls p :: r =>
      match s with
      | String c s' => if p c then re_match r s' cap else None
      | EmptyString => None
      end
  | StarCls p :: r => star_k p (fun s' => re_match r s' cap) s
  | GroupPlus p :: r =>
      plus_k p (fun name s' => re_match r s' (Some name)) EmptyString s
  end.

Definition is_open (c : ascii) : bool :=
  Ascii.eqb c "<"%char || Ascii.eqb c (ascii_of_nat 34).
Definition is_close (c : ascii) : bool :=
  Ascii.eqb c ">"%char || Ascii.eqb c (ascii_of_nat 34).

(** The pattern of [parse_includes]: the text #include, any white space,
    an opening angle bracket or double quote, a group of one or more
    characters that are neither a closing angle bracket nor a double
    quote, and a closing angle bracket or double quote. *)
Definition include_pattern : list re_item :=
  [Lit "#include"; StarCls is_space; Cls is_open;
   GroupPlus (fun c => negb (is_close c)); Cls is_close].

(** [match.group(1)] of the pattern on a stripped line, when it matches. *)
Definition match_include (line : string) : option string :=
  match re_match include_pattern (strip line) None with
  | Some (Some name) => Some name
  | _ => None
  end.

(** The body of [for line in f]. *)
Definition scan_line (includes : list string) (line : string) : list string :=
  match match_include line with
  | Some name => set_add name includes
  | None => includes
  end.

Definition warning (file_path e : string) : string :=
  ("Warning: Could not parse " ++ file_path ++ ": " ++ e)%string.

(** [parse_includes]: the set of include names, and what was printed. The
    [try] block spans the whole loop, so the names found on the lines
    read before an error stay in the set. *)
Definition parse_includes (w : world) (file_path : string)
    : list string * list string :=
  let r := open_read w file_path in
  let includes := fold_left scan_line (rr_lines r) [] in
  match rr_error r with
  | Some e => (includes, [warning file_path e])
  | None => (includes, [])
  end.

(** *** Include resolution *)

Fixpoint search_include_dirs (w : world) (dirs : list string)
    (include_name : string) : option string :=
  match dirs with
  | [] => None
  | include_dir :: rest =>
      let full_path := os_path_join include_dir include_name in
      if os_path_exists w full_path then Some (os_path_relpath w full_path)
      else search_include_dirs w rest include_name
  end.

Definition system_prefixes : list string := ["sys/"; "linux/"; "asm/"].

Definition resolve_include (w : world) (a : analyzer) (include_name : string)
    : option string :=
  match dict_get (files a) include_name with
  | Some p => Some p
  | None =>
      match search_include_dirs w (include_dirs a) include_name with
      | Some p => Some p
      | None =>
          if existsb (startswith include_name) system_prefixes then None
          else None
      end
  end.

(** *** Graph builder *)

(** The two [add] statements of one edge insertion. *)
Definition add_edge (g : graph * graph) (e : string * string) : graph * graph :=
  let (file_path, resolved) := e in
  (dd_add (fst g) file_path resolved, dd_add (snd g) resolved file_path).

(** The guard [if resolved and resolved != file_path]. *)
Definition edge_wanted (file_path : string) (resolved : option string) : bool :=
  match resolved with
  | Some r => truthy r && negb (String.eqb r file_path)
  | None => false
  end.

(** The body of [for include in includes]. *)
Definition visit_include (w : world) (a : analyzer) (file_path : string)
    (g : graph * graph) (include : string) : graph * graph :=
  match resolve_include w a include with
  | Some r => if edge_wanted file_path (Some r) then add_edge g (file_path, r) else g
  | None => g
  end.

Definition is_compiled (file_path : string) : bool :=
  endswith_any file_path [".c"; ".S"].

(** The body of [for file_name, file_path in self.files.items()]: the
    graph and the output after the file. *)
Definition visit_source (w : world) (a : analyzer)
    (st : (graph * graph) * list string) (item : string * string)
    : (graph * graph) * list string :=
  let file_path := snd item in
  if negb (is_compiled file_path) then st
  else
    let (includes, printed) := parse_includes w file_path in
    (fold_left (visit_include w a file_path) includes (fst st),
     snd st ++ printed).

(** [build_dependency_graph]: the analyzer afterwards and what was
    printed. *)
Definition build_dependency_graph (w : world) (a0 : analyzer)
    : analyzer * list string :=
  let a := find_source_files w a0 in
  let r := fold_left (visit_source w a) (files a)
             ((dependencies a, reverse_deps a), []) in
  (set_graph a (fst (fst r)) (snd (fst r)), snd r).

(** ** Results of calls that may raise *)

(** [Raise e]: an exception of class [e] left the call. [Exhausted]: the
    bound the embedding puts on the turns of a [while] loop ran out; the
    theorems show that the bound the embedding gives is never used up. *)
Inductive res (A : Type) : Type :=
| Ok (a : A)
| Raise (e : string)
| Exhausted.
Arguments Ok {A} a.
Arguments Raise {A} e.
Arguments Exhausted {A}.

(** Output printed so far, and how the call ended. *)
Definition io (A : Type) : Type := list string * res A.

Definition io_ret {A} (a : A) : io A := ([], Ok a).
Definition io_print (line : string) : io unit := ([line], Ok tt).
Definition io_raise {A} (e : string) : io A := ([], Raise e).
Definition io_bind {A B} (m : io A) (f : A -> io B) : io B :=
  match m with
  | (o, Ok a) => let (o', r) := f a in (o ++ o', r)
  | (o, Raise e) => (o, Raise e)
  | (o, Exhausted) => (o, Exhausted)
  end.

Declare Scope io_scope.
Delimit Scope io_scope with io.
Notation "x <- m ;; k" := (io_bind m (fun x => k))
  (at level 61, m at next level, right associativity) : io_scope.
Notation "m ;;; k" := (io_bind m (fun _ => k))
  (at level 61, right associativity) : io_scope.

(** ** Cycle detection *)

(** The objects the nested [dfs] shares between its calls: the forward
    mapping, and the [path], [visited] and [rec_stack] arguments, which
    every call receives by reference. *)
Record dfs_state : Type := {
  st_deps : graph;
  st_path : list string;
  st_visited : list string;
  st_rec : list string
}.

(** [if cycle:] on the value a call returned. *)
Definition is_cycle_found (c : option (list string)) : bool :=
  match c with
  | Some (_ :: _) => true
  | _ => false
  end.

(** The loop [for neighbor in self.dependencies[node]], with [call] for
    the recursive call. *)
Fixpoint for_neighbors
    (call : string -> dfs_state -> res (option (list string) * dfs_state))
    (neighbors : list string) (st : dfs_state)
    : res (option (list string) * dfs_state) :=
  match neighbors with
  | [] => Ok (None, st)
  | neighbor :: rest =>
      if negb (mem neighbor (st_visited st)) then
        match call neighbor st with
        | Ok (cycle, st') =>
            if is_cycle_found cycle then Ok (cycle, st')
            else for_neighbors call rest st'
        | Raise e => Raise e
        | Exhausted => Exhausted
        end
      else if mem neighbor (st_rec st) then
        match slice_from neighbor (st_path st) with
        | Some suffix => Ok (Some (suffix ++ [neighbor]), st)
        | None => Raise "ValueError"
        end
      else for_neighbors call rest st
  end.

(** The statements before the loop. *)
Definition dfs_enter (node : string) (st : dfs_state) : dfs_state :=
  {| st_deps := touch (st_deps st) node;
     st_path := st_path st ++ [node];
     st_visited := set_add node (st_visited st);
     st_rec := set_add node (st_rec st) |}.

(** The statements after the loop: [path.pop()] and
    [rec_stack.remove(node)]. *)
Definition dfs_leave (node : string) (st : dfs_state)
    : res (option (list string) * dfs_state) :=
  match st_path st with
  | [] => Raise "IndexError"
  | _ :: _ =>
      if mem node (st_rec st) then
        Ok (None,
            {| st_deps := st_deps st;
               st_path := pop_last (st_path st);
               st_visited := st_visited st;
               st_rec := set_remove node (st_rec st) |})
      else Raise "KeyError"
  end.

(** The nested function [dfs]. Every call takes a frame of the
    interpreter's stack, and [frames] is the number of frames left: a call
    made when none is left raises [RecursionError], which nothing in the
    script catches. *)
Fixpoint dfs (frames : nat) (node : string) (st : dfs_state)
    : res (option (list string) * dfs_state) :=
  match frames with
  | O => Raise "RecursionError"
  | S frames' =>
      let neighbors := adj (st_deps st) node in
      match for_neighbors (dfs frames') neighbors (dfs_enter node st) with
      | Ok (None, st') => dfs_leave node st'
      | Ok (Some c, st') => Ok (Some c, st')
      | Raise e => Raise e
      | Exhausted => Exhausted
      end
  end.

(** The loop [for node in nodes] of [find_circular_dependencies]: every
    outermost call gets a new [path] and a new [rec_stack]. *)
Fixpoint find_cycles (frames : nat) (nodes : list string) (d : graph)
    (visited : list string) : res (option (list string) * graph) :=
  match nodes with
  | [] => Ok (None, d)
  | node :: rest =>
      if negb (mem node visited) then
        match dfs frames node
                {| st_deps := d; st_path := []; st_visited := visited;
                   st_rec := [] |} with
        | Ok (cycle, st') =>
            if is_cycle_found cycle then Ok (cycle, st_deps st')
            else find_cycles frames rest (st_deps st') (st_visited st')
        | Raise e => Raise e
        | Exhausted => Exhausted
        end
      else find_cycles frames rest d visited
  end.

(** Keys and edge targets of a graph, with repetitions. *)
Definition graph_nodes (d : graph) : list string :=
  dict_keys d ++ List.concat (dict_values d).

(** The frames left for [dfs] when [find_circular_dependencies] first
    calls it. The interpreter keeps the depth of the stack below the
    limit, and three frames are taken by then: the module, [main] and
    [find_circular_dependencies]. With the limit of 1000 a chain of 996
    files is searched to its end and a chain of 997 is not. *)
Definition dfs_frames (w : world) : nat := recursion_limit w - 4.

(** [find_circular_dependencies]: the value returned and the forward
    mapping afterwards. *)
Definition find_circular_dependencies (w : world) (d : graph)
    : res (option (list string) * graph) :=
  find_cycles (dfs_frames w) (dict_keys d) d [].

(** ** Build order *)

(** [in_degree[k] += delta] on a [defaultdict(int)] *)
Definition dd_incr (deg : dict Z) (k : string) (delta : Z) : dict Z :=
  dict_set deg k (fst (dd_get 0%Z deg k) + delta)%Z.

(** The body of the first loop, [for node in self.dependencies]. *)
Definition count_node (d : graph) (deg : dict Z) (node : string) : dict Z :=
  let deg1 := if negb (dict_has deg node) then dict_set deg node 0%Z else deg in
  fold_left (fun deg dep => dd_incr deg dep 1%Z) (adj d node) deg1.

Definition in_degrees (d : graph) : dict Z :=
  fold_left (count_node d) (dict_keys d) [].

(** The state of the [while] loop. *)
Record kahn_state : Type := {
  k_deps : graph;
  k_deg : dict Z;
  k_queue : list string;
  k_result : list string
}.

(** The body of [for neighbor in self.dependencies[node]]: the in-degree
    table and the queue. *)
Definition relax (s : dict Z * list string) (neighbor : string)
    : dict Z * list string :=
  let deg := dd_incr (fst s) neighbor (-1)%Z in
  if Z.eqb (fst (dd_get 0%Z deg neighbor)) 0%Z
  then (deg, snd s ++ [neighbor])
  else (deg, snd s).

(** One turn of the [while] loop on a queue whose first element is
    [node]. *)
Definition kahn_step (node : string) (queue : list string) (s : kahn_state)
    : kahn_state :=
  let r := fold_left relax (adj (k_deps s) node) (k_deg s, queue) in
  {| k_deps := touch (k_deps s) node;
     k_deg := fst r;
     k_queue := snd r;
     k_result := k_result s ++ [node] |}.

Fixpoint kahn_loop (fuel : nat) (s : kahn_state) : res kahn_state :=
  match k_queue s with
  | [] => Ok s
  | node :: queue =>
      match fuel with
      | O => Exhausted
      | S fuel' => kahn_loop fuel' (kahn_step node queue s)
      end
  end.

Definition kahn_init (d : graph) : kahn_state :=
  let deg := in_degrees d in
  {| k_deps := d;
     k_deg := deg;
     k_queue := map fst (filter (fun item => Z.eqb (snd item) 0%Z) deg);
     k_result := [] |}.

(** [get_build_order]: the list returned and the forward mapping
    afterwards. Every turn of the loop outputs a node that was not output
    before, so the number of turns allowed here, the number of nodes, is
    enough. *)
Definition get_build_order (d : graph) : res (list string * graph) :=
  match kahn_loop (List.length (graph_nodes d)) (kahn_init d) with
  | Ok s => Ok (k_result s, k_deps s)
  | Raise e => Raise e
  | Exhausted => Exhausted
  end.

(** ** DOT export *)

Definition node_color (file_path : string) : string :=
  if endswith file_path ".h" then "lightblue" else "lightgreen".

Definition node_stmt (file_path : string) : string :=
  ("  " ++ dq ++ file_path ++ dq ++ " [label=" ++ dq
   ++ os_path_basename file_path ++ dq ++ " fillcolor=" ++ dq
   ++ node_color file_path ++ dq ++ " style=filled];" ++ nl)%string.

Definition edge_stmt (source dep : string) : string :=
  ("  " ++ dq ++ source ++ dq ++ " -> " ++ dq ++ dep ++ dq ++ ";" ++ nl)%string.

Definition dot_header : list string :=
  [("digraph dependencies {" ++ nl)%string;
   ("  rankdir=TB;" ++ nl)%string;
   ("  node [shape=box];" ++ nl)%string].

Definition dot_footer : string := ("}" ++ nl)%string.

(** The strings [generate_dot_graph] passes to [f.write], in order. *)
Definition dot_writes (a : analyzer) : list string :=
  let f0 := dot_header in
  let f1 := fold_left (fun f file_path => f ++ [node_stmt file_path])
              (dict_values (files a)) f0 in
  let f2 := fold_left
              (fun f item =>
                 fold_left (fun f dep => f ++ [edge_stmt (fst item) dep])
                   (snd item) f)
              (dependencies a) f1 in
  f2 ++ [dot_footer].

(** [generate_dot_graph]: the content of the file written. *)
Definition generate_dot_graph (w : world) (a : analyzer) (output_file : string)
    : io string :=
  if open_write_ok w output_file
  then io_ret (String.concat EmptyString (dot_writes a))
  else io_raise "OSError".

(** ** Statistics *)

(** [x > y] on pairs [(len(deps), file)]. *)
Definition tuple_gt (x y : nat * string) : bool :=
  Nat.ltb (fst y) (fst x) || (Nat.eqb (fst x) (fst y) && String.ltb (snd y) (snd x)).

(** [max(items)]; [None] stands for the [ValueError] of an empty
    sequence. *)
Definition py_max (items : list (nat * string)) : option (nat * string) :=
  match items with
  | [] => None
  | x :: rest =>
      Some (fold_left (fun best y => if tuple_gt y best then y else best) rest x)
  end.

Definition sizes (d : graph) : list (nat * string) :=
  map (fun item => (List.length (snd item), fst item)) d.

Definition count_files (a : analyzer) (p : string -> bool) : nat :=
  List.length (filter p (dict_values (files a))).

Definition total_deps (d : graph) : nat :=
  fold_left (fun n deps => n + List.length deps) (dict_values d) 0.

Definition most_line (what unit : string) (m : nat * string) : string :=
  (what ++ snd m ++ " (" ++ str_of_nat (fst m) ++ " " ++ unit ++ ")")%string.

Open Scope io_scope.

Definition print_statistics (a : analyzer) : io unit :=
  io_print ("Source files: " ++ str_of_nat (count_files a is_compiled)) ;;;
  io_print ("Header files: "
            ++ str_of_nat (count_files a (fun f => endswith f ".h"))) ;;;
  io_print ("Dependencies: " ++ str_of_nat (total_deps (dependencies a))) ;;;
  max_deps <- match py_max (sizes (dependencies a)) with
              | Some m => io_ret m
              | None => io_raise "ValueError"
              end ;;
  io_print (most_line "Most dependencies: " "deps" max_deps) ;;;
  max_reverse <- match py_max (sizes (reverse_deps a)) with
                 | Some m => io_ret m
                 | None => io_raise "ValueError"
                 end ;;
  io_print (most_line "Most dependents: " "dependents" max_reverse).

(** ** The command *)

(** The namespace [parser.parse_args()] returns. When the command line
    asks for the help or is not accepted, [parse_args] ends the process
    itself, with status 0 or 2, and [main] goes no further. *)
Record args : Type := {
  arg_dot : option string;
  arg_check_cycles : bool;
  arg_build_order : bool
}.

Definition main_src_dirs : list string :=
  ["."; "boot"; "exception"; "io"; "mem"; "timer"; "task"; "process";
   "spinlock"; "vmm"; "lib"; "fs"; "syscall"; "guest"].
Definition main_include_dirs : list string := ["include"; "guest"].

(** ["=" * 40] *)
Definition rule : string :=
  String.concat EmptyString (repeat "=" 40).

Fixpoint print_order (i : nat) (order : list string) : io unit :=
  match order with
  | [] => io_ret tt
  | file :: rest =>
      io_print (fmt_3d i ++ ". " ++ file) ;;; print_order (S i) rest
  end.

(** [--check-cycles]: the forward mapping afterwards. *)
Definition check_cycles (w : world) (d : graph) : io graph :=
  io_print (nl ++ "Checking for circular dependencies...") ;;;
  r <- ([], find_circular_dependencies w d) ;;
  (if is_cycle_found (fst r)
   then io_print ("Circular dependency found: "
                  ++ join " -> " (match fst r with Some c => c | None => [] end))
   else io_print "No circular dependencies found.") ;;;
  io_ret (snd r).

(** [--build-order] *)
Definition build_order (d : graph) : io graph :=
  io_print (nl ++ "Build order:") ;;;
  r <- ([], get_build_order d) ;;
  print_order 1 (fst r) ;;;
  io_ret (snd r).

(** [--dot]: the name and the content of the file written. *)
Definition export_dot (w : world) (a : analyzer) (output_file : string)
    : io (string * string) :=
  text <- generate_dot_graph w a output_file ;;
  io_print (nl ++ "DOT graph saved to " ++ output_file) ;;;
  io_print "Generate image with: dot -Tpng deps.dot -o deps.png" ;;;
  io_ret (output_file, text).

(** [main] once [parse_args] has returned [ar]: what was printed, and
    the file written by [--dot], if any. The export runs when [args.dot]
    is true, that is, a name was given and is not empty. *)
Definition main (w : world) (ar : args) : io (option (string * string)) :=
  let (a, warnings) :=
    build_dependency_graph w (init main_src_dirs main_include_dirs) in
  (warnings, Ok tt) ;;;
  io_print "Avatar VMM Dependency Analysis" ;;;
  io_print rule ;;;
  print_statistics a ;;;
  d1 <- (if arg_check_cycles ar then check_cycles w (dependencies a)
         else io_ret (dependencies a)) ;;
  d2 <- (if arg_build_order ar then build_order d1 else io_ret d1) ;;
  match arg_dot ar with
  | Some output_file =>
      if truthy output_file then
        f <- export_dot w (set_graph a d2 (reverse_deps a)) output_file ;;
        io_ret (Some f)
      else io_ret None
  | None => io_ret None
  end.

Close Scope io_scope.

(** The exit status of the process: 0 when [main] returns, 1 when an
    exception leaves it. *)
Definition exit_status {A} (r : io A) : option nat :=
  match snd r with
  | Ok _ => Some 0
  | Raise _ => Some 1
  | Exhausted => None
  end.

(** ** Concrete file trees used by the scenarios *)

Module Scenario.

Definition text (lines : list string) : read_result :=
  {| rr_lines := lines; rr_error := None |}.

(** [os.path.relpath] on the paths the walk from [.] produces. *)
Definition drop_dot (p : string) : string :=
  match p with
  | String "."%char (String "/"%char r) => r
  | _ => p
  end.

(** A quoted include line, with its line feed. *)
Definition include_line (name : string) : string :=
  ("#include " ++ dq ++ name ++ dq ++ nl)%string.

(** A working directory that holds the given tree and file texts. *)
Definition tree_world (t : dirtree) (content : string -> read_result) : world :=
  {| os_path_exists := fun p => String.eqb p ".";
     os_dir_tree := fun p => if String.eqb p "." then Some t else None;
     os_path_relpath := drop_dot;
     open_read := content;
     open_write_ok := fun _ => true;
     recursion_limit := 1000 |}.

(** [a.h] includes [b.h] and [b.h] includes [a.h]. *)
Definition headers_world : world :=
  tree_world (Dir ["a.h"; "b.h"] NoDirs)
    (fun p => if String.eqb p "a.h" then text [include_line "b.h"]
              else text [include_line "a.h"]).

(** [a.c] includes [b.c] and [b.c] includes [a.c]. *)
Definition sources_world : world :=
  tree_world (Dir ["a.c"; "b.c"] NoDirs)
    (fun p => if String.eqb p "a.c" then text [include_line "b.c"]
              else text [include_line "a.c"]).

(** The same two files, listed the other way round. *)
Definition sources_world_b_first : world :=
  tree_world (Dir ["b.c"; "a.c"] NoDirs)
    (fun p => if String.eqb p "a.c" then text [include_line "b.c"]
              else text [include_line "a.c"]).

(** One source file without any include. *)
Definition lonely_world : world :=
  tree_world (Dir ["a.c"] NoDirs) (fun _ => text ["int x;"]).

(** A root with [app/syscall.S] and other files. *)
Definition app_world : world :=
  tree_world
    (Dir ["main.c"]
       (SubDir "app" (Dir ["syscall.S"; "shell.c"; "app.h"] NoDirs) NoDirs))
    (fun _ => text []).

(** Reading [a.c] delivers one include line and then fails. *)
Definition failing_world : world :=
  tree_world (Dir ["a.c"; "b.h"] NoDirs)
    (fun p => if String.eqb p "a.c"
              then {| rr_lines := [include_line "b.h"];
                      rr_error := Some "[Errno 5] Input/output error" |}
              else text []).

Definition no_flags : args :=
  {| arg_dot := None; arg_check_cycles := false; arg_build_order := false |}.

(** The name of the file numbered [i] of a chain. *)
Definition chain_name (i : nat) : string := (str_of_nat i ++ ".c")%string.

(** A file name up to its first dot. *)
Fixpoint stem (p : string) : string :=
  match p with
  | EmptyString => EmptyString
  | String c p' =>
      if Ascii.eqb c "."%char then EmptyString else String c (stem p')
  end.

(** The number of a file of a chain. *)
Definition chain_index (p : string) : option nat :=
  match NilEmpty.uint_of_string (stem p) with
  | Some u => Some (Nat.of_uint u)
  | None => None
  end.

(** A working directory with [n] source files, listed in the order of
    their numbers: the file numbered [i] includes the one numbered
    [i + 1], and the last one includes nothing. *)
Definition chain_world (n : nat) : world :=
  tree_world (Dir (map chain_name (seq 0 n)) NoDirs)
    (fun p => match chain_index p with
              | Some i =>
                  if Nat.ltb (S i) n
                  then text [include_line (chain_name (S i))]
                  else text []
              | None => text []
              end).

(** A thousand files in a chain. *)
Definition deep_world : world := chain_world 1000.

End Scenario.

(** ** Vocabulary of the properties *)

(** Every character of [s] satisfies [p]. *)
Fixpoint all_chars (p : ascii -> bool) (s : string) : bool :=
  match s with
  | EmptyString => true
  | String c s' => p c && all_chars p s'
  end.

(** The category of a directory, by the tests of [find_source_files] in
    the order the code makes them. *)
Inductive category : Type := Excluded | GuestPayload | Application | Ordinary.

Definition category_of (root : string) : category :=
  if skipped_root root then Excluded
  else if contains "guest" root then GuestPayload
  else if contains "app" root then Application
  else Ordinary.

(** Whether the walk records a file of a directory that is not skipped. *)
Definition kept (root file : string) : bool :=
  endswith_any file source_exts
  && (if contains "guest" root then mem file guest_allowed
      else negb (contains "app" root && String.eqb file "syscall.S")).

(** No sub-directory name of a tree starts with a slash, as in every
    directory listing. *)
Fixpoint names_ok (t : dirtree) : Prop :=
  match t with
  | Dir _ subs => forest_ok subs
  end
with forest_ok (f : forest) : Prop :=
  match f with
  | NoDirs => True
  | SubDir name t rest =>
      startswith name "/" = false /\ names_ok t /\ forest_ok rest
  end.

(** Where an entry of the discovery mapping comes from. *)
Definition recorded (w : world) (sd : list string) (file p : string) : Prop :=
  exists src_dir root names,
    In src_dir sd /\ os_path_exists w src_dir = true
    /\ In (root, names) (walk w src_dir) /\ In file names
    /\ skipped_root root = false /\ kept root file = true
    /\ p = os_path_relpath w (os_path_join root file).

(** [u] includes [v]: an edge of a forward mapping. *)
Definition edge (d : graph) (u v : string) : Prop := In v (adj d u).

(** The reverse index is the transpose of the forward mapping. *)
Definition transposed (g : graph * graph) : Prop :=
  forall u v, edge (fst g) u v <-> edge (snd g) v u.

(** No key maps to a set that contains the key. *)
Definition no_self_loop (d : graph) : Prop := forall u, ~ edge d u u.

(** The edges one scanned file inserts, in order. *)
Definition edges_of_file (w : world) (a : analyzer) (file_path : string)
    : list (string * string) :=
  flat_map
    (fun include =>
       match resolve_include w a include with
       | Some r => if edge_wanted file_path (Some r) then [(file_path, r)] else []
       | None => []
       end)
    (fst (parse_includes w file_path)).

(** The edge insertions the builder performs, in order. *)
Definition edge_insertions (w : world) (a : analyzer) : list (string * string) :=
  flat_map
    (fun item =>
       if is_compiled (snd item) then edges_of_file w a (snd item) else [])
    (files a).

(** Each element of the sequence includes the next one. *)
Fixpoint chain (d : graph) (l : list string) : Prop :=
  match l with
  | [] => True
  | x :: t =>
      match t with
      | [] => True
      | y :: _ => edge d x y /\ chain d t
      end
  end.

(** A closed sequence of edges: at least one edge, and the first element
    equal to the last. *)
Definition closed_walk (d : graph) (c : list string) : Prop :=
  chain d c /\ exists x mid, c = x :: mid ++ [x].

Definition acyclic (d : graph) : Prop := forall c, ~ closed_walk d c.

(** The element lies on a cycle. *)
Definition on_cycle (d : graph) (x : string) : Prop :=
  exists mid, closed_walk d (x :: mid ++ [x]).

(** Finished nodes of the search: visited and no longer on the
    recursion stack. *)
Definition black (st : dfs_state) (u : string) : Prop :=
  In u (st_visited st) /\ ~ In u (st_rec st).

(** The number of nodes of a graph: keys and edge targets, each counted
    once. *)
Definition node_count (d : graph) : nat :=
  List.length (nodup string_dec (graph_nodes d)).

(** The number of nodes of the graph the search has not visited. *)
Definition unvisited (d0 : graph) (visited : list string) : nat :=
  List.length (filter (fun n => negb (mem n visited))
                 (nodup string_dec (graph_nodes d0))).

(** What holds of the shared objects between two steps of the search
    over the graph [d0]. *)
Record dfs_inv (d0 : graph) (st : dfs_state) : Prop := {
  inv_adj : forall k, adj (st_deps st) k = adj d0 k;
  inv_rec : forall x, In x (st_rec st) <-> In x (st_path st);
  inv_path : forall x, In x (st_path st) -> In x (st_visited st);
  inv_chain : chain d0 (st_path st);
  inv_closed : forall u v, black st u -> edge d0 u v -> black st v;
  inv_safe : forall u c, black st u -> ~ closed_walk d0 (u :: c);
  inv_nodes : forall x, In x (st_visited st) -> In x (graph_nodes d0)
}.

(** What a call of [dfs] on [node] from the state [st] may return. *)
Definition dfs_post (d0 : graph) (st : dfs_state) (node : string)
    (r : res (option (list string) * dfs_state)) : Prop :=
  match r with
  | Ok (None, st') =>
      dfs_inv d0 st' /\ st_path st' = st_path st
      /\ (forall x, In x (st_visited st) -> In x (st_visited st'))
      /\ In node (st_visited st')
  | Ok (Some c, _) => closed_walk d0 c
  | Raise _ => False
  | Exhausted => False
  end.

(** What the loop over the neighbours [ns] may return. *)
Definition loop_post (d0 : graph) (st : dfs_state) (ns : list string)
    (r : res (option (list string) * dfs_state)) : Prop :=
  match r with
  | Ok (None, st') =>
      dfs_inv d0 st' /\ st_path st' = st_path st
      /\ (forall x, In x (st_visited st) -> In x (st_visited st'))
      /\ (forall v, In v ns -> black st' v)
  | Ok (Some c, _) => closed_walk d0 c
  | Raise _ => False
  | Exhausted => False
  end.

(** The shared objects at an outermost call. *)
Definition top_state (d : graph) (visited : list string) : dfs_state :=
  {| st_deps := d; st_path := []; st_visited := visited; st_rec := [] |}.

(** The entry of an in-degree table as [in_degree[v]] reads it. *)
Definition degree (deg : dict Z) (v : string) : Z := fst (dd_get 0%Z deg v).

(** How many times [v] occurs in a list. *)
Definition occurrences (v : string) (l : list string) : Z :=
  Z.of_nat (count_occ string_dec l v).

(** The number of edges into [v] that start at the nodes of [l]. *)
Fixpoint incoming (d : graph) (l : list string) (v : string) : Z :=
  match l with
  | [] => 0%Z
  | u :: l' => (occurrences v (adj d u) + incoming d l' v)%Z
  end.

(** The keys of the graph that the loop has not output yet. *)
Definition pending (d : graph) (result : list string) : list string :=
  filter (fun u => negb (mem u result)) (dict_keys d).

(** In the sequence [l], every node stands after all the nodes that
    include it. *)
Definition ordered (d : graph) (l : list string) : Prop :=
  forall l1 v l2 u, l = l1 ++ v :: l2 -> edge d u v -> In u l1.

(** [u] stands before [v] in [l]. *)
Definition before (l : list string) (u v : string) : Prop :=
  exists l1 l2 l3, l = l1 ++ u :: l2 ++ v :: l3.

(** What holds of the state of the [while] loop of [get_build_order] on
    the graph [d] between two turns. *)
Record kahn_inv (d : graph) (s : kahn_state) : Prop := {
  ki_adj : forall k, adj (k_deps s) k = adj d k;
  ki_nodup : NoDup (k_result s ++ k_queue s);
  ki_nodes : forall x, In x (k_result s ++ k_queue s) -> In x (graph_nodes d);
  ki_degree : forall v, degree (k_deg s) v = incoming d (pending d (k_result s)) v;
  ki_zero : forall v, In v (k_result s ++ k_queue s) -> degree (k_deg s) v = 0%Z;
  ki_ready : forall v,
      In v (graph_nodes d) -> degree (k_deg s) v = 0%Z ->
      In v (k_result s ++ k_queue s);
  ki_order : ordered d (k_result s ++ k_queue s)
}.

(** What holds inside one turn of the loop, when the neighbours [rest]
    of the node just output remain to be relaxed. *)
Record relax_inv (d : graph) (result rest : list string)
    (s : dict Z * list string) : Prop := {
  ri_nodup : NoDup (result ++ snd s);
  ri_nodes : forall x, In x (result ++ snd s) -> In x (graph_nodes d);
  ri_degree : forall v,
      degree (fst s) v
      = (incoming d (pending d result) v + occurrences v rest)%Z;
  ri_zero : forall v, In v (result ++ snd s) -> degree (fst s) v = 0%Z;
  ri_ready : forall v,
      In v (graph_nodes d) -> degree (fst s) v = 0%Z -> In v (result ++ snd s);
  ri_order : ordered d (result ++ snd s)
}.

(** ** Vocabulary of the further properties *)

(** The assignments [self.files[file] = rel_path] one directory makes, in
    order. *)
Definition file_recordings (w : world) (root : string) (names : list string)
    : list (string * string) :=
  flat_map
    (fun file =>
       if kept root file
       then [(file, os_path_relpath w (os_path_join root file))]
       else [])
    names.

(** The assignments the whole discovery makes, in order. *)
Definition recordings (w : world) (sd : list string) : list (string * string) :=
  flat_map
    (fun src_dir =>
       if os_path_exists w src_dir
       then flat_map
              (fun entry =>
                 if skipped_root (fst entry) then []
                 else file_recordings w (fst entry) (snd entry))
              (walk w src_dir)
       else [])
    sd.

(** [d[k] = v] for a pair. *)
Definition assign {V} (d : dict V) (kv : string * V) : dict V :=
  dict_set d (fst kv) (snd kv).

(** Every set of the mapping is non-empty and holds no element twice. *)
Definition sets_ok (d : graph) : Prop :=
  forall k l, In (k, l) d -> l <> [] /\ NoDup l.

(** Keys with an empty set, as the reads of a [defaultdict(set)] leave
    them behind. *)
Definition empty_entries (ks : list string) : graph :=
  map (fun k => (k, @nil string)) ks.

(** [d'] is [d] followed by empty sets for nodes of [d] that were not
    keys of [d]. *)
Definition grown (d d' : graph) : Prop :=
  exists ks,
    d' = d ++ empty_entries ks /\ NoDup ks
    /\ forall x, In x ks -> In x (graph_nodes d) /\ ~ In x (dict_keys d).

(** A closed sequence that passes through no node twice. *)
Definition simple_cycle (c : list string) : Prop :=
  exists x mid, c = x :: mid ++ [x] /\ NoDup (x :: mid).

(** What a call of the search returns when it returns a cycle. *)
Definition simple_post (r : res (option (list string) * dfs_state)) : Prop :=
  match r with
  | Ok (Some c, _) => simple_cycle c
  | _ => True
  end.

(** [v] can be reached from [x] along edges (in no step or more). *)
Definition reachable (d : graph) (x v : string) : Prop :=
  exists w, chain d (x :: w) /\ In v (x :: w).

(** How the [--dot] step of [main] ends on the analyzer [a]. *)
Definition dot_outcome (w : world) (ar : args) (a : analyzer)
    : res (option (string * string)) :=
  match arg_dot ar with
  | None => Ok None
  | Some f =>
      if truthy f then
        if open_write_ok w f
        then Ok (Some (f, String.concat EmptyString (dot_writes a)))
        else Raise "OSError"
      else Ok None
  end.

(** * Properties *)

(** ** Sets and dictionaries *)

Lemma mem_In (x : string) (l : list string) : mem x l = true <-> In x l.
Proof.
  unfold mem. rewrite existsb_exists. split.
  - intros [y [Hy He]]. apply String.eqb_eq in He. now subst.
  - intros H. exists x. split; [assumption | apply String.eqb_refl].
Qed.

Lemma mem_false (x : string) (l : list string) : mem x l = false <-> ~ In x l.
Proof.
  rewrite <- mem_In. destruct (mem x l); split; congruence.
Qed.

Lemma set_add_In (x y : string) (s : list string) :
  In y (set_add x s) <-> In y s \/ y = x.
Proof.
  unfold set_add. destruct (mem x s) eqn:E.
  - apply mem_In in E. split; [tauto | intros [H | ->]; assumption].
  - rewrite in_app_iff. simpl. intuition congruence.
Qed.

Lemma set_add_NoDup (x : string) (s : list string) :
  NoDup s -> NoDup (set_add x s).
Proof.
  intros H. unfold set_add. destruct (mem x s) eqn:E; [assumption |].
  apply mem_false in E. apply NoDup_app; [assumption | repeat constructor; auto | ].
  intros a Ha [<- | []]. contradiction.
Qed.

Lemma set_remove_In (x y : string) (s : list string) :
  In y (set_remove x s) <-> In y s /\ y <> x.
Proof.
  unfold set_remove. rewrite filter_In, negb_true_iff, String.eqb_neq.
  split; intros [H1 H2]; split; auto.
Qed.

Section DictFacts.
Context {V : Type}.
Implicit Types (d : dict V) (k : string) (v : V).

Lemma dict_get_In d k v : dict_get d k = Some v -> In (k, v) d.
Proof.
  induction d as [| [k' v'] d IH]; simpl; [discriminate |].
  destruct (String.eqb_spec k' k) as [-> | Hne].
  - intros [= ->]. now left.
  - intros H. right. auto.
Qed.

Lemma dict_get_None d k : dict_get d k = None <-> ~ In k (dict_keys d).
Proof.
  induction d as [| [k' v'] d IH]; simpl.
  - tauto.
  - destruct (String.eqb_spec k' k) as [-> | Hne].
    + split; [discriminate | intros H; exfalso; apply H; now left].
    + rewrite IH. split; [intros H [E | I]; auto | intros H I; apply H; now right].
Qed.

Lemma dict_get_Some_key d k v : dict_get d k = Some v -> In k (dict_keys d).
Proof.
  intros H. apply dict_get_In in H. apply (in_map fst) in H. exact H.
Qed.

Lemma In_dict_get d k v : dict_wf d -> In (k, v) d -> dict_get d k = Some v.
Proof.
  unfold dict_wf. induction d as [| [k' v'] d IH]; simpl; [tauto |].
  intros Hnd [E | I].
  - injection E as -> ->. now rewrite String.eqb_refl.
  - inversion Hnd as [| ? ? Hni Hnd']; subst.
    destruct (String.eqb_spec k' k) as [-> | Hne].
    + exfalso. apply Hni. apply (in_map fst) in I. exact I.
    + auto.
Qed.

Lemma dict_get_set d k k' v :
  dict_get (dict_set d k v) k' = if String.eqb k k' then Some v else dict_get d k'.
Proof.
  induction d as [| [k0 v0] d IH]; simpl.
  - reflexivity.
  - destruct (String.eqb_spec k0 k) as [-> | Hne]; simpl.
    + destruct (String.eqb_spec k k'); reflexivity.
    + rewrite IH. destruct (String.eqb_spec k0 k') as [-> | Hne'].
      * destruct (String.eqb_spec k k'); [congruence | reflexivity].
      * reflexivity.
Qed.

Lemma dict_keys_set d k v :
  dict_keys (dict_set d k v)
  = if dict_has d k then dict_keys d else dict_keys d ++ [k].
Proof.
  unfold dict_has. induction d as [| [k0 v0] d IH]; simpl.
  - reflexivity.
  - destruct (String.eqb_spec k0 k) as [-> | Hne]; simpl.
    + reflexivity.
    + rewrite IH. destruct (dict_get d k); reflexivity.
Qed.

Lemma dict_has_In d k : dict_has d k = true <-> In k (dict_keys d).
Proof.
  unfold dict_has. destruct (dict_get d k) eqn:E.
  - split; [intros _; eapply dict_get_Some_key; eassumption | reflexivity].
  - apply dict_get_None in E. split; [discriminate | contradiction].
Qed.

Lemma dict_get_app_r d k v k' :
  dict_get d k = None ->
  dict_get (d ++ [(k, v)]) k' = if String.eqb k k' then Some v else dict_get d k'.
Proof.
  induction d as [| [k0 v0] d IH]; simpl.
  - intros _. destruct (String.eqb k k'); reflexivity.
  - destruct (String.eqb_spec k0 k) as [-> | Hne]; [discriminate |].
    intros H. rewrite (IH H).
    destruct (String.eqb_spec k0 k') as [-> | Hne'].
    + destruct (String.eqb_spec k k'); [congruence | reflexivity].
    + reflexivity.
Qed.

Lemma dict_set_wf d k v : dict_wf d -> dict_wf (dict_set d k v).
Proof.
  unfold dict_wf. intros H. rewrite dict_keys_set.
  destruct (dict_has d k) eqn:E; [assumption |].
  apply NoDup_app; [assumption | repeat constructor; auto |].
  intros a Ha [<- | []]. apply dict_has_In in Ha. congruence.
Qed.
End DictFacts.

(** ** Include extraction *)

Lemma strip_prefix_append (p s : string) :
  strip_prefix p (p ++ s)%string = Some s.
Proof.
  induction p as [| a p IH]; simpl; [reflexivity |].
  now rewrite Ascii.eqb_refl.
Qed.

Section MatcherFacts.
Context {R : Type}.

(** A run of [p] characters that ends before a character outside [p] is
    consumed whole by the star when the rest of the pattern then
    matches. *)
Lemma star_k_run (p : ascii -> bool) (k : string -> option R)
    (run : string) (c : ascii) (rest : string) (r : R) :
  all_chars p run = true -> p c = false ->
  k (String c rest) = Some r ->
  star_k p k (run ++ String c rest)%string = Some r.
Proof.
  intros Hrun Hc Hk. induction run as [| a run IH]; simpl in *.
  - now rewrite Hc.
  - apply andb_true_iff in Hrun as [Ha Hrun].
    rewrite Ha, (IH Hrun). reflexivity.
Qed.

(** The group takes the longest run of [p] characters, which a character
    outside [p] ends, when the rest of the pattern then matches. *)
Lemma plus_k_run (p : ascii -> bool) (k : string -> string -> option R)
    (a : ascii) (run : string) (c : ascii) (rest acc : string) (r : R) :
  p a = true -> all_chars p run = true -> p c = false ->
  k (acc ++ String a run)%string (String c rest) = Some r ->
  plus_k p k acc (String a run ++ String c rest)%string = Some r.
Proof.
  revert a acc. induction run as [| b run IH]; intros a acc Ha Hrun Hc Hk.
  - simpl. rewrite Ha, Hc. exact Hk.
  - simpl in Hrun. apply andb_true_iff in Hrun as [Hb Hrun].
    change (String a (String b run) ++ String c rest)%string
      with (String a (String b run ++ String c rest))%string.
    cbn [plus_k]. rewrite Ha.
    rewrite (IH b (acc ++ String a EmptyString)%string Hb Hrun Hc);
      [reflexivity |].
    rewrite <- Hk. f_equal.
    clear. induction acc as [| x acc IH]; simpl; [reflexivity |].
    now rewrite IH.
Qed.
End MatcherFacts.

Lemma is_open_not_space (c : ascii) : is_open c = true -> is_space c = false.
Proof.
  unfold is_open. intros H. apply orb_true_iff in H as [H | H];
    apply Ascii.eqb_eq in H; subst; reflexivity.
Qed.

Lemma match_include_shape (line ws name rest : string) (o c : ascii) :
  strip line = ("#include" ++ ws ++ String o (name ++ String c rest))%string ->
  all_chars is_space ws = true ->
  is_open o = true -> is_close c = true ->
  name <> EmptyString ->
  all_chars (fun x => negb (is_close x)) name = true ->
  match_include line = Some name.
Proof.
  intros Hline Hws Ho Hc Hne Hname.
  unfold match_include, include_pattern. rewrite Hline.
  cbn [re_match]. rewrite strip_prefix_append.
  destruct name as [| a name]; [congruence |].
  simpl in Hname. apply andb_true_iff in Hname as [Ha Hname].
  rewrite (star_k_run is_space _ ws o (String a name ++ String c rest)%string
             (Some (String a name))).
  - reflexivity.
  - exact Hws.
  - now apply is_open_not_space.
  - rewrite Ho.
    apply (plus_k_run (fun x => negb (is_close x)) _ a name c rest EmptyString).
    + exact Ha.
    + exact Hname.
    + now rewrite Hc.
    + simpl. now rewrite Hc.
Qed.

Lemma scan_line_keeps (includes : list string) (line x : string) :
  In x includes -> In x (scan_line includes line).
Proof.
  unfold scan_line. destruct (match_include line); [| tauto].
  intros H. apply set_add_In. now left.
Qed.

Lemma scan_lines_keep (lines includes : list string) (x : string) :
  In x includes -> In x (fold_left scan_line lines includes).
Proof.
  revert includes. induction lines as [| l lines IH]; simpl; intros; auto.
  apply IH. now apply scan_line_keeps.
Qed.

Lemma scan_lines_found (lines includes : list string) (line name : string) :
  In line lines -> match_include line = Some name ->
  In name (fold_left scan_line lines includes).
Proof.
  revert includes. induction lines as [| l lines IH]; simpl; [tauto |].
  intros includes [-> | Hin] Hm.
  - apply scan_lines_keep. unfold scan_line. rewrite Hm.
    apply set_add_In. now right.
  - now apply IH.
Qed.

Lemma scan_lines_origin (lines includes : list string) (name : string) :
  In name (fold_left scan_line lines includes) ->
  In name includes \/ exists line, In line lines /\ match_include line = Some name.
Proof.
  revert includes. induction lines as [| l lines IH]; simpl; [tauto |].
  intros includes H. apply IH in H as [H | [line [Hl Hm]]].
  - unfold scan_line in H. destruct (match_include l) eqn:E; [| now left].
    apply set_add_In in H as [H | ->]; [now left |].
    right. exists l. split; [now left | assumption].
  - right. exists line. split; [now right | assumption].
Qed.

Lemma scan_lines_NoDup (lines includes : list string) :
  NoDup includes -> NoDup (fold_left scan_line lines includes).
Proof.
  revert includes. induction lines as [| l lines IH]; simpl; intros; auto.
  apply IH. unfold scan_line. destruct (match_include l); [| assumption].
  now apply set_add_NoDup.
Qed.

(** C10. A line that, once stripped, reads [#include], optional white
    space, an opening delimiter, a non-empty name without closing
    delimiter, and then any closing delimiter, yields that name, whether or
    not the closing delimiter pairs with the opening one; [parse_includes]
    puts the name in the set it returns. The last two conjuncts are the
    two mixed forms: a quote closed by a bracket, a bracket closed by a
    quote. *)
Theorem parse_includes_accepts_mismatched_delimiters :
  forall (w : world) (file_path line ws name rest : string) (o c : ascii),
    In line (rr_lines (open_read w file_path)) ->
    strip line = ("#include" ++ ws ++ String o (name ++ String c rest))%string ->
    all_chars is_space ws = true ->
    is_open o = true -> is_close c = true ->
    name <> EmptyString ->
    all_chars (fun x => negb (is_close x)) name = true ->
    match_include line = Some name
    /\ In name (fst (parse_includes w file_path))
    /\ match_include ("#include " ++ dq ++ "x.h>") = Some "x.h"
    /\ match_include ("#include<x.h" ++ dq) = Some "x.h".
Proof.
  intros w file_path line ws name rest o c Hin Hline Hws Ho Hc Hne Hname.
  assert (Hm : match_include line = Some name)
    by (eapply match_include_shape; eassumption).
  split; [exact Hm |]. split.
  - unfold parse_includes.
    destruct (rr_error (open_read w file_path)); simpl;
      eapply scan_lines_found; eassumption.
  - split; reflexivity.
Qed.

Lemma parse_includes_accepts_mismatched_delimiters_witness :
  match_include ("  #include  <x.h" ++ dq ++ " // note" ++ nl) = Some "x.h"
  /\ In "x.h" (fst (parse_includes
                      (Scenario.tree_world (Dir ["m.c"] NoDirs)
                         (fun _ => Scenario.text
                            [("  #include  <x.h" ++ dq ++ " // note" ++ nl)%string]))
                      "m.c")).
Proof.
  pose proof (parse_includes_accepts_mismatched_delimiters
    (Scenario.tree_world (Dir ["m.c"] NoDirs)
       (fun _ => Scenario.text
          [("  #include  <x.h" ++ dq ++ " // note" ++ nl)%string]))
    "m.c" ("  #include  <x.h" ++ dq ++ " // note" ++ nl)%string
    "  " "x.h" " // note" "<"%char (ascii_of_nat 34)) as H.
  destruct H as [H1 [H2 _]].
  - simpl. left. reflexivity.
  - reflexivity.
  - reflexivity.
  - reflexivity.
  - reflexivity.
  - discriminate.
  - reflexivity.
  - split; assumption.
Defined.

(** ** File discovery *)

Lemma append_assoc (a b c : string) :
  ((a ++ b) ++ c = a ++ (b ++ c))%string.
Proof. induction a as [| x a IH]; simpl; [reflexivity | now rewrite IH]. Qed.

Lemma prefix_append (p s t : string) :
  String.prefix p s = true -> String.prefix p (s ++ t)%string = true.
Proof.
  revert s. induction p as [| a p IH]; intros s;
    [intros _; destruct (s ++ t)%string; reflexivity |].
  destruct s as [| b s]; simpl; [discriminate |].
  destruct (Ascii.ascii_dec a b); [apply IH | discriminate].
Qed.

Lemma prefix_refl (p t : string) : String.prefix p (p ++ t)%string = true.
Proof.
  induction p as [| a p IH]; simpl; [destruct t; reflexivity |].
  destruct (Ascii.ascii_dec a a); [exact IH | congruence].
Qed.

Lemma contains_append_l (sub s t : string) :
  contains sub s = true -> contains sub (s ++ t)%string = true.
Proof.
  induction s as [| c s IH]; cbn [contains].
  - rewrite orb_false_r. intros H. change (EmptyString ++ t)%string with t.
    destruct sub; [destruct t; reflexivity | discriminate H].
  - intros H.
    change (String c s ++ t)%string with (String c (s ++ t))%string.
    cbn [contains]. apply orb_true_iff in H as [H | H].
    + pose proof (prefix_append _ _ t H) as H'.
      change (String c s ++ t)%string with (String c (s ++ t))%string in H'.
      rewrite H'. reflexivity.
    + rewrite (IH H). apply orb_true_r.
Qed.

Lemma contains_append_r (sub s t : string) :
  contains sub t = true -> contains sub (s ++ t)%string = true.
Proof.
  intros H. induction s as [| c s IH]; simpl; [exact H |].
  rewrite IH. apply orb_true_r.
Qed.

Lemma contains_middle (sub a b : string) :
  contains sub (a ++ sub ++ b)%string = true.
Proof.
  apply contains_append_r.
  destruct sub as [| c sub]; simpl.
  - destruct b; reflexivity.
  - pose proof (prefix_refl (String c sub) b) as H. simpl in H.
    rewrite H. reflexivity.
Qed.

(** [os.path.join] of a directory and a listed name extends the
    directory path. *)
Lemma os_path_join_extends (a b : string) :
  startswith b "/" = false ->
  os_path_join a b = (a ++ b)%string \/ os_path_join a b = (a ++ "/" ++ b)%string.
Proof.
  intros H. unfold os_path_join. rewrite H.
  destruct (String.eqb a EmptyString || endswith a "/"); auto.
Qed.

Lemma os_walk_roots_extend :
  (forall t top root names,
      names_ok t -> In (root, names) (os_walk top t) ->
      exists suffix, root = (top ++ suffix)%string)
  /\ (forall f top root names,
        forest_ok f -> In (root, names) (walk_subdirs top f) ->
        exists suffix, root = (top ++ suffix)%string).
Proof.
  assert (Hnil : forall x : string, (x ++ EmptyString)%string = x)
    by (induction x as [| c x IH]; simpl; [reflexivity | now rewrite IH]).
  apply dirtree_forest_mutind.
  - intros fs subs IH top root names Hok [E | Hin].
    + injection E as <- _. exists EmptyString. now rewrite Hnil.
    + exact (IH top root names Hok Hin).
  - intros top root names _ [].
  - intros name t IHt rest IHrest top root names [Hname [Ht Hrest]] Hin.
    cbn [walk_subdirs] in Hin. apply in_app_iff in Hin as [Hin | Hin].
    + destruct (IHt _ _ _ Ht Hin) as [suffix ->].
      destruct (os_path_join_extends top name Hname) as [-> | ->];
        rewrite !append_assoc; eauto.
    + exact (IHrest top root names Hrest Hin).
Qed.

Lemma skipped_root_extends (top suffix : string) :
  skipped_root top = true -> skipped_root (top ++ suffix)%string = true.
Proof.
  unfold skipped_root. intros H. apply orb_true_iff in H as [H | H].
  - now rewrite (contains_append_l _ _ _ H).
  - apply orb_true_iff. right.
    apply existsb_exists in H as [x [Hx Hc]].
    apply existsb_exists. exists x. split; [exact Hx |].
    now apply contains_append_l.
Qed.

Lemma endswith_append (a b p : string) :
  endswith b p = true -> endswith (a ++ b)%string p = true.
Proof.
  intros H. induction a as [| c a IH]; simpl; [exact H |].
  rewrite IH. apply orb_true_r.
Qed.

Lemma endswith_slash_guest (q : string) :
  endswith (q ++ "guest")%string "/" = false.
Proof.
  induction q as [| c q IH]; [reflexivity |].
  change (String c q ++ "guest")%string with (String c (q ++ "guest"))%string.
  cbn [endswith]. rewrite IH, orb_false_r.
  apply String.eqb_neq. intros E. injection E as _ E.
  destruct q; discriminate.
Qed.

Lemma clib_is_skipped (parent : string) :
  skipped_root (os_path_join parent "clib") = true.
Proof.
  unfold skipped_root. apply orb_true_iff. left.
  destruct (os_path_join_extends parent "clib" eq_refl) as [-> | ->].
  - apply contains_append_r. reflexivity.
  - apply contains_append_r. reflexivity.
Qed.

Lemma guest_subdir_is_skipped (parent sub : string) :
  In sub ["linux"; "nimbos"; "testos"] ->
  skipped_root (os_path_join (os_path_join parent "guest") sub) = true.
Proof.
  intros Hsub.
  assert (Hq : exists q, os_path_join parent "guest" = (q ++ "guest")%string).
  { destruct (os_path_join_extends parent "guest" eq_refl) as [-> | ->].
    - now exists parent.
    - exists (parent ++ "/")%string. now rewrite append_assoc. }
  destruct Hq as [q ->].
  assert (Hs : startswith sub "/" = false)
    by (destruct Hsub as [<- | [<- | [<- | []]]]; reflexivity).
  unfold os_path_join at 1. rewrite Hs, endswith_slash_guest, orb_false_r.
  replace (String.eqb (q ++ "guest") EmptyString) with false
    by (symmetry; apply String.eqb_neq; destruct q; discriminate).
  rewrite append_assoc.
  unfold skipped_root. apply orb_true_iff. right.
  apply existsb_exists. exists ("guest/" ++ sub)%string. split.
  - destruct Hsub as [<- | [<- | [<- | []]]]; simpl; auto.
  - apply contains_append_r.
    destruct Hsub as [<- | [<- | [<- | []]]]; reflexivity.
Qed.

Lemma visit_file_kept (w : world) (root : string) (fs : dict string)
    (file : string) :
  visit_file w root fs file
  = if kept root file
    then dict_set fs file (os_path_relpath w (os_path_join root file))
    else fs.
Proof.
  unfold visit_file, kept.
  destruct (endswith_any file source_exts); simpl; [| reflexivity].
  destruct (contains "guest" root); [reflexivity |].
  destruct (contains "app" root && String.eqb file "syscall.S"); reflexivity.
Qed.

Lemma visit_files_origin (w : world) (root : string) (names : list string)
    (fs : dict string) (k p : string) :
  dict_get (fold_left (visit_file w root) names fs) k = Some p ->
  dict_get fs k = Some p
  \/ (In k names /\ kept root k = true
      /\ p = os_path_relpath w (os_path_join root k)).
Proof.
  revert fs. induction names as [| f names IH]; simpl; intros fs H; [now left |].
  apply IH in H as [H | [Hin [Hk Hp]]]; [| right; auto].
  rewrite visit_file_kept in H. destruct (kept root f) eqn:E; [| now left].
  rewrite dict_get_set in H. destruct (String.eqb_spec f k) as [-> | Hne].
  - injection H as <-. right. auto.
  - now left.
Qed.

Lemma visit_files_keep (w : world) (root : string) (names : list string)
    (fs : dict string) (k : string) :
  dict_has fs k = true ->
  dict_has (fold_left (visit_file w root) names fs) k = true.
Proof.
  revert fs. induction names as [| f names IH]; simpl; intros fs H; [exact H |].
  apply IH. rewrite visit_file_kept. destruct (kept root f); [| exact H].
  unfold dict_has in *. rewrite dict_get_set.
  destruct (String.eqb f k); [reflexivity | exact H].
Qed.

Lemma visit_files_record (w : world) (root : string) (names : list string)
    (fs : dict string) (k : string) :
  In k names -> kept root k = true ->
  dict_has (fold_left (visit_file w root) names fs) k = true.
Proof.
  revert fs. induction names as [| f names IH]; simpl;
    [intros fs [] | intros fs [-> | Hin] Hk].
  - apply visit_files_keep. rewrite visit_file_kept, Hk.
    unfold dict_has. rewrite dict_get_set, String.eqb_refl. reflexivity.
  - now apply IH.
Qed.

Lemma visit_dir_keep (w : world) (entry : string * list string)
    (fs : dict string) (k : string) :
  dict_has fs k = true -> dict_has (visit_dir w fs entry) k = true.
Proof.
  destruct entry as [root names]. unfold visit_dir.
  destruct (skipped_root root); [tauto | apply visit_files_keep].
Qed.

Lemma visit_dirs_keep (w : world) (entries : list (string * list string))
    (fs : dict string) (k : string) :
  dict_has fs k = true ->
  dict_has (fold_left (visit_dir w) entries fs) k = true.
Proof.
  revert fs. induction entries as [| e entries IH]; simpl; intros fs H; auto.
  apply IH. now apply visit_dir_keep.
Qed.

Lemma visit_dirs_origin (w : world) (entries : list (string * list string))
    (fs : dict string) (k p : string) :
  dict_get (fold_left (visit_dir w) entries fs) k = Some p ->
  dict_get fs k = Some p
  \/ exists root names,
       In (root, names) entries /\ In k names /\ skipped_root root = false
       /\ kept root k = true /\ p = os_path_relpath w (os_path_join root k).
Proof.
  revert fs. induction entries as [| [root names] entries IH]; simpl;
    intros fs H; [now left |].
  apply IH in H as [H | [r [n [Hin H]]]].
  - destruct (skipped_root root) eqn:E; [now left |].
    apply visit_files_origin in H as [H | [H1 [H2 H3]]]; [now left |].
    right. exists root, names. auto 6.
  - right. exists r, n. split; [now right | exact H].
Qed.

Lemma visit_dirs_record (w : world) (entries : list (string * list string))
    (fs : dict string) (root : string) (names : list string) (k : string) :
  In (root, names) entries -> In k names -> skipped_root root = false ->
  kept root k = true ->
  dict_has (fold_left (visit_dir w) entries fs) k = true.
Proof.
  revert fs. induction entries as [| e entries IH]; simpl;
    [intros fs [] | intros fs [-> | Hin] Hk Hs Hkept].
  - apply visit_dirs_keep. simpl. rewrite Hs. now apply visit_files_record.
  - now apply IH.
Qed.

Lemma scan_roots_keep (w : world) (sd : list string) (fs : dict string)
    (k : string) :
  dict_has fs k = true ->
  dict_has (fold_left (scan_root w) sd fs) k = true.
Proof.
  revert fs. induction sd as [| s sd IH]; simpl; intros fs H; auto.
  apply IH. unfold scan_root. destruct (os_path_exists w s); simpl; [| exact H].
  now apply visit_dirs_keep.
Qed.

Lemma scan_roots_origin (w : world) (sd : list string) (fs : dict string)
    (k p : string) :
  dict_get (fold_left (scan_root w) sd fs) k = Some p ->
  dict_get fs k = Some p \/ recorded w sd k p.
Proof.
  revert fs. induction sd as [| s sd IH]; simpl; intros fs H; [now left |].
  apply IH in H as [H | [s' [r [n [Hin H]]]]].
  - unfold scan_root in H. destruct (os_path_exists w s) eqn:E; simpl in H;
      [| now left].
    apply visit_dirs_origin in H as [H | [r [n [H1 [H2 [H3 [H4 H5]]]]]]];
      [now left |].
    right. exists s, r, n. simpl. intuition auto.
  - right. exists s', r, n. split; [now right | exact H].
Qed.

Lemma scan_roots_record (w : world) (sd : list string) (fs : dict string)
    (src_dir root : string) (names : list string) (k : string) :
  In src_dir sd -> os_path_exists w src_dir = true ->
  In (root, names) (walk w src_dir) -> In k names ->
  skipped_root root = false -> kept root k = true ->
  dict_has (fold_left (scan_root w) sd fs) k = true.
Proof.
  revert fs. induction sd as [| s sd IH]; simpl;
    [intros fs [] | intros fs [-> | Hin] He Hw Hk Hs Hkept].
  - apply scan_roots_keep. unfold scan_root. rewrite He. simpl.
    eapply visit_dirs_record; eassumption.
  - now apply IH.
Qed.

Lemma category_excluded (root : string) :
  category_of root = Excluded <-> skipped_root root = true.
Proof.
  unfold category_of. destruct (skipped_root root); [tauto |].
  destruct (contains "guest" root); [split; discriminate |].
  destruct (contains "app" root); split; discriminate.
Qed.

Lemma kept_category (root file : string) :
  skipped_root root = false -> kept root file = true ->
  match category_of root with
  | Excluded => False
  | GuestPayload => In file guest_allowed
  | Application => file <> "syscall.S"
  | Ordinary => True
  end.
Proof.
  unfold category_of, kept. intros -> H.
  apply andb_true_iff in H as [_ H].
  destruct (contains "guest" root); [now apply mem_In |].
  destruct (contains "app" root); [| exact I].
  simpl in H. apply negb_true_iff in H. now apply String.eqb_neq.
Qed.

(** C7. Every entry of the discovery mapping comes from a file with a
    source extension that the walk met in a directory that is not
    excluded; in a guest-payload directory only the three allow-listed
    names are recorded, in an application directory never [syscall.S]. A
    directory named [clib], or named [linux], [nimbos] or [testos] below
    [guest], is excluded, and so is every directory below an excluded one.
    The other source files of an application directory are recorded. In the
    scenario of a root with [app/syscall.S], the mapping holds the siblings
    and no [syscall.S]. *)
Theorem find_source_files_filters :
  forall (w : world) (sd id : list string),
    (forall file p,
        dict_get (files (find_source_files w (init sd id))) file = Some p ->
        exists src_dir root names,
          In src_dir sd /\ In (root, names) (walk w src_dir) /\ In file names
          /\ p = os_path_relpath w (os_path_join root file)
          /\ endswith_any file source_exts = true
          /\ match category_of root with
             | Excluded => False
             | GuestPayload => In file guest_allowed
             | Application => file <> "syscall.S"
             | Ordinary => True
             end)
    /\ (forall parent sub,
          category_of (os_path_join parent "clib") = Excluded
          /\ (In sub ["linux"; "nimbos"; "testos"] ->
              category_of (os_path_join (os_path_join parent "guest") sub)
              = Excluded))
    /\ (forall top t root names,
          names_ok t -> In (root, names) (os_walk top t) ->
          category_of top = Excluded -> category_of root = Excluded)
    /\ (forall src_dir root names file,
          In src_dir sd -> os_path_exists w src_dir = true ->
          In (root, names) (walk w src_dir) -> In file names ->
          endswith_any file source_exts = true ->
          category_of root = Application -> file <> "syscall.S" ->
          dict_has (files (find_source_files w (init sd id))) file = true)
    /\ files (find_source_files Scenario.app_world
                (init main_src_dirs main_include_dirs))
       = [("main.c", "main.c"); ("shell.c", "app/shell.c");
          ("app.h", "app/app.h")].
Proof.
  intros w sd id. split; [| split; [| split; [| split]]].
  - intros file p H. unfold find_source_files in H. simpl in H.
    apply scan_roots_origin in H as [H | H]; [discriminate |].
    destruct H as [s [r [n [H1 [H2 [H3 [H4 [H5 [H6 H7]]]]]]]]].
    exists s, r, n. repeat (split; [assumption |]). split.
    + unfold kept in H6. now apply andb_true_iff in H6 as [H6 _].
    + now apply kept_category.
  - intros parent sub. split.
    + apply category_excluded, clib_is_skipped.
    + intros H. now apply category_excluded, guest_subdir_is_skipped.
  - intros top t root names Hok Hin Htop.
    apply category_excluded. apply category_excluded in Htop.
    destruct (proj1 os_walk_roots_extend t top root names Hok Hin) as [x ->].
    now apply skipped_root_extends.
  - intros src_dir root names file Hs He Hw Hf Hext Hcat Hne.
    unfold find_source_files. simpl.
    unfold category_of in Hcat.
    destruct (skipped_root root) eqn:Es; [discriminate |].
    destruct (contains "guest" root) eqn:Eg; [discriminate |].
    destruct (contains "app" root) eqn:Ea; [| discriminate].
    eapply scan_roots_record; try eassumption.
    unfold kept. rewrite Hext, Eg, Ea. simpl.
    apply negb_true_iff. now apply String.eqb_neq.
  - reflexivity.
Qed.

(** ** Unreadable files *)

(** C6, as the code has it. When reading a file fails, [parse_includes]
    prints one warning and returns the names found on the lines that
    were read before the failure (none when the file could not be opened,
    in which case the graph is left as it was), and the builder goes on
    with the remaining files. *)
Theorem parse_includes_recovers_from_read_failure :
  forall (w : world) (a : analyzer) (file_name file_path e : string)
         (st : (graph * graph) * list string)
         (rest : list (string * string)),
    rr_error (open_read w file_path) = Some e ->
    snd (parse_includes w file_path) = [warning file_path e]
    /\ (forall name,
          In name (fst (parse_includes w file_path)) <->
          exists line,
            In line (rr_lines (open_read w file_path))
            /\ match_include line = Some name)
    /\ (rr_lines (open_read w file_path) = [] ->
        fst (parse_includes w file_path) = []
        /\ fst (visit_source w a st (file_name, file_path)) = fst st)
    /\ (is_compiled file_path = true ->
        snd (visit_source w a st (file_name, file_path))
        = snd st ++ [warning file_path e])
    /\ fold_left (visit_source w a) ((file_name, file_path) :: rest) st
       = fold_left (visit_source w a) rest
           (visit_source w a st (file_name, file_path)).
Proof.
  intros w a file_name file_path e st rest He.
  unfold visit_source, parse_includes. simpl. rewrite He. simpl.
  split; [reflexivity |]. split; [| split; [| split]].
  - intros name. split.
    + intros H. apply scan_lines_origin in H as [[] | H]. exact H.
    + intros [line [Hl Hm]]. eapply scan_lines_found; eassumption.
  - intros ->. simpl. split; [reflexivity |].
    destruct (is_compiled file_path); reflexivity.
  - intros ->. reflexivity.
  - reflexivity.
Qed.

Lemma parse_includes_recovers_from_read_failure_witness :
  snd (parse_includes Scenario.failing_world "a.c")
  = [warning "a.c" "[Errno 5] Input/output error"].
Proof.
  exact (proj1 (parse_includes_recovers_from_read_failure
                  Scenario.failing_world (init ["."] []) "a.c" "a.c"
                  "[Errno 5] Input/output error" (([], []), []) []
                  eq_refl)).
Defined.

(** C6 as the specification words it does not hold when the error comes
    after an include line was read: the file is not treated as having zero
    includes, and the graph gets its edge. *)
Lemma read_failure_keeps_earlier_includes :
  rr_error (open_read Scenario.failing_world "a.c") <> None
  /\ fst (parse_includes Scenario.failing_world "a.c") = ["b.h"]
  /\ dependencies
       (fst (build_dependency_graph Scenario.failing_world
               (init main_src_dirs main_include_dirs)))
     = [("a.c", ["b.h"])].
Proof.
  split; [discriminate |]. split; reflexivity.
Qed.

(** ** Graph builder *)

Lemma adj_get (d : graph) (k : string) :
  adj d k = match dict_get d k with Some v => v | None => [] end.
Proof. unfold adj, dd_get. destruct (dict_get d k); reflexivity. Qed.

Lemma dict_get_touch (d : graph) (k k' : string) :
  dict_get (touch d k) k'
  = match dict_get d k' with
    | Some v => Some v
    | None => if String.eqb k k' then Some [] else None
    end.
Proof.
  unfold touch, dd_get. destruct (dict_get d k) eqn:E; simpl.
  - destruct (dict_get d k') eqn:E'; [reflexivity |].
    destruct (String.eqb_spec k k'); [congruence | reflexivity].
  - rewrite (dict_get_app_r d k [] k' E).
    destruct (String.eqb_spec k k') as [<- | Hne].
    + now rewrite E.
    + destruct (dict_get d k'); reflexivity.
Qed.

Lemma adj_touch (d : graph) (k k' : string) : adj (touch d k) k' = adj d k'.
Proof.
  rewrite !adj_get, dict_get_touch.
  destruct (dict_get d k'); [reflexivity |].
  destruct (String.eqb k k'); reflexivity.
Qed.

Lemma touch_keys (d : graph) (k k' : string) :
  In k' (dict_keys (touch d k)) <-> In k' (dict_keys d) \/ k' = k.
Proof.
  unfold touch, dd_get. destruct (dict_get d k) eqn:E; simpl.
  - apply dict_get_Some_key in E. split; [tauto | intros [H | ->]; assumption].
  - unfold dict_keys. rewrite map_app, in_app_iff. simpl. intuition congruence.
Qed.

Lemma touch_wf (d : graph) (k : string) : dict_wf d -> dict_wf (touch d k).
Proof.
  unfold touch, dd_get, dict_wf. intros H. destruct (dict_get d k) eqn:E; simpl.
  - exact H.
  - apply dict_get_None in E. unfold dict_keys in *. rewrite map_app. simpl.
    apply NoDup_app; [assumption | repeat constructor; auto |].
    intros x Hx [<- | []]. contradiction.
Qed.

Lemma adj_dd_add (d : graph) (k x k' : string) :
  adj (dd_add d k x) k' = if String.eqb k k' then set_add x (adj d k) else adj d k'.
Proof.
  unfold dd_add. rewrite adj_get, dict_get_set.
  destruct (String.eqb k k'); [reflexivity |].
  rewrite <- adj_get. apply adj_touch.
Qed.

Lemma edge_dd_add (d : graph) (k x u v : string) :
  edge (dd_add d k x) u v <-> edge d u v \/ (u = k /\ v = x).
Proof.
  unfold edge. rewrite adj_dd_add.
  destruct (String.eqb_spec k u) as [-> | Hne].
  - rewrite set_add_In. intuition congruence.
  - intuition congruence.
Qed.

Lemma edge_add_edges (l : list (string * string)) (g : graph * graph)
    (u v : string) :
  (edge (fst (fold_left add_edge l g)) u v <-> edge (fst g) u v \/ In (u, v) l)
  /\ (edge (snd (fold_left add_edge l g)) v u
      <-> edge (snd g) v u \/ In (u, v) l).
Proof.
  revert g. induction l as [| [s t] l IH]; intros g; simpl; [tauto |].
  destruct (IH (add_edge g (s, t))) as [IH1 IH2]. rewrite IH1, IH2.
  simpl. rewrite !edge_dd_add. split; split; intros H;
    intuition (try congruence).
Qed.

Lemma add_edges_transposed (l : list (string * string)) (g : graph * graph) :
  transposed g -> transposed (fold_left add_edge l g).
Proof.
  intros H u v. destruct (edge_add_edges l g u v) as [H1 H2].
  rewrite H1, H2, (H u v). reflexivity.
Qed.

Lemma add_edges_no_self_loop (l : list (string * string)) (g : graph * graph) :
  Forall (fun e => fst e <> snd e) l ->
  no_self_loop (fst g) -> no_self_loop (fst (fold_left add_edge l g)).
Proof.
  intros Hl Hg u Hu. apply (proj1 (edge_add_edges l g u u)) in Hu as [Hu | Hu].
  - exact (Hg u Hu).
  - rewrite Forall_forall in Hl. exact (Hl _ Hu eq_refl).
Qed.

Lemma visit_includes_fold (w : world) (a : analyzer) (file_path : string)
    (includes : list string) (g : graph * graph) :
  fold_left (visit_include w a file_path) includes g
  = fold_left add_edge
      (flat_map
         (fun include =>
            match resolve_include w a include with
            | Some r =>
                if edge_wanted file_path (Some r) then [(file_path, r)] else []
            | None => []
            end) includes) g.
Proof.
  revert g. induction includes as [| i includes IH]; intros g;
    cbn [fold_left flat_map]; [reflexivity |].
  rewrite fold_left_app, IH. f_equal. unfold visit_include.
  destruct (resolve_include w a i) as [r |]; [| reflexivity].
  destruct (edge_wanted file_path (Some r)); reflexivity.
Qed.

Lemma visit_sources_fold (w : world) (a : analyzer)
    (items : list (string * string)) (st : (graph * graph) * list string) :
  fst (fold_left (visit_source w a) items st)
  = fold_left add_edge
      (flat_map
         (fun item =>
            if is_compiled (snd item) then edges_of_file w a (snd item) else [])
         items) (fst st).
Proof.
  revert st. induction items as [| item items IH]; intros st;
    cbn [fold_left flat_map]; [reflexivity |].
  rewrite fold_left_app, IH. f_equal. unfold visit_source.
  destruct (is_compiled (snd item)); simpl; [| reflexivity].
  unfold edges_of_file.
  destruct (parse_includes w (snd item)) as [includes printed]. simpl.
  apply visit_includes_fold.
Qed.

(** The graph the builder returns is the result of its edge insertions. *)
Lemma build_dependency_graph_fold (w : world) (sd id : list string) :
  let a := find_source_files w (init sd id) in
  let b := fst (build_dependency_graph w (init sd id)) in
  (dependencies b, reverse_deps b)
  = fold_left add_edge (edge_insertions w a) ([], []).
Proof.
  simpl. unfold build_dependency_graph. simpl.
  rewrite <- surjective_pairing. apply visit_sources_fold.
Qed.

Lemma dd_add_wf (d : graph) (k x : string) :
  dict_wf d -> dict_wf (dd_add d k x).
Proof. intros H. unfold dd_add. now apply dict_set_wf, touch_wf. Qed.

Lemma add_edges_wf (l : list (string * string)) (g : graph * graph) :
  dict_wf (fst g) -> dict_wf (snd g) ->
  dict_wf (fst (fold_left add_edge l g))
  /\ dict_wf (snd (fold_left add_edge l g)).
Proof.
  revert g. induction l as [| [s t] l IH]; intros g H1 H2; simpl; [auto |].
  apply IH; simpl; now apply dd_add_wf.
Qed.

(** Both mappings the builder returns hold each key once. *)
Lemma build_dependency_graph_wf (w : world) (sd id : list string) :
  let b := fst (build_dependency_graph w (init sd id)) in
  dict_wf (dependencies b) /\ dict_wf (reverse_deps b).
Proof.
  pose proof (build_dependency_graph_fold w sd id) as H. cbv zeta in *.
  pose proof (add_edges_wf
                (edge_insertions w (find_source_files w (init sd id)))
                ([], [])) as Hw.
  rewrite <- H in Hw. simpl in Hw. apply Hw; constructor.
Qed.

Lemma truthy_nonempty (s : string) : truthy s = true <-> s <> EmptyString.
Proof. destruct s; simpl; split; congruence. Qed.

Lemma edge_insertions_spec (w : world) (a : analyzer) (u v : string) :
  In (u, v) (edge_insertions w a) <->
  (exists name, In (name, u) (files a)) /\ is_compiled u = true
  /\ exists include,
       In include (fst (parse_includes w u))
       /\ resolve_include w a include = Some v
       /\ v <> EmptyString /\ v <> u.
Proof.
  unfold edge_insertions, edges_of_file. rewrite in_flat_map. split.
  - intros [[name p] [Hin H]]. cbn [snd] in H.
    destruct (is_compiled p) eqn:Ec; [| destruct H].
    apply in_flat_map in H as [include [Hi H]].
    destruct (resolve_include w a include) as [r |] eqn:Er; [| destruct H].
    destruct (edge_wanted p (Some r)) eqn:Ew; [| destruct H].
    destruct H as [H | []]. injection H as -> ->.
    cbn [edge_wanted] in Ew. apply andb_true_iff in Ew as [Ht Hn].
    apply truthy_nonempty in Ht. apply negb_true_iff, String.eqb_neq in Hn.
    split; [now exists name |]. split; [assumption |].
    exists include. auto.
  - intros [[name Hin] [Hc [include [Hi [Hr [Ht Hn]]]]]].
    exists (name, u). split; [assumption |]. cbn [snd]. rewrite Hc.
    apply in_flat_map. exists include. split; [assumption |].
    rewrite Hr. cbn [edge_wanted]. apply truthy_nonempty in Ht. rewrite Ht.
    apply String.eqb_neq in Hn. rewrite Hn. simpl. now left.
Qed.

Lemma edge_insertions_irreflexive (w : world) (a : analyzer) :
  Forall (fun e => fst e <> snd e) (edge_insertions w a).
Proof.
  apply Forall_forall. intros [u v] H. apply edge_insertions_spec in H.
  destruct H as [_ [_ [i [_ [_ [_ H]]]]]]. simpl. congruence.
Qed.

Lemma firstn_Forall {A} (P : A -> Prop) (n : nat) (l : list A) :
  Forall P l -> Forall P (firstn n l).
Proof.
  intros H. revert n. induction H as [| x l Hx Hl IH]; intros [| n]; simpl;
    constructor; auto.
Qed.

(** C4. After each edge insertion of the builder (the state after the
    first [n] insertions, for every [n]) the reverse index is the transpose
    of the forward mapping and no key maps to a set that contains it; the
    graph the builder returns is the state after the last insertion. *)
Theorem builder_keeps_reverse_index_transposed :
  forall (w : world) (sd id : list string) (n : nat),
    let a := find_source_files w (init sd id) in
    let g := fold_left add_edge (firstn n (edge_insertions w a)) ([], []) in
    let b := fst (build_dependency_graph w (init sd id)) in
    transposed g /\ no_self_loop (fst g)
    /\ (dependencies b, reverse_deps b)
       = fold_left add_edge
           (firstn (List.length (edge_insertions w a)) (edge_insertions w a))
           ([], []).
Proof.
  intros w sd id n a g b. split; [| split].
  - apply add_edges_transposed. intros u v. unfold edge. simpl. tauto.
  - apply add_edges_no_self_loop.
    + apply firstn_Forall, edge_insertions_irreflexive.
    + intros u H. exact H.
  - rewrite firstn_all. apply build_dependency_graph_fold.
Qed.

(** Two files that include each other: the search starts at the first
    key and comes back to it. *)
Lemma two_files_cycle (w : world) (x y : string) :
  x <> y -> 2 <= dfs_frames w ->
  exists d,
    find_circular_dependencies w [(x, [y]); (y, [x])]
    = Ok (Some [x; y; x], d).
Proof.
  intros Hxy Hf. unfold find_circular_dependencies.
  destruct (dfs_frames w) as [| [| k]]; [lia | lia |].
  assert (Exy : String.eqb x y = false) by now apply String.eqb_neq.
  assert (Eyx : String.eqb y x = false)
    by (apply String.eqb_neq; congruence).
  eexists.
  repeat (progress (cbv - [String.eqb];
                    rewrite ?String.eqb_refl, ?Exy, ?Eyx)).
  reflexivity.
Qed.

(** C1, as the code has it. The builder scans the discovered files whose
    path ends in [.c] or [.S] and no other: the forward mapping has the
    edge from [u] to [v] exactly when [u] is such a file and its text
    includes a name that resolves to a non-empty path [v] other than [u].
    A header is never scanned, so no edge starts at a header that is not
    also named [.c] or [.S]: when [a.h] and [b.h] include each other the
    graph is empty and the cycle detector returns [None]. Two compiled
    sources that include each other give the closed sequence that starts
    at the one discovered first: [a.c, b.c, a.c] when the directory lists
    [a.c] first, and the rotation [b.c, a.c, b.c] when it lists [b.c]
    first. *)
Theorem builder_edges_start_at_compiled_sources :
  forall (w : world) (sd id : list string) (u v : string),
    let a := find_source_files w (init sd id) in
    let b := fst (build_dependency_graph w (init sd id)) in
    (edge (dependencies b) u v <->
     (exists name, In (name, u) (files a)) /\ is_compiled u = true
     /\ exists include,
          In include (fst (parse_includes w u))
          /\ resolve_include w a include = Some v
          /\ v <> EmptyString /\ v <> u)
    /\ (let h := fst (build_dependency_graph Scenario.headers_world
                        (init main_src_dirs main_include_dirs)) in
        dependencies h = []
        /\ find_circular_dependencies Scenario.headers_world (dependencies h)
           = Ok (None, []))
    /\ (let s := fst (build_dependency_graph Scenario.sources_world
                        (init main_src_dirs main_include_dirs)) in
        dependencies s = [("a.c", ["b.c"]); ("b.c", ["a.c"])]
        /\ exists d,
             find_circular_dependencies Scenario.sources_world (dependencies s)
             = Ok (Some ["a.c"; "b.c"; "a.c"], d))
    /\ (let s := fst (build_dependency_graph Scenario.sources_world_b_first
                        (init main_src_dirs main_include_dirs)) in
        dependencies s = [("b.c", ["a.c"]); ("a.c", ["b.c"])]
        /\ exists d,
             find_circular_dependencies Scenario.sources_world_b_first
               (dependencies s)
             = Ok (Some ["b.c"; "a.c"; "b.c"], d))
    /\ (forall (w' : world) (x y : string),
          x <> y -> 2 <= dfs_frames w' ->
          exists d,
            find_circular_dependencies w' [(x, [y]); (y, [x])]
            = Ok (Some [x; y; x], d)).
Proof.
  intros w sd id u v a b. split; [| split; [| split; [| split]]].
  - pose proof (build_dependency_graph_fold w sd id) as H. simpl in H.
    fold a b in H.
    assert (Hd : dependencies b
                 = fst (fold_left add_edge (edge_insertions w a) ([], [])))
      by (rewrite <- H; reflexivity).
    rewrite Hd.
    rewrite (proj1 (edge_add_edges (edge_insertions w a) ([], []) u v)).
    rewrite edge_insertions_spec. unfold edge. simpl. tauto.
  - split; reflexivity.
  - split; [reflexivity | eexists; reflexivity].
  - split; [reflexivity | eexists; reflexivity].
  - intros w' x y Hxy Hf. apply two_files_cycle; assumption.
Qed.

(** C1 as the specification words it does not hold on its own scenario:
    [a.h] and [b.h] are discovered, the text of each includes the other,
    the names resolve to the discovered headers, and yet the graph has no
    edge from [a.h] to [b.h] and the cycle detector returns [None]. *)
Lemma header_includes_make_no_edge :
  files (find_source_files Scenario.headers_world
           (init main_src_dirs main_include_dirs))
  = [("a.h", "a.h"); ("b.h", "b.h")]
  /\ fst (parse_includes Scenario.headers_world "a.h") = ["b.h"]
  /\ resolve_include Scenario.headers_world
       (find_source_files Scenario.headers_world
          (init main_src_dirs main_include_dirs)) "b.h"
     = Some "b.h"
  /\ ~ edge (dependencies
               (fst (build_dependency_graph Scenario.headers_world
                       (init main_src_dirs main_include_dirs))))
         "a.h" "b.h"
  /\ find_circular_dependencies Scenario.headers_world
       (dependencies
          (fst (build_dependency_graph Scenario.headers_world
                  (init main_src_dirs main_include_dirs))))
     = Ok (None, []).
Proof.
  repeat split; try reflexivity.
  intros H. exact H.
Qed.

(** ** DOT export *)

Lemma fold_append_map {A} (f : A -> string) (l : list A) (acc : list string) :
  fold_left (fun out x => out ++ [f x]) l acc = acc ++ map f l.
Proof.
  revert acc. induction l as [| x l IH]; intros acc; simpl.
  - now rewrite app_nil_r.
  - rewrite IH, <- app_assoc. reflexivity.
Qed.

Lemma fold_edges_flat_map (d : graph) (acc : list string) :
  fold_left
    (fun f item =>
       fold_left (fun f dep => f ++ [edge_stmt (fst item) dep]) (snd item) f)
    d acc
  = acc ++ flat_map (fun item => map (edge_stmt (fst item)) (snd item)) d.
Proof.
  revert acc. induction d as [| item d IH]; intros acc; simpl.
  - now rewrite app_nil_r.
  - rewrite IH, fold_append_map, <- app_assoc. reflexivity.
Qed.

Lemma total_deps_flat_map (d : graph) :
  total_deps d
  = List.length (flat_map (fun item => map (edge_stmt (fst item)) (snd item)) d).
Proof.
  unfold total_deps.
  assert (H : forall n,
             fold_left (fun n deps => n + List.length deps) (dict_values d) n
             = n + List.length
                     (flat_map (fun item => map (edge_stmt (fst item)) (snd item)) d)).
  { induction d as [| item d IH]; intros n; simpl; [lia |].
    rewrite IH, length_app, length_map. lia. }
  exact (H 0).
Qed.

Lemma os_path_basename_plain (p : string) :
  contains "/" p = false -> os_path_basename p = p.
Proof.
  intros H. destruct p as [| c p]; [reflexivity |].
  cbn [os_path_basename]. now rewrite H.
Qed.

Lemma os_path_basename_join (dir name : string) :
  contains "/" name = false ->
  os_path_basename (dir ++ "/" ++ name) = name.
Proof.
  intros H. induction dir as [| c dir IH].
  - change (os_path_basename (String "/"%char name) = name).
    cbn [os_path_basename].
    replace (contains "/" (String "/"%char name)) with true
      by (symmetry; apply (contains_middle "/" EmptyString name)).
    now apply os_path_basename_plain.
  - change (os_path_basename (String c (dir ++ "/" ++ name)) = name).
    cbn [os_path_basename].
    replace (contains "/" (String c (dir ++ "/" ++ name))) with true
      by (symmetry; apply (contains_middle "/" (String c dir) name)).
    exact IH.
Qed.

(** C8. The exporter writes the three header lines of the digraph block,
    then one node statement for each entry of the discovery mapping, in
    order, then one edge statement for each element of each set of the
    forward mapping, in order, then the closing brace, every one ended by
    a line feed. A node statement is the path in double quotes followed by
    a label, a fill colour and the style in square brackets, and a
    semicolon; the label is the last component of the path; the fill
    colour is [lightblue] for a path that ends in [.h] and [lightgreen]
    otherwise. An edge statement is the including path, an arrow and the
    included path, both in double quotes, and a semicolon. The file holds
    these strings one after the other. *)
Theorem dot_graph_has_one_statement_per_node_and_edge :
  forall (w : world) (a : analyzer) (output_file : string),
    let q := String "034"%char EmptyString in
    let lf := String "010"%char EmptyString in
    let node_statement (path : string) :=
      ("  " ++ q ++ path ++ q ++ " [label=" ++ q ++ os_path_basename path
       ++ q ++ " fillcolor=" ++ q
       ++ (if endswith path ".h" then "lightblue" else "lightgreen")
       ++ q ++ " style=filled];" ++ lf)%string in
    let edge_statement (source target : string) :=
      ("  " ++ q ++ source ++ q ++ " -> " ++ q ++ target ++ q ++ ";"
       ++ lf)%string in
    dot_writes a
    = [("digraph dependencies {" ++ lf)%string;
       ("  rankdir=TB;" ++ lf)%string;
       ("  node [shape=box];" ++ lf)%string]
      ++ map node_statement (dict_values (files a))
      ++ flat_map (fun item => map (edge_statement (fst item)) (snd item))
           (dependencies a)
      ++ [("}" ++ lf)%string]
    /\ List.length (dot_writes a)
       = 3 + List.length (files a)
         + List.length (List.concat (dict_values (dependencies a))) + 1
    /\ (forall dir name,
          contains "/" name = false ->
          os_path_basename (dir ++ "/" ++ name) = name)
    /\ (forall name,
          contains "/" name = false -> os_path_basename name = name)
    /\ generate_dot_graph w a output_file
       = if open_write_ok w output_file
         then ([], Ok (String.concat EmptyString (dot_writes a)))
         else ([], Raise "OSError").
Proof.
  intros w a output_file q lf node_statement edge_statement.
  assert (E : dot_writes a
              = dot_header
                ++ map node_stmt (dict_values (files a))
                ++ flat_map (fun item => map (edge_stmt (fst item)) (snd item))
                     (dependencies a)
                ++ [dot_footer]).
  { unfold dot_writes. rewrite fold_edges_flat_map, fold_append_map.
    now rewrite <- !app_assoc. }
  split; [exact E |]. split; [| split; [| split]].
  - rewrite E, !length_app, !length_map.
    replace (List.length
               (flat_map (fun item => map (edge_stmt (fst item)) (snd item))
                  (dependencies a)))
      with (List.length (List.concat (dict_values (dependencies a)))).
    + unfold dict_values. rewrite length_map.
      change (List.length dot_header) with 3. cbn [List.length]. lia.
    + clear E. unfold dict_values.
      induction (dependencies a) as [| item d IH]; [reflexivity |].
      simpl. rewrite !length_app, length_map, IH. reflexivity.
  - exact os_path_basename_join.
  - exact os_path_basename_plain.
  - unfold generate_dot_graph. destruct (open_write_ok w output_file);
      reflexivity.
Qed.

(** ** Exit status *)

Lemma print_statistics_empty_graph (a : analyzer) :
  dependencies a = [] -> snd (print_statistics a) = Raise "ValueError".
Proof.
  intros H. unfold print_statistics. rewrite H. reflexivity.
Qed.

(** C5, where the code departs from the specification. Whenever the
    builder finds no edge, [print_statistics] takes the maximum of an
    empty sequence and the run ends with status 1, whatever was
    discovered; so it does for a tree that holds one source file without
    includes, after the first three lines of the statistics. *)
Theorem main_fails_when_graph_has_no_edge :
  forall (w : world) (ar : args),
    (dependencies
       (fst (build_dependency_graph w (init main_src_dirs main_include_dirs)))
     = [] ->
     exit_status (main w ar) = Some 1)
    /\ files (fst (build_dependency_graph Scenario.lonely_world
                     (init main_src_dirs main_include_dirs)))
       = [("a.c", "a.c")]
    /\ main Scenario.lonely_world Scenario.no_flags
       = (["Avatar VMM Dependency Analysis"; rule; "Source files: 1";
           "Header files: 0"; "Dependencies: 0"],
          Raise "ValueError").
Proof.
  intros w ar. split; [| split; reflexivity].
  intros H. unfold main, exit_status.
  destruct (build_dependency_graph w (init main_src_dirs main_include_dirs))
    as [a warnings] eqn:E.
  simpl in H. pose proof (print_statistics_empty_graph a H) as Hp.
  destruct (print_statistics a) as [o r] eqn:Es. simpl in Hp. subst r.
  reflexivity.
Qed.

(** ** Cycle detection *)

Lemma filter_length_le {A} (f g : A -> bool) (l : list A) :
  (forall x, In x l -> f x = true -> g x = true) ->
  List.length (filter f l) <= List.length (filter g l).
Proof.
  induction l as [| a l IH]; simpl; intros H; [lia |].
  assert (IH' : List.length (filter f l) <= List.length (filter g l))
    by (apply IH; intros x Hx; apply H; now right).
  destruct (f a) eqn:Ef.
  - rewrite (H a (or_introl eq_refl) Ef). simpl. lia.
  - destruct (g a); simpl; lia.
Qed.

Lemma filter_length_lt {A} (f g : A -> bool) (l : list A) (a : A) :
  (forall x, In x l -> f x = true -> g x = true) ->
  In a l -> g a = true -> f a = false ->
  List.length (filter f l) < List.length (filter g l).
Proof.
  induction l as [| b l IH]; simpl; intros H Hin Hg Hf; [destruct Hin |].
  assert (Hle : List.length (filter f l) <= List.length (filter g l))
    by (apply filter_length_le; intros x Hx; apply H; now right).
  destruct Hin as [-> | Hin].
  - rewrite Hg, Hf. simpl. lia.
  - assert (IH' : List.length (filter f l) < List.length (filter g l))
      by (apply IH; auto).
    destruct (f b) eqn:Ef.
    + rewrite (H b (or_introl eq_refl) Ef). simpl. lia.
    + destruct (g b); simpl; lia.
Qed.

Lemma unvisited_mono (d0 : graph) (v v' : list string) :
  (forall x, In x v -> In x v') -> unvisited d0 v' <= unvisited d0 v.
Proof.
  intros H. apply filter_length_le. intros x _ Hx.
  apply negb_true_iff in Hx. apply negb_true_iff.
  apply mem_false in Hx. apply mem_false. auto.
Qed.

Lemma unvisited_add (d0 : graph) (v : list string) (node : string) :
  In node (graph_nodes d0) -> ~ In node v ->
  unvisited d0 (set_add node v) < unvisited d0 v.
Proof.
  intros Hn Hv. apply (filter_length_lt _ _ _ node).
  - intros x _ Hx. apply negb_true_iff in Hx. apply negb_true_iff.
    apply mem_false in Hx. apply mem_false. intros H. apply Hx.
    apply set_add_In. now left.
  - apply nodup_In. exact Hn.
  - apply negb_true_iff. now apply mem_false.
  - apply negb_false_iff. apply mem_In. apply set_add_In. now right.
Qed.

Lemma unvisited_le_nodes (d0 : graph) (v : list string) :
  unvisited d0 v <= node_count d0.
Proof.
  unfold unvisited, node_count.
  induction (nodup string_dec (graph_nodes d0)) as [| a l IH]; simpl; [lia |].
  destruct (negb (mem a v)); simpl; lia.
Qed.

Section Chains.
Variable d0 : graph.

Lemma chain_app_r (l1 l2 : list string) : chain d0 (l1 ++ l2) -> chain d0 l2.
Proof.
  induction l1 as [| a l1 IH]; [trivial |].
  intros H. apply IH. simpl in H.
  destruct (l1 ++ l2); [exact I | exact (proj2 H)].
Qed.

Lemma chain_app_l (l1 l2 : list string) : chain d0 (l1 ++ l2) -> chain d0 l1.
Proof.
  induction l1 as [| a l1 IH]; [intros _; exact I |].
  destruct l1 as [| b l1]; [intros _; exact I |].
  intros [H1 H2]. split; [exact H1 | exact (IH H2)].
Qed.

Lemma chain_snoc (l : list string) (a b : string) :
  chain d0 (l ++ [a]) -> edge d0 a b -> chain d0 (l ++ [a; b]).
Proof.
  intros H E. induction l as [| x l IH].
  - simpl. auto.
  - destruct l as [| y l].
    + destruct H as [H _]. simpl. auto.
    + destruct H as [H1 H2]. split; [exact H1 | exact (IH H2)].
Qed.

Lemma chain_stays (B : string -> Prop) (l : list string) (x : string) :
  (forall u v, B u -> edge d0 u v -> B v) ->
  chain d0 (x :: l) -> B x -> forall y, In y l -> B y.
Proof.
  intros HB. revert x. induction l as [| z l IH]; intros x H Hx y Hy;
    [destruct Hy |].
  destruct H as [H1 H2]. assert (Hz : B z) by (eapply HB; eassumption).
  destruct Hy as [<- | Hy]; [exact Hz | exact (IH z H2 Hz y Hy)].
Qed.

Lemma slice_from_spec (n : string) (l : list string) :
  In n l ->
  exists pre rest, l = pre ++ n :: rest /\ slice_from n l = Some (n :: rest).
Proof.
  induction l as [| y l IH]; simpl; [tauto |].
  intros H. destruct (String.eqb_spec y n) as [-> | Hne].
  - exists [], l. auto.
  - destruct H as [H | H]; [congruence |].
    destruct (IH H) as [pre [rest [-> E]]].
    exists (y :: pre), rest. auto.
Qed.

(** The path from an element of the recursion stack to the current node,
    closed by the edge back to that element. *)
Lemma back_edge_closes (p0 : list string) (node n : string) :
  chain d0 (p0 ++ [node]) -> In n (p0 ++ [node]) -> edge d0 node n ->
  exists suffix,
    slice_from n (p0 ++ [node]) = Some suffix
    /\ closed_walk d0 (suffix ++ [n]).
Proof.
  intros Hc Hin He.
  destruct (slice_from_spec n _ Hin) as [pre [rest [E Hs]]].
  exists (n :: rest). split; [exact Hs |].
  assert (Hl : exists l, n :: rest = l ++ [node]).
  { destruct (exists_last (l := n :: rest)) as [l [a Ha]]; [discriminate |].
    exists l. rewrite Ha. f_equal. f_equal.
    rewrite Ha in E. rewrite app_assoc in E.
    apply app_inj_tail in E. symmetry. exact (proj2 E). }
  destruct Hl as [l Hl]. split.
  - rewrite Hl, <- app_assoc. simpl. apply chain_snoc; [| exact He].
    rewrite <- Hl. rewrite E in Hc. exact (chain_app_r _ _ Hc).
  - exists n, rest. reflexivity.
Qed.
End Chains.

Section Search.
Variable d0 : graph.

Lemma black_preserved (st st' : dfs_state) (x : string) :
  dfs_inv d0 st -> dfs_inv d0 st' -> st_path st' = st_path st ->
  (forall y, In y (st_visited st) -> In y (st_visited st')) ->
  black st x -> black st' x.
Proof.
  intros I I' Hp Hv [Hx Hr]. split; [auto |].
  intros H. apply Hr. apply (inv_rec _ _ I). rewrite <- Hp.
  now apply (inv_rec _ _ I').
Qed.

Lemma dfs_enter_inv (st : dfs_state) (node : string) :
  dfs_inv d0 st -> ~ In node (st_visited st) -> In node (graph_nodes d0) ->
  chain d0 (st_path st ++ [node]) ->
  dfs_inv d0 (dfs_enter node st).
Proof.
  intros I Hn HU Hc.
  assert (Hb : forall u, black (dfs_enter node st) u -> black st u).
  { intros u [H1 H2]. simpl in H1, H2. rewrite set_add_In in H1, H2.
    split; [| tauto]. destruct H1 as [H1 | ->]; [exact H1 | tauto]. }
  constructor; simpl.
  - intros k. rewrite adj_touch. apply (inv_adj _ _ I).
  - intros x. rewrite set_add_In, in_app_iff, (inv_rec _ _ I). simpl. intuition.
  - intros x. rewrite set_add_In, in_app_iff. simpl.
    intros [H | [<- | []]]; [left; now apply (inv_path _ _ I) | now right].
  - exact Hc.
  - intros u v Hu He. destruct (inv_closed _ _ I u v (Hb u Hu) He) as [H1 H2].
    split; simpl; rewrite set_add_In; [now left |].
    intros [H | ->]; [exact (H2 H) | exact (Hn H1)].
  - intros u c Hu. apply (inv_safe _ _ I). exact (Hb u Hu).
  - intros x. rewrite set_add_In. intros [H | ->];
      [now apply (inv_nodes _ _ I) | exact HU].
Qed.

Lemma dfs_leave_eq (st : dfs_state) (p0 : list string) (node : string) :
  st_path st = p0 ++ [node] -> In node (st_rec st) ->
  dfs_leave node st
  = Ok (None,
        {| st_deps := st_deps st; st_path := p0;
           st_visited := st_visited st;
           st_rec := set_remove node (st_rec st) |}).
Proof.
  intros Hp Hr. unfold dfs_leave. rewrite Hp, (proj2 (mem_In _ _) Hr).
  unfold pop_last. rewrite removelast_last. destruct p0; reflexivity.
Qed.

Lemma dfs_leave_inv (st : dfs_state) (p0 : list string) (node : string) :
  dfs_inv d0 st -> st_path st = p0 ++ [node] -> ~ In node p0 ->
  (forall v, edge d0 node v -> black st v) ->
  exists st',
    dfs_leave node st = Ok (None, st')
    /\ dfs_inv d0 st' /\ st_path st' = p0
    /\ st_visited st' = st_visited st.
Proof.
  intros I Hp Hn Hadj.
  assert (Hrec : In node (st_rec st)).
  { apply (inv_rec _ _ I). rewrite Hp, in_app_iff. right. now left. }
  rewrite (dfs_leave_eq st p0 node Hp Hrec).
  eexists. split; [reflexivity |]. split; [| split; reflexivity].
  set (st' := {| st_deps := st_deps st; st_path := p0;
                 st_visited := st_visited st;
                 st_rec := set_remove node (st_rec st) |}).
  assert (Hb : forall u, black st' u -> black st u \/ u = node).
  { intros u [H1 H2]. simpl in H1, H2. rewrite set_remove_In in H2.
    destruct (string_dec u node) as [-> | Hne]; [now right |].
    left. split; [exact H1 | tauto]. }
  assert (Hb' : forall u, black st u -> black st' u).
  { intros u [H1 H2]. split; simpl; [exact H1 |].
    rewrite set_remove_In. tauto. }
  constructor; cbn [st' st_deps st_path st_visited st_rec].
  - apply (inv_adj _ _ I).
  - intros x. rewrite set_remove_In.
    rewrite (inv_rec _ _ I), Hp, in_app_iff. simpl. split.
    + intros [[H | [H | []]] Hne]; [exact H | congruence].
    + intros H. split; [now left | intros ->; exact (Hn H)].
  - intros x H.
    apply (inv_path _ _ I). rewrite Hp, in_app_iff. now left.
  - apply (chain_app_l d0 p0 [node]). rewrite <- Hp. apply (inv_chain _ _ I).
  - intros u v Hu He. apply Hb'. destruct (Hb u Hu) as [H | ->].
    + exact (inv_closed _ _ I u v H He).
    + exact (Hadj v He).
  - intros u c Hu Hw. destruct (Hb u Hu) as [H | ->].
    + exact (inv_safe _ _ I u c H Hw).
    + destruct Hw as [Hc [x [mid Hx]]]. injection Hx as <- ->.
      destruct (mid ++ [node]) as [| v c'] eqn:Ec;
        [destruct mid; discriminate |].
      destruct Hc as [He Hc].
      assert (Hv : black st v) by exact (Hadj v He).
      assert (Hin : In node (v :: c'))
        by (rewrite <- Ec, in_app_iff; right; now left).
      assert (Hbn : black st node).
      { destruct Hin as [<- | Hin]; [exact Hv |].
        exact (chain_stays d0 (black st) c' v (inv_closed _ _ I) Hc Hv node Hin). }
      exact (proj2 Hbn Hrec).
  - apply (inv_nodes _ _ I).
Qed.

Lemma closed_walk_found (c : list string) :
  closed_walk d0 c -> is_cycle_found (Some c) = true.
Proof. intros [_ [x [mid ->]]]. reflexivity. Qed.

Lemma for_neighbors_spec (fuel : nat) :
  (forall node st,
      dfs_inv d0 st -> ~ In node (st_visited st) ->
      In node (graph_nodes d0) -> chain d0 (st_path st ++ [node]) ->
      unvisited d0 (st_visited st) <= fuel ->
      dfs_post d0 st node (dfs fuel node st)) ->
  forall ns st p0 node,
    dfs_inv d0 st -> st_path st = p0 ++ [node] ->
    (forall v, In v ns -> edge d0 node v) ->
    unvisited d0 (st_visited st) <= fuel ->
    loop_post d0 st ns (for_neighbors (dfs fuel) ns st).
Proof.
  intros Hdfs. induction ns as [| n ns IH]; intros st p0 node I Hp Hadj Hfuel.
  - simpl. split; [exact I |]. split; [reflexivity |]. split; [auto |].
    intros v [].
  - assert (He : edge d0 node n) by (apply Hadj; now left).
    assert (Hadj' : forall v, In v ns -> edge d0 node v)
      by (intros v Hv; apply Hadj; now right).
    cbn [for_neighbors].
    destruct (mem n (st_visited st)) eqn:Ev; cbn [negb].
    + apply mem_In in Ev. destruct (mem n (st_rec st)) eqn:Er.
      * apply mem_In in Er. apply (inv_rec _ _ I) in Er. rewrite Hp in Er.
        destruct (back_edge_closes d0 p0 node n) as [suffix [Hs Hw]];
          [rewrite <- Hp; apply (inv_chain _ _ I) | exact Er | exact He |].
        rewrite Hp, Hs. exact Hw.
      * apply mem_false in Er.
        specialize (IH st p0 node I Hp Hadj' Hfuel).
        destruct (for_neighbors (dfs fuel) ns st) as [[[c |] st'] | e |];
          simpl in *; auto.
        destruct IH as [I' [Hp' [Hv' Hb']]].
        split; [exact I' |]. split; [exact Hp' |]. split; [exact Hv' |].
        intros v [<- | Hv]; [| now apply Hb'].
        apply (black_preserved st st'); auto. now split.
    + apply mem_false in Ev.
      assert (HU : In n (graph_nodes d0)).
      { unfold graph_nodes. apply in_or_app. right.
        unfold edge in He. rewrite adj_get in He.
        destruct (dict_get d0 node) as [l |] eqn:E; [| destruct He].
        apply in_concat. exists l. split; [| exact He].
        apply dict_get_In in E. apply (in_map snd) in E. exact E. }
      assert (Hc : chain d0 (st_path st ++ [n])).
      { rewrite Hp, <- app_assoc. simpl. apply chain_snoc; [| exact He].
        rewrite <- Hp. apply (inv_chain _ _ I). }
      specialize (Hdfs n st I Ev HU Hc Hfuel).
      destruct (dfs fuel n st) as [[[c |] st'] | e |]; simpl in Hdfs;
        try contradiction.
      * rewrite (closed_walk_found c Hdfs). exact Hdfs.
      * cbn [is_cycle_found]. destruct Hdfs as [I' [Hp' [Hv' Hn']]].
        assert (Hfuel' : unvisited d0 (st_visited st') <= fuel).
        { eapply Nat.le_trans; [apply unvisited_mono, Hv' | exact Hfuel]. }
        specialize (IH st' p0 node I' (eq_trans Hp' Hp) Hadj' Hfuel').
        destruct (for_neighbors (dfs fuel) ns st') as [[[c |] st''] | e |];
          simpl in *; auto.
        destruct IH as [I'' [Hp'' [Hv'' Hb'']]].
        split; [exact I'' |]. split; [congruence |]. split; [auto |].
        intros v [<- | Hv]; [| now apply Hb''].
        apply (black_preserved st' st''); auto. split; [exact Hn' |].
        intros Hr. apply (inv_rec _ _ I') in Hr. rewrite Hp' in Hr.
        apply (inv_path _ _ I) in Hr. exact (Ev Hr).
Qed.

Lemma dfs_spec (fuel : nat) :
  forall node st,
    dfs_inv d0 st -> ~ In node (st_visited st) ->
    In node (graph_nodes d0) -> chain d0 (st_path st ++ [node]) ->
    unvisited d0 (st_visited st) <= fuel ->
    dfs_post d0 st node (dfs fuel node st).
Proof.
  induction fuel as [| fuel IH]; intros node st I Hn HU Hc Hfuel;
    [pose proof (unvisited_add d0 (st_visited st) node HU Hn); lia |].
  cbn [dfs]. rewrite (inv_adj _ _ I).
  pose proof (dfs_enter_inv st node I Hn HU Hc) as I1.
  assert (Hfuel1 : unvisited d0 (st_visited (dfs_enter node st)) <= fuel).
  { simpl. pose proof (unvisited_add d0 (st_visited st) node HU Hn). lia. }
  pose proof (for_neighbors_spec fuel IH (adj d0 node) (dfs_enter node st)
                (st_path st) node I1 eq_refl (fun v H => H) Hfuel1) as Hl.
  destruct (for_neighbors (dfs fuel) (adj d0 node) (dfs_enter node st))
    as [[[c |] st2] | e |]; simpl in Hl; try contradiction.
  - exact Hl.
  - destruct Hl as [I2 [Hp2 [Hv2 Hb2]]]. simpl in Hp2, Hv2.
    destruct (dfs_leave_inv st2 (st_path st) node I2 Hp2) as [st3 [E [I3 [Hp3 Hv3]]]].
    + intros H. apply Hn. now apply (inv_path _ _ I).
    + exact Hb2.
    + rewrite E. simpl. split; [exact I3 |]. split; [exact Hp3 |].
      rewrite Hv3. split.
      * intros x Hx. apply Hv2. apply set_add_In. now left.
      * apply Hv2. apply set_add_In. now right.
Qed.
End Search.

Lemma edge_key (d0 : graph) (x y : string) :
  edge d0 x y -> In x (dict_keys d0).
Proof.
  unfold edge. rewrite adj_get. destruct (dict_get d0 x) eqn:E; [| intros []].
  intros _. eapply dict_get_Some_key; eassumption.
Qed.

Lemma find_cycles_spec (d0 : graph) (fuel : nat) :
  node_count d0 <= fuel ->
  forall nodes d visited,
    dfs_inv d0 (top_state d visited) ->
    (forall n, In n nodes -> In n (graph_nodes d0)) ->
    match find_cycles fuel nodes d visited with
    | Ok (None, d') =>
        exists visited',
          dfs_inv d0 (top_state d' visited')
          /\ (forall x, In x visited -> In x visited')
          /\ (forall n, In n nodes -> In n visited')
    | Ok (Some c, _) => closed_walk d0 c
    | Raise _ => False
    | Exhausted => False
    end.
Proof.
  intros Hfuel. induction nodes as [| node nodes IH]; intros d visited I HU.
  - simpl. exists visited. split; [exact I |]. split; [auto | intros n []].
  - cbn [find_cycles].
    assert (HU' : forall n, In n nodes -> In n (graph_nodes d0))
      by (intros n Hn; apply HU; now right).
    destruct (mem node visited) eqn:Ev; cbn [negb].
    + apply mem_In in Ev. specialize (IH d visited I HU').
      destruct (find_cycles fuel nodes d visited) as [[[c |] d'] | e |]; auto.
      destruct IH as [v' [I' [H1 H2]]]. exists v'. split; [exact I' |].
      split; [exact H1 |]. intros n [<- | Hn]; auto.
    + apply mem_false in Ev.
      assert (Hlt : unvisited d0 (st_visited (top_state d visited)) <= fuel)
        by (eapply Nat.le_trans; [apply unvisited_le_nodes | exact Hfuel]).
      pose proof (dfs_spec d0 fuel node (top_state d visited) I Ev
                    (HU node (or_introl eq_refl)) Logic.I Hlt) as Hd.
      fold (top_state d visited).
      destruct (dfs fuel node (top_state d visited)) as [[[c |] st'] | e |];
        simpl in Hd; try contradiction.
      * rewrite (closed_walk_found d0 c Hd). exact Hd.
      * cbn [is_cycle_found].
        destruct Hd as [I' [Hp' [Hv' Hn']]].
        assert (Hst : st' = top_state (st_deps st') (st_visited st')).
        { destruct st' as [sd sp sv sr]. simpl in *. subst sp.
          unfold top_state. f_equal.
          destruct sr as [| z sr]; [reflexivity |].
          exfalso. apply (proj1 (inv_rec _ _ I' z)). now left. }
        rewrite Hst in I'.
        specialize (IH (st_deps st') (st_visited st') I' HU').
        destruct (find_cycles fuel nodes (st_deps st') (st_visited st'))
          as [[[c |] d'] | e |]; auto.
        destruct IH as [v' [I'' [H1 H2]]]. exists v'. split; [exact I'' |].
        split; [auto |]. intros n [<- | Hn]; auto.
Qed.

Lemma top_state_init (d0 : graph) : dfs_inv d0 (top_state d0 []).
Proof.
  constructor; simpl; try tauto; intros u x [[] _].
Qed.

(** A search that returns with some number of frames returns the same
    with more. *)
Lemma for_neighbors_more_frames
    (call call' : string -> dfs_state -> res (option (list string) * dfs_state)) :
  (forall n st r, call n st = Ok r -> call' n st = Ok r) ->
  forall ns st r,
    for_neighbors call ns st = Ok r -> for_neighbors call' ns st = Ok r.
Proof.
  intros Hc. induction ns as [| n ns IH]; intros st r H; [exact H |].
  cbn [for_neighbors] in *.
  destruct (negb (mem n (st_visited st))).
  - destruct (call n st) as [[c st1] | e |] eqn:E; try discriminate.
    rewrite (Hc n st _ E). destruct (is_cycle_found c); [exact H |].
    now apply IH.
  - destruct (mem n (st_rec st)); [exact H | now apply IH].
Qed.

Lemma dfs_more_frames (f f' : nat) :
  f <= f' ->
  forall node st r, dfs f node st = Ok r -> dfs f' node st = Ok r.
Proof.
  revert f'. induction f as [| f IH]; intros f' Hle node st r H;
    [discriminate |].
  destruct f' as [| f']; [lia |]. cbn [dfs] in *.
  destruct (for_neighbors (dfs f) (adj (st_deps st) node) (dfs_enter node st))
    as [[c st1] | e |] eqn:E; try discriminate.
  rewrite (for_neighbors_more_frames (dfs f) (dfs f')
             (IH f' ltac:(lia)) _ _ _ E).
  exact H.
Qed.

Lemma find_cycles_more_frames (f f' : nat) :
  f <= f' ->
  forall nodes d visited r,
    find_cycles f nodes d visited = Ok r ->
    find_cycles f' nodes d visited = Ok r.
Proof.
  intros Hle. induction nodes as [| node nodes IH]; intros d visited r H;
    [exact H |].
  cbn [find_cycles] in *. destruct (negb (mem node visited)).
  - destruct (dfs f node _) as [[c st1] | e |] eqn:E; try discriminate.
    rewrite (dfs_more_frames f f' Hle _ _ _ E).
    destruct (is_cycle_found c); [exact H | now apply IH].
  - now apply IH.
Qed.

(** The search never ends as a loop out of turns does. *)
Lemma for_neighbors_ends
    (call : string -> dfs_state -> res (option (list string) * dfs_state)) :
  (forall n st, call n st <> Exhausted) ->
  forall ns st, for_neighbors call ns st <> Exhausted.
Proof.
  intros Hc. induction ns as [| n ns IH]; intros st; [discriminate |].
  cbn [for_neighbors]. destruct (negb (mem n (st_visited st))).
  - pose proof (Hc n st) as H.
    destruct (call n st) as [[c st1] | e |]; [| discriminate | congruence].
    destruct (is_cycle_found c); [discriminate | apply IH].
  - destruct (mem n (st_rec st)); [| apply IH].
    destruct (slice_from n (st_path st)); discriminate.
Qed.

Lemma dfs_ends (f : nat) :
  forall node st, dfs f node st <> Exhausted.
Proof.
  induction f as [| f IH]; intros node st; [discriminate |].
  cbn [dfs].
  pose proof (for_neighbors_ends (dfs f) IH (adj (st_deps st) node)
                (dfs_enter node st)) as H.
  destruct (for_neighbors (dfs f) (adj (st_deps st) node) (dfs_enter node st))
    as [[[c |] st1] | e |]; [discriminate | | discriminate | congruence].
  unfold dfs_leave. destruct (st_path st1); [discriminate |].
  destruct (mem node (st_rec st1)); discriminate.
Qed.

Lemma find_cycles_ends (f : nat) :
  forall nodes d visited, find_cycles f nodes d visited <> Exhausted.
Proof.
  induction nodes as [| node nodes IH]; intros d visited; [discriminate |].
  cbn [find_cycles]. destruct (negb (mem node visited)); [| apply IH].
  pose proof (dfs_ends f node
                {| st_deps := d; st_path := []; st_visited := visited;
                   st_rec := [] |}) as H.
  destruct (dfs f node _) as [[c st1] | e |]; [| discriminate | congruence].
  destruct (is_cycle_found c); [discriminate | apply IH].
Qed.

(** What the search over the keys returns, when the frames suffice for
    the nodes of the graph. *)
Lemma find_cycles_keys (d : graph) (f : nat) :
  node_count d <= f ->
  match find_cycles f (dict_keys d) d [] with
  | Ok (None, _) => acyclic d
  | Ok (Some c, _) => closed_walk d c
  | Raise _ => False
  | Exhausted => False
  end.
Proof.
  intros Hf.
  pose proof (find_cycles_spec d f Hf (dict_keys d) d [] (top_state_init d))
    as H.
  assert (HU : forall n, In n (dict_keys d) -> In n (graph_nodes d))
    by (intros n Hn; unfold graph_nodes; apply in_or_app; now left).
  specialize (H HU).
  destruct (find_cycles f (dict_keys d) d [])
    as [[[c |] d'] | e |]; try contradiction.
  - exact H.
  - destruct H as [v' [I [_ Hk]]]. intros c Hw.
    destruct Hw as [Hc [x [mid ->]]].
    assert (Hx : In x (dict_keys d)).
    { destruct (mid ++ [x]) as [| y t] eqn:E; [destruct mid; discriminate |].
      destruct Hc as [He _]. eapply edge_key; eassumption. }
    apply (inv_safe _ _ I x (mid ++ [x])).
    + split; simpl; [now apply Hk | tauto].
    + split; [exact Hc | now exists x, mid].
Qed.

(** What [find_circular_dependencies] returns is right, whatever the
    recursion limit; and it returns when the limit leaves a frame for every
    node of the graph. *)
Lemma find_circular_dependencies_sound (w : world) (d : graph) :
  match find_circular_dependencies w d with
  | Ok (None, _) => acyclic d
  | Ok (Some c, _) => closed_walk d c
  | Raise _ => dfs_frames w < node_count d
  | Exhausted => False
  end.
Proof.
  unfold find_circular_dependencies.
  destruct (le_lt_dec (node_count d) (dfs_frames w)) as [Hle | Hlt].
  - pose proof (find_cycles_keys d (dfs_frames w) Hle) as H.
    destruct (find_cycles (dfs_frames w) (dict_keys d) d [])
      as [[[c |] d'] | e |]; try contradiction; exact H.
  - pose proof (find_cycles_keys d (node_count d) (Nat.le_refl _)) as H.
    pose proof (find_cycles_ends (dfs_frames w) (dict_keys d) d []) as He.
    destruct (find_cycles (dfs_frames w) (dict_keys d) d [])
      as [r | e |] eqn:E; [| exact Hlt | congruence].
    apply (find_cycles_more_frames _ (node_count d)) in E; [| lia].
    rewrite E in H. exact H.
Qed.

Lemma find_circular_dependencies_fits (w : world) (d : graph) :
  node_count d <= dfs_frames w ->
  exists r d', find_circular_dependencies w d = Ok (r, d').
Proof.
  intros Hle. pose proof (find_cycles_keys d (dfs_frames w) Hle) as H.
  unfold find_circular_dependencies.
  destruct (find_cycles (dfs_frames w) (dict_keys d) d [])
    as [[r d'] | e |]; try contradiction.
  now exists r, d'.
Qed.

(** C2, as the code has it. Every call of [dfs] takes a frame, so the
    search returns when the recursion limit leaves a frame for every node
    of the graph; a deeper graph can end the search in [RecursionError].
    Whenever [find_circular_dependencies] returns, it returns [None]
    exactly when the graph has no closed sequence of edges, and a sequence
    it returns is made of edges of the forward mapping, with the first
    element equal to the last. An exception leaves the call only when the
    graph has more nodes than frames are left. *)
Theorem find_circular_dependencies_detects_cycles :
  forall (w : world) (d : graph),
    (node_count d <= dfs_frames w ->
     exists r d', find_circular_dependencies w d = Ok (r, d'))
    /\ (forall r d',
          find_circular_dependencies w d = Ok (r, d') ->
          (r = None <-> acyclic d)
          /\ (forall c, r = Some c ->
                chain d c /\ exists x mid, c = x :: mid ++ [x]))
    /\ (forall e,
          find_circular_dependencies w d = Raise e ->
          dfs_frames w < node_count d).
Proof.
  intros w d. pose proof (find_circular_dependencies_sound w d) as H.
  destruct (find_circular_dependencies w d) as [[[c |] d'] | e |];
    try contradiction.
  - split; [intros _; now exists (Some c), d' |].
    split; [| discriminate]. intros r d1 [= <- <-]. split.
    + split; [discriminate |]. intros Ha. exfalso. exact (Ha c H).
    + intros c' [= <-]. exact H.
  - split; [intros _; now exists None, d' |].
    split; [| discriminate]. intros r d1 [= <- <-]. split.
    + split; [intros _; exact H | reflexivity].
    + discriminate.
  - split; [intros Hle; lia |]. split; [discriminate |].
    intros e' _. exact H.
Qed.

(** C2 as the specification words it does not hold of every graph the
    builder produces: a thousand files that include one another in a
    chain give a graph without any closed sequence of edges, on which the
    search does not return [None] but ends in [RecursionError], the
    recursion limit being 1000. *)
Lemma deep_chain_ends_in_recursion_error :
  acyclic
    (dependencies
       (fst (build_dependency_graph Scenario.deep_world
               (init main_src_dirs main_include_dirs))))
  /\ find_circular_dependencies Scenario.deep_world
       (dependencies
          (fst (build_dependency_graph Scenario.deep_world
                  (init main_src_dirs main_include_dirs))))
     = Raise "RecursionError"
  /\ recursion_limit Scenario.deep_world = 1000.
Proof.
  set (d := dependencies
              (fst (build_dependency_graph Scenario.deep_world
                      (init main_src_dirs main_include_dirs)))).
  assert (E : d = map (fun i => (Scenario.chain_name i,
                                 [Scenario.chain_name (S i)])) (seq 0 999))
    by (vm_compute; reflexivity).
  clearbody d. subst d.
  split; [| split; [vm_compute; reflexivity | reflexivity]].
  match goal with |- acyclic ?g => set (d := g) end.
  assert (Hn : Nat.leb (node_count d) 1000 = true) by (vm_compute; reflexivity).
  apply Nat.leb_le in Hn.
  pose proof (find_cycles_keys d 1000 Hn) as H.
  assert (Hr : match find_cycles 1000 (dict_keys d) d [] with
               | Ok (None, _) => true
               | _ => false
               end = true) by (vm_compute; reflexivity).
  destruct (find_cycles 1000 (dict_keys d) d []) as [[[c |] d'] | e |];
    try discriminate.
  exact H.
Qed.

Lemma find_circular_dependencies_detects_cycles_witness :
  exists r d',
    find_circular_dependencies Scenario.sources_world
      [("a.c", ["b.c"]); ("b.c", ["a.c"])]
    = Ok (r, d').
Proof.
  apply (proj1 (find_circular_dependencies_detects_cycles
                  Scenario.sources_world
                  [("a.c", ["b.c"]); ("b.c", ["a.c"])])).
  vm_compute. lia.
Defined.

(** ** Build order *)

Lemma degree_get (deg : dict Z) (v : string) :
  degree deg v = match dict_get deg v with Some z => z | None => 0%Z end.
Proof. unfold degree, dd_get. destruct (dict_get deg v); reflexivity. Qed.

Lemma degree_incr (deg : dict Z) (k : string) (delta : Z) (v : string) :
  degree (dd_incr deg k delta) v
  = if String.eqb k v then (degree deg k + delta)%Z else degree deg v.
Proof.
  unfold dd_incr. rewrite degree_get, dict_get_set.
  destruct (String.eqb k v); [reflexivity | now rewrite <- degree_get].
Qed.

Lemma dd_incr_keys (deg : dict Z) (k : string) (delta : Z) (x : string) :
  In x (dict_keys (dd_incr deg k delta)) <-> In x (dict_keys deg) \/ x = k.
Proof.
  unfold dd_incr. rewrite dict_keys_set. destruct (dict_has deg k) eqn:E.
  - apply dict_has_In in E. split; [tauto | intros [H | ->]; assumption].
  - rewrite in_app_iff. simpl. intuition congruence.
Qed.

Lemma dd_incr_wf (deg : dict Z) (k : string) (delta : Z) :
  dict_wf deg -> dict_wf (dd_incr deg k delta).
Proof. apply dict_set_wf. Qed.

Lemma occurrences_cons (v x : string) (l : list string) :
  occurrences v (x :: l)
  = ((if String.eqb x v then 1 else 0) + occurrences v l)%Z.
Proof.
  unfold occurrences. simpl. destruct (string_dec x v) as [-> | Hne].
  - rewrite String.eqb_refl. lia.
  - apply String.eqb_neq in Hne. rewrite Hne. lia.
Qed.

Lemma occurrences_nonneg (v : string) (l : list string) :
  (0 <= occurrences v l)%Z.
Proof. unfold occurrences. lia. Qed.

Lemma occurrences_pos (v : string) (l : list string) :
  (0 < occurrences v l)%Z <-> In v l.
Proof.
  unfold occurrences. rewrite (count_occ_In string_dec). lia.
Qed.

Lemma incoming_nonneg (d : graph) (l : list string) (v : string) :
  (0 <= incoming d l v)%Z.
Proof.
  induction l as [| u l IH]; simpl; [lia |].
  pose proof (occurrences_nonneg v (adj d u)). lia.
Qed.

Lemma incoming_pos (d : graph) (l : list string) (v : string) :
  (0 < incoming d l v)%Z -> exists u, In u l /\ edge d u v.
Proof.
  induction l as [| u l IH]; simpl; [lia |].
  intros H. destruct (Z.eq_dec (occurrences v (adj d u)) 0) as [E | E].
  - destruct IH as [u' [H1 H2]]; [lia |]. exists u'. auto.
  - exists u. split; [now left |]. apply occurrences_pos.
    pose proof (occurrences_nonneg v (adj d u)). lia.
Qed.

Lemma incoming_zero (d : graph) (l : list string) (u v : string) :
  incoming d l v = 0%Z -> In u l -> ~ edge d u v.
Proof.
  induction l as [| x l IH]; simpl; [tauto |].
  intros H Hin He.
  pose proof (occurrences_nonneg v (adj d x)).
  pose proof (incoming_nonneg d l v).
  destruct Hin as [-> | Hin].
  - apply occurrences_pos in He. lia.
  - apply IH; auto. lia.
Qed.

Lemma fold_incr_degree (l : list string) (deg : dict Z) (v : string) :
  degree (fold_left (fun deg dep => dd_incr deg dep 1%Z) l deg) v
  = (degree deg v + occurrences v l)%Z.
Proof.
  revert deg. induction l as [| x l IH]; intros deg; simpl.
  - unfold occurrences. simpl. lia.
  - rewrite IH, degree_incr, occurrences_cons.
    destruct (String.eqb_spec x v) as [-> | Hne]; lia.
Qed.

Lemma fold_incr_keys (l : list string) (deg : dict Z) (x : string) :
  In x (dict_keys (fold_left (fun deg dep => dd_incr deg dep 1%Z) l deg))
  <-> In x (dict_keys deg) \/ In x l.
Proof.
  revert deg. induction l as [| y l IH]; intros deg; simpl; [tauto |].
  rewrite IH, dd_incr_keys. intuition.
Qed.

Lemma fold_incr_wf (l : list string) (deg : dict Z) :
  dict_wf deg ->
  dict_wf (fold_left (fun deg dep => dd_incr deg dep 1%Z) l deg).
Proof.
  revert deg. induction l as [| y l IH]; intros deg H; simpl; [exact H |].
  apply IH. now apply dd_incr_wf.
Qed.

Lemma count_node_degree (d : graph) (deg : dict Z) (node v : string) :
  degree (count_node d deg node) v
  = (degree deg v + occurrences v (adj d node))%Z.
Proof.
  unfold count_node. rewrite fold_incr_degree. f_equal.
  unfold dict_has. destruct (dict_get deg node) eqn:E; simpl; [reflexivity |].
  rewrite !degree_get, dict_get_set.
  destruct (String.eqb_spec node v) as [<- | Hne]; [now rewrite E | reflexivity].
Qed.

Lemma count_node_keys (d : graph) (deg : dict Z) (node x : string) :
  In x (dict_keys (count_node d deg node))
  <-> In x (dict_keys deg) \/ x = node \/ In x (adj d node).
Proof.
  unfold count_node. rewrite fold_incr_keys.
  destruct (dict_has deg node) eqn:E; simpl.
  - apply dict_has_In in E. intuition (subst; auto).
  - rewrite dict_keys_set, E, in_app_iff. simpl. intuition congruence.
Qed.

Lemma count_node_wf (d : graph) (deg : dict Z) (node : string) :
  dict_wf deg -> dict_wf (count_node d deg node).
Proof.
  intros H. unfold count_node. apply fold_incr_wf.
  destruct (negb (dict_has deg node)); [now apply dict_set_wf | exact H].
Qed.

Lemma count_nodes_degree (d : graph) (l : list string) (deg : dict Z)
    (v : string) :
  degree (fold_left (count_node d) l deg) v
  = (degree deg v + incoming d l v)%Z.
Proof.
  revert deg. induction l as [| u l IH]; intros deg; simpl; [lia |].
  rewrite IH, count_node_degree. lia.
Qed.

Lemma count_nodes_keys (d : graph) (l : list string) (deg : dict Z)
    (x : string) :
  In x (dict_keys (fold_left (count_node d) l deg))
  <-> In x (dict_keys deg) \/ In x l \/ exists u, In u l /\ In x (adj d u).
Proof.
  revert deg. induction l as [| u l IH]; intros deg; simpl.
  - split; [tauto | intros [H | [[] | [u [[] _]]]]; exact H].
  - rewrite IH, count_node_keys. split.
    + intros [[H | [-> | H]] | [H | [u' [H1 H2]]]]; eauto 7.
    + intros [H | [[<- | H] | [u' [[<- | H1] H2]]]]; eauto 7.
Qed.

Lemma count_nodes_wf (d : graph) (l : list string) (deg : dict Z) :
  dict_wf deg -> dict_wf (fold_left (count_node d) l deg).
Proof.
  revert deg. induction l as [| u l IH]; intros deg H; simpl; [exact H |].
  apply IH. now apply count_node_wf.
Qed.

Lemma in_degrees_degree (d : graph) (v : string) :
  degree (in_degrees d) v = incoming d (dict_keys d) v.
Proof. unfold in_degrees. rewrite count_nodes_degree. reflexivity. Qed.

Lemma adj_in_nodes (d : graph) (u x : string) :
  In x (adj d u) -> In x (graph_nodes d).
Proof.
  intros H. unfold graph_nodes. apply in_or_app. right.
  rewrite adj_get in H. destruct (dict_get d u) as [l |] eqn:E; [| destruct H].
  apply in_concat. exists l. split; [| exact H].
  apply dict_get_In in E. apply (in_map snd) in E. exact E.
Qed.

Lemma in_degrees_keys (d : graph) (x : string) :
  dict_wf d ->
  In x (dict_keys (in_degrees d)) <-> In x (graph_nodes d).
Proof.
  intros Hwf. unfold in_degrees. rewrite count_nodes_keys.
  unfold graph_nodes. rewrite in_app_iff. simpl. split.
  - intros [[] | [H | [u [H1 H2]]]]; [now left |].
    apply (adj_in_nodes d u x) in H2. unfold graph_nodes in H2.
    apply in_app_iff in H2. exact H2.
  - intros [H | H]; [auto |]. right. right.
    apply in_concat in H as [l [Hl Hx]].
    apply in_map_iff in Hl as [[u l'] [E Hin]]. simpl in E. subst l'.
    exists u. split; [apply (in_map fst) in Hin; exact Hin |].
    rewrite adj_get, (In_dict_get d u l Hwf Hin). exact Hx.
Qed.

Lemma mem_app (x : string) (l1 l2 : list string) :
  mem x (l1 ++ l2) = mem x l1 || mem x l2.
Proof. unfold mem. apply existsb_app. Qed.

Lemma pending_skip (d : graph) (res l : list string) (u v : string) :
  ~ In u l ->
  incoming d (filter (fun x => negb (mem x (res ++ [u]))) l) v
  = incoming d (filter (fun x => negb (mem x res)) l) v.
Proof.
  induction l as [| x l IH]; simpl; [reflexivity |]. intros H.
  assert (Hx : mem x (res ++ [u]) = mem x res).
  { rewrite mem_app. simpl. rewrite orb_false_r.
    destruct (String.eqb_spec x u) as [-> | Hne];
      [exfalso; apply H; now left | apply orb_false_r]. }
  rewrite Hx. destruct (negb (mem x res)); simpl; rewrite IH; tauto.
Qed.

Lemma pending_drop (d : graph) (res l : list string) (u v : string) :
  NoDup l -> In u l -> ~ In u res ->
  incoming d (filter (fun x => negb (mem x (res ++ [u]))) l) v
  = (incoming d (filter (fun x => negb (mem x res)) l) v
     - occurrences v (adj d u))%Z.
Proof.
  induction l as [| x l IH]; simpl; [tauto |].
  intros Hnd Hin Hres. inversion Hnd as [| ? ? Hx Hnd']; subst.
  rewrite mem_app. simpl. rewrite orb_false_r.
  destruct Hin as [-> | Hin].
  - rewrite String.eqb_refl, orb_true_r. simpl.
    rewrite (proj2 (mem_false u res) Hres). simpl.
    rewrite (pending_skip d res l u v Hx). lia.
  - destruct (String.eqb_spec x u) as [-> | Hne]; [contradiction |].
    rewrite orb_false_r. destruct (negb (mem x res)); simpl;
      rewrite (IH Hnd' Hin Hres); lia.
Qed.

Lemma pending_snoc (d : graph) (res : list string) (u v : string) :
  dict_wf d -> ~ In u res ->
  incoming d (pending d (res ++ [u])) v
  = (incoming d (pending d res) v - occurrences v (adj d u))%Z.
Proof.
  intros Hwf Hres. unfold pending.
  destruct (in_dec string_dec u (dict_keys d)) as [Hin | Hout].
  - now apply pending_drop.
  - rewrite (pending_skip d res _ u v Hout).
    apply dict_get_None in Hout. rewrite adj_get, Hout.
    unfold occurrences. simpl. lia.
Qed.

Lemma pending_edge (d : graph) (res : list string) (u v : string) :
  incoming d (pending d res) v = 0%Z -> edge d u v -> In u res.
Proof.
  intros H He. destruct (mem u res) eqn:E; [now apply mem_In |].
  exfalso. apply (incoming_zero d _ u v H); [| exact He].
  unfold pending. apply filter_In. split.
  - eapply edge_key; eassumption.
  - now rewrite E.
Qed.

Lemma NoDup_snoc {A} (l : list A) (x : A) :
  NoDup l -> ~ In x l -> NoDup (l ++ [x]).
Proof.
  intros Hl Hx. apply NoDup_app; [exact Hl | repeat constructor; auto |].
  intros a Ha [<- | []]. contradiction.
Qed.

Lemma ordered_snoc (d : graph) (l : list string) (n : string) :
  ordered d l -> (forall u, edge d u n -> In u l) -> ordered d (l ++ [n]).
Proof.
  intros Hl Hn l1 v l2 u E He.
  destruct (exists_last (l := v :: l2)) as [l' [z Hz]]; [discriminate |].
  destruct l' as [| v' l'].
  - simpl in Hz. injection Hz as -> ->.
    apply app_inj_tail in E as [-> ->]. now apply Hn.
  - simpl in Hz. injection Hz as <- ->.
    rewrite app_comm_cons, app_assoc in E.
    apply app_inj_tail in E as [-> _]. eapply Hl; [reflexivity | exact He].
Qed.

Lemma relax_step (d : graph) (result rest : list string) (n : string)
    (s : dict Z * list string) :
  In n (graph_nodes d) ->
  relax_inv d result (n :: rest) s -> relax_inv d result rest (relax s n).
Proof.
  intros HU [Hnd Hno Hdeg Hz Hr Ho]. destruct s as [deg q]. simpl in *.
  pose proof (incoming_nonneg d (pending d result) n) as Hi.
  pose proof (occurrences_nonneg n rest) as Hc.
  assert (Hn : (degree deg n
                = incoming d (pending d result) n + 1 + occurrences n rest)%Z).
  { rewrite Hdeg, occurrences_cons, String.eqb_refl. lia. }
  assert (Hout : ~ In n (result ++ q)).
  { intros H. apply Hz in H. lia. }
  assert (Hd' : forall v,
             degree (dd_incr deg n (-1)%Z) v
             = (incoming d (pending d result) v + occurrences v rest)%Z).
  { intros v. rewrite degree_incr.
    destruct (String.eqb_spec n v) as [<- | Hne]; [lia |].
    rewrite Hdeg, occurrences_cons.
    apply String.eqb_neq in Hne. rewrite Hne. lia. }
  unfold relax. cbn [fst snd]. fold (degree (dd_incr deg n (-1)%Z) n).
  destruct (Z.eqb_spec (degree (dd_incr deg n (-1)%Z) n) 0) as [E0 | E0];
    constructor; cbn [fst snd]; auto.
  - rewrite app_assoc. now apply NoDup_snoc.
  - intros x. rewrite app_assoc, in_app_iff. intros [H | [<- | []]]; auto.
  - intros v. rewrite app_assoc, in_app_iff. intros [H | [<- | []]]; auto.
    rewrite degree_incr. destruct (String.eqb_spec n v) as [<- | Hne];
      [contradiction | auto].
  - intros v Hv H0. rewrite app_assoc, in_app_iff.
    destruct (String.eqb_spec n v) as [<- | Hne]; [right; now left |].
    left. apply Hr; [exact Hv |]. rewrite degree_incr in H0.
    apply String.eqb_neq in Hne. now rewrite Hne in H0.
  - rewrite app_assoc. apply ordered_snoc; [exact Ho |].
    intros u He. apply in_or_app. left.
    apply (pending_edge d result u n); [| exact He].
    rewrite Hd' in E0. lia.
  - intros v Hv. rewrite degree_incr.
    destruct (String.eqb_spec n v) as [<- | Hne]; [contradiction | auto].
  - intros v Hv H0. apply Hr; [exact Hv |]. rewrite degree_incr in H0.
    destruct (String.eqb_spec n v) as [<- | Hne]; [| exact H0].
    rewrite degree_incr, String.eqb_refl in E0. contradiction.
Qed.

Lemma relax_all (d : graph) (result rest : list string)
    (s : dict Z * list string) :
  (forall n, In n rest -> In n (graph_nodes d)) ->
  relax_inv d result rest s -> relax_inv d result [] (fold_left relax rest s).
Proof.
  revert s. induction rest as [| n rest IH]; intros s HU H; simpl; [exact H |].
  apply IH; [intros x Hx; apply HU; now right |].
  apply relax_step; [apply HU; now left | exact H].
Qed.

Lemma kahn_step_inv (d : graph) (s : kahn_state) (node : string)
    (queue : list string) :
  dict_wf d -> kahn_inv d s -> k_queue s = node :: queue ->
  kahn_inv d (kahn_step node queue s).
Proof.
  intros Hwf [Hadj Hnd Hno Hdeg Hz Hr Ho] Hq. rewrite Hq in *.
  assert (E : forall q : list string,
             (k_result s ++ [node]) ++ q = k_result s ++ node :: q)
    by (intros q; now rewrite <- app_assoc).
  assert (Hnew : ~ In node (k_result s)).
  { intros H. apply NoDup_remove_2 in Hnd. apply Hnd.
    apply in_or_app. now left. }
  assert (Hi : relax_inv d (k_result s ++ [node]) (adj d node)
                 (k_deg s, queue)).
  { constructor; cbn [fst snd]; try rewrite E; auto.
    intros v. rewrite Hdeg, (pending_snoc d (k_result s) node v Hwf Hnew). lia. }
  apply relax_all in Hi; [| intros n Hn; eapply adj_in_nodes; eassumption].
  destruct Hi as [Hnd' Hno' Hdeg' Hz' Hr' Ho'].
  unfold kahn_step. rewrite Hadj.
  constructor; cbn [k_deps k_deg k_queue k_result]; auto.
  - intros k. rewrite adj_touch. apply Hadj.
  - intros v. rewrite Hdeg'. unfold occurrences. simpl. lia.
Qed.

Lemma kahn_loop_spec (d : graph) (fuel : nat) :
  dict_wf d ->
  forall s,
    kahn_inv d s ->
    List.length (graph_nodes d) <= fuel + List.length (k_result s) ->
    exists s',
      kahn_loop fuel s = Ok s' /\ kahn_inv d s' /\ k_queue s' = [].
Proof.
  intros Hwf. induction fuel as [| fuel IH]; intros s I Hf.
  - destruct (k_queue s) as [| node queue] eqn:Eq.
    + exists s. simpl. rewrite Eq. auto.
    + exfalso. pose proof (ki_nodup _ _ I) as Hnd.
      pose proof (NoDup_incl_length Hnd (ki_nodes _ _ I)) as Hl.
      rewrite Eq, length_app in Hl. simpl in Hl. lia.
  - destruct (k_queue s) as [| node queue] eqn:Eq.
    + exists s. simpl. rewrite Eq. auto.
    + simpl. rewrite Eq. apply IH.
      * now apply kahn_step_inv.
      * unfold kahn_step. cbn [k_result]. rewrite length_app. simpl. lia.
Qed.

Lemma filter_all {A} (f : A -> bool) (l : list A) :
  (forall x, In x l -> f x = true) -> filter f l = l.
Proof.
  induction l as [| a l IH]; simpl; intros H; [reflexivity |].
  rewrite (H a (or_introl eq_refl)), IH; auto.
Qed.

Lemma zero_entries (deg : dict Z) (v : string) :
  dict_wf deg ->
  In v (map fst (filter (fun item => Z.eqb (snd item) 0%Z) deg))
  <-> In v (dict_keys deg) /\ degree deg v = 0%Z.
Proof.
  intros Hwf. rewrite in_map_iff. split.
  - intros [[k z] [E H]]. simpl in E. subst k.
    apply filter_In in H as [H Hz]. simpl in Hz. apply Z.eqb_eq in Hz.
    subst z. split; [apply (in_map fst) in H; exact H |].
    now rewrite degree_get, (In_dict_get deg v 0%Z Hwf H).
  - intros [Hk Hz]. rewrite degree_get in Hz.
    destruct (dict_get deg v) as [z |] eqn:E.
    + subst z. exists (v, 0%Z). split; [reflexivity |].
      apply filter_In. split; [now apply dict_get_In | reflexivity].
    + apply dict_get_None in E. contradiction.
Qed.

Lemma NoDup_map_fst_filter {A B} (f : A * B -> bool) (l : list (A * B)) :
  NoDup (map fst l) -> NoDup (map fst (filter f l)).
Proof.
  induction l as [| a l IH]; simpl; intros H; [constructor |].
  inversion H as [| ? ? Hx Hl]; subst.
  destruct (f a); simpl; [| auto]. constructor; [| auto].
  intros Hin. apply Hx. apply in_map_iff in Hin as [b [E Hb]].
  apply filter_In in Hb as [Hb _]. apply in_map_iff. now exists b.
Qed.

Lemma kahn_init_inv (d : graph) : dict_wf d -> kahn_inv d (kahn_init d).
Proof.
  intros Hwf.
  assert (Hdw : dict_wf (in_degrees d))
    by (apply count_nodes_wf; constructor).
  assert (Hp : pending d [] = dict_keys d)
    by (apply filter_all; reflexivity).
  constructor; cbn [kahn_init k_deps k_deg k_queue k_result app].
  - reflexivity.
  - now apply NoDup_map_fst_filter.
  - intros x Hx. apply (zero_entries _ _ Hdw) in Hx as [Hx _].
    now apply in_degrees_keys.
  - intros v. rewrite Hp. apply in_degrees_degree.
  - intros v Hv. now apply (zero_entries _ _ Hdw) in Hv as [_ Hv].
  - intros v Hv Hz. apply (zero_entries _ _ Hdw). split; [| exact Hz].
    now apply in_degrees_keys.
  - intros l1 v l2 u E He. exfalso.
    assert (Hv : In v (map fst (filter (fun item => Z.eqb (snd item) 0%Z)
                                  (in_degrees d))))
      by (rewrite E; apply in_or_app; right; now left).
    apply (zero_entries _ _ Hdw) in Hv as [_ Hz].
    rewrite in_degrees_degree in Hz.
    apply (incoming_zero d _ u v Hz); [| exact He].
    eapply edge_key; eassumption.
Qed.

(** The loop of [get_build_order] ends with an empty queue and its
    invariant. *)
Lemma get_build_order_spec (d : graph) :
  dict_wf d ->
  exists s,
    get_build_order d = Ok (k_result s, k_deps s)
    /\ kahn_inv d s /\ k_queue s = [].
Proof.
  intros Hwf. unfold get_build_order.
  destruct (kahn_loop_spec d (List.length (graph_nodes d)) Hwf (kahn_init d)
              (kahn_init_inv d Hwf)) as [s [E [I Hq]]].
  - simpl. lia.
  - exists s. rewrite E. auto.
Qed.

Lemma chain_snoc_inv (d : graph) (w : list string) (u v : string) :
  chain d (w ++ [u; v]) -> edge d u v /\ chain d (w ++ [u]).
Proof.
  intros H. split.
  - apply chain_app_r in H. exact (proj1 H).
  - apply (chain_app_l d (w ++ [u]) [v]). now rewrite <- app_assoc.
Qed.

(** In an ordered sequence, every node from which a node of the sequence
    can be reached stands before it. *)
Lemma ancestors_before (d : graph) (l : list string) :
  ordered d l ->
  forall w v l1 l2,
    l = l1 ++ v :: l2 -> chain d (w ++ [v]) -> forall y, In y w -> In y l1.
Proof.
  intros Ho. induction w as [| u w IH] using rev_ind;
    intros v l1 l2 E Hc y Hy; [destruct Hy |].
  rewrite <- app_assoc in Hc. simpl in Hc.
  apply chain_snoc_inv in Hc as [He Hc].
  pose proof (Ho l1 v l2 u E He) as Hu.
  apply in_app_iff in Hy as [Hy | [<- | []]]; [| exact Hu].
  apply in_split in Hu as [a [b ->]].
  apply in_or_app. left.
  apply (IH u a (b ++ v :: l2)); [| exact Hc | exact Hy].
  rewrite E, <- app_assoc. reflexivity.
Qed.

Lemma ordered_no_cycle (d : graph) (l : list string) (x : string) :
  ordered d l -> In x l -> ~ on_cycle d x.
Proof.
  intros Ho Hx [mid [Hc _]].
  assert (H : forall n l1 l2,
             List.length l1 < n -> l = l1 ++ x :: l2 -> False).
  { induction n as [| n IH]; intros l1 l2 Hn E; [lia |].
    assert (Hin : In x l1).
    { apply (ancestors_before d l Ho (x :: mid) x l1 l2 E); [exact Hc |].
      now left. }
    apply in_split in Hin as [a [b ->]].
    apply (IH a (b ++ x :: l2)).
    - rewrite length_app in Hn. simpl in Hn. lia.
    - rewrite E, <- app_assoc. reflexivity. }
  apply in_split in Hx as [l1 [l2 E]].
  exact (H (S (List.length l1)) l1 l2 (Nat.lt_succ_diag_r _) E).
Qed.

Lemma repeated_element (l : list string) :
  ~ NoDup l -> exists x l1 l2 l3, l = l1 ++ x :: l2 ++ x :: l3.
Proof.
  induction l as [| a l IH]; intros H; [exfalso; apply H; constructor |].
  destruct (in_dec string_dec a l) as [Hin | Hout].
  - apply in_split in Hin as [l2 [l3 ->]]. now exists a, [], l2, l3.
  - destruct IH as [x [l1 [l2 [l3 ->]]]].
    + intros Hl. apply H. now constructor.
    + now exists x, (a :: l1), l2, l3.
Qed.

(** When every node of a set has a predecessor in the set, there are
    chains of any length inside the set. *)
Lemma backward_chain (d : graph) (P : string -> Prop) :
  (forall v, P v -> exists u, P u /\ edge d u v) ->
  forall n v, P v ->
    exists l, List.length l = S n /\ chain d l /\ forall y, In y l -> P y.
Proof.
  intros Hp. induction n as [| n IH]; intros v Hv.
  - exists [v]. split; [reflexivity |]. split; [exact I |].
    intros y [<- | []]. exact Hv.
  - destruct (IH v Hv) as [l [Hl [Hc Hall]]].
    destruct l as [| h t]; [discriminate |].
    destruct (Hp h (Hall h (or_introl eq_refl))) as [u [Hu He]].
    exists (u :: h :: t). split; [simpl in *; lia |]. split.
    + split; assumption.
    + intros y [<- | Hy]; auto.
Qed.

(** A set of nodes of the graph in which every node has a predecessor
    holds a cycle. *)
Lemma predecessors_make_cycle (d : graph) (P : string -> Prop) (v : string) :
  (forall x, P x -> In x (graph_nodes d)) ->
  (forall x, P x -> exists u, P u /\ edge d u x) ->
  P v -> exists c, closed_walk d c.
Proof.
  intros HU Hp Hv.
  destruct (backward_chain d P Hp (List.length (graph_nodes d)) v Hv)
    as [l [Hl [Hc Hall]]].
  destruct (repeated_element l) as [x [l1 [l2 [l3 ->]]]].
  - intros Hnd.
    assert (Hle : List.length l <= List.length (graph_nodes d)).
    { apply NoDup_incl_length; [exact Hnd |]. intros y Hy. auto. }
    lia.
  - exists (x :: l2 ++ [x]). split; [| now exists x, l2].
    apply chain_app_r in Hc.
    apply (chain_app_l d (x :: l2 ++ [x]) l3).
    simpl. rewrite <- app_assoc. exact Hc.
Qed.

Lemma chain_join (d : graph) (l1 l2 : list string) (y : string) :
  chain d (l1 ++ [y]) -> chain d (y :: l2) -> chain d (l1 ++ y :: l2).
Proof.
  intros H1 H2. induction l1 as [| a l1 IH]; [exact H2 |].
  destruct l1 as [| b l1].
  - destruct H1 as [He _]. split; assumption.
  - destruct H1 as [He H1]. split; [exact He | exact (IH H1)].
Qed.

(** Every element of a closed sequence of edges lies on a cycle that
    starts at it. *)
Lemma closed_walk_member (d : graph) (c : list string) (x : string) :
  closed_walk d c -> In x c -> on_cycle d x.
Proof.
  intros [Hc [y [mid ->]]] Hx.
  destruct (string_dec x y) as [-> | Hne].
  - exists mid. split; [exact Hc | now exists y, mid].
  - assert (Hm : In x mid).
    { destruct Hx as [E | Hx]; [congruence |].
      apply in_app_iff in Hx as [Hx | [E | []]]; [exact Hx | congruence]. }
    apply in_split in Hm as [m1 [m2 ->]].
    exists (m2 ++ y :: m1). split; [| now exists x, (m2 ++ y :: m1)].
    assert (H1 : chain d ((x :: m2) ++ [y])).
    { apply (chain_app_r d (y :: m1)). simpl.
      rewrite <- app_assoc in Hc. exact Hc. }
    assert (H2 : chain d (y :: m1 ++ [x])).
    { apply (chain_app_l d (y :: m1 ++ [x]) (m2 ++ [y])). simpl.
      rewrite <- !app_assoc in *. exact Hc. }
    change (chain d ((x :: m2 ++ y :: m1) ++ [x])).
    rewrite app_comm_cons, <- app_assoc.
    apply (chain_join d (x :: m2) (m1 ++ [x]) y); assumption.
Qed.

Lemma acyclic_all_output (d : graph) (s : kahn_state) :
  kahn_inv d s -> k_queue s = [] -> acyclic d ->
  forall v, In v (graph_nodes d) -> In v (k_result s).
Proof.
  intros I Hq Ha v Hv.
  destruct (in_dec string_dec v (k_result s)) as [Hin | Hout]; [exact Hin |].
  exfalso.
  destruct (predecessors_make_cycle d
              (fun x => In x (graph_nodes d) /\ ~ In x (k_result s)) v)
    as [c Hc]; [tauto | | tauto | exact (Ha c Hc)].
  intros x [Hx Hnx].
  assert (Hd : (0 < degree (k_deg s) x)%Z).
  { pose proof (incoming_nonneg d (pending d (k_result s)) x) as Hi.
    rewrite <- (ki_degree _ _ I) in Hi.
    destruct (Z.eq_dec (degree (k_deg s) x) 0) as [E | E]; [| lia].
    exfalso. apply Hnx. pose proof (ki_ready _ _ I x Hx E) as H.
    now rewrite Hq, app_nil_r in H. }
  rewrite (ki_degree _ _ I) in Hd.
  apply incoming_pos in Hd as [u [Hu He]].
  unfold pending in Hu. apply filter_In in Hu as [Hk Hm].
  apply negb_true_iff, mem_false in Hm.
  exists u. split; [| exact He]. split; [| exact Hm].
  unfold graph_nodes. apply in_or_app. now left.
Qed.

(** C3. [get_build_order] returns a sequence of nodes of the graph
    without repetition. When the graph is acyclic, every key of the
    forward mapping occurs in it exactly once. Every element of a closed
    sequence of edges is a node of the graph that does not occur in it, so
    that when the graph has a cycle the sequence is a strict subset of the
    nodes. *)
Theorem get_build_order_covers_keys_of_acyclic_graph :
  forall d : graph,
    dict_wf d ->
    exists order d',
      get_build_order d = Ok (order, d')
      /\ NoDup order
      /\ (forall x, In x order -> In x (graph_nodes d))
      /\ (acyclic d ->
          forall k, In k (dict_keys d) -> count_occ string_dec order k = 1)
      /\ (forall c x,
            closed_walk d c -> In x c ->
            In x (graph_nodes d) /\ ~ In x order)
      /\ (forall c, closed_walk d c ->
            exists x, In x (graph_nodes d) /\ ~ In x order).
Proof.
  intros d Hwf. destruct (get_build_order_spec d Hwf) as [s [E [I Hq]]].
  exists (k_result s), (k_deps s). split; [exact E |].
  pose proof (ki_nodup _ _ I) as Hnd. rewrite Hq, app_nil_r in Hnd.
  pose proof (ki_order _ _ I) as Ho. rewrite Hq, app_nil_r in Ho.
  assert (Hcyc : forall x, on_cycle d x ->
                           In x (graph_nodes d) /\ ~ In x (k_result s)).
  { intros x Hx. split.
    - destruct Hx as [mid [Hc _]]. unfold graph_nodes. apply in_or_app. left.
      destruct (mid ++ [x]) as [| y t] eqn:Ey; [destruct mid; discriminate |].
      destruct Hc as [He _]. eapply edge_key; eassumption.
    - intros Hin. exact (ordered_no_cycle d _ x Ho Hin Hx). }
  split; [exact Hnd |]. split; [| split; [| split]].
  - intros x Hx. apply (ki_nodes _ _ I). rewrite Hq, app_nil_r. exact Hx.
  - intros Ha k Hk. apply NoDup_count_occ'; [exact Hnd |].
    apply (acyclic_all_output d s I Hq Ha).
    unfold graph_nodes. apply in_or_app. now left.
  - intros c x Hc Hx. apply Hcyc. eapply closed_walk_member; eassumption.
  - intros c [Hc [x [mid ->]]]. exists x. apply Hcyc. exists mid.
    split; [exact Hc | now exists x, mid].
Qed.

(** C9. On an acyclic graph the sequence [get_build_order] returns holds
    every node once, and for every edge of the forward mapping the
    including file stands before the file it includes. *)
Theorem get_build_order_lists_includer_before_included :
  forall d : graph,
    dict_wf d -> acyclic d ->
    exists order d',
      get_build_order d = Ok (order, d')
      /\ NoDup order
      /\ forall u v, edge d u v -> before order u v.
Proof.
  intros d Hwf Ha. destruct (get_build_order_spec d Hwf) as [s [E [I Hq]]].
  exists (k_result s), (k_deps s). split; [exact E |].
  pose proof (ki_nodup _ _ I) as Hnd. rewrite Hq, app_nil_r in Hnd.
  pose proof (ki_order _ _ I) as Ho. rewrite Hq, app_nil_r in Ho.
  split; [exact Hnd |]. intros u v He.
  assert (Hv : In v (k_result s)).
  { apply (acyclic_all_output d s I Hq Ha).
    eapply adj_in_nodes. exact He. }
  apply in_split in Hv as [l1 [l3 Hv]].
  pose proof (Ho l1 v l3 u Hv He) as Hu.
  apply in_split in Hu as [a [b ->]].
  exists a, b, l3. rewrite Hv, <- app_assoc. reflexivity.
Qed.

Lemma get_build_order_covers_keys_of_acyclic_graph_witness :
  exists order d', get_build_order [("a.c", ["b.h"])] = Ok (order, d').
Proof.
  destruct (get_build_order_covers_keys_of_acyclic_graph [("a.c", ["b.h"])])
    as [order [d' [E _]]].
  - repeat constructor. intros [].
  - exists order, d'. exact E.
Defined.

Lemma get_build_order_lists_includer_before_included_witness :
  exists order d',
    get_build_order [("a.c", ["b.h"])] = Ok (order, d')
    /\ before order "a.c" "b.h".
Proof.
  destruct (get_build_order_lists_includer_before_included
              [("a.c", ["b.h"])]) as [order [d' [E [_ H]]]].
  - repeat constructor. intros [].
  - exact (find_circular_dependencies_sound Scenario.sources_world
             [("a.c", ["b.h"])]).
  - exists order, d'. split; [exact E |]. apply H. now left.
Defined.

(** Scenario 1 of the specification: [a.c] includes [b.h], which includes
    nothing. *)
Example scenario_one :
  let w := Scenario.tree_world (Dir ["a.c"; "b.h"] NoDirs)
             (fun p => if String.eqb p "a.c"
                       then Scenario.text [Scenario.include_line "b.h"]
                       else Scenario.text []) in
  let a := fst (build_dependency_graph w (init main_src_dirs main_include_dirs)) in
  dependencies a = [("a.c", ["b.h"])]
  /\ reverse_deps a = [("b.h", ["a.c"])]
  /\ find_circular_dependencies w (dependencies a)
     = Ok (None, [("a.c", ["b.h"]); ("b.h", [])])
  /\ get_build_order (dependencies a)
     = Ok (["a.c"; "b.h"], [("a.c", ["b.h"]); ("b.h", [])]).
Proof. repeat split. Qed.

(** * Further properties of the code *)

(** ** Further properties of include extraction *)

Lemma strip_prefix_inv (p s s' : string) :
  strip_prefix p s = Some s' -> s = (p ++ s')%string.
Proof.
  revert s. induction p as [| a p IH]; intros s; simpl.
  - now intros [= ->].
  - destruct s as [| b s]; [discriminate |].
    destruct (Ascii.eqb_spec a b) as [-> | Hne]; [| discriminate].
    intros H. now rewrite (IH s H).
Qed.

Section MatcherInversion.
Context {R : Type}.

Lemma star_k_inv (p : ascii -> bool) (k : string -> option R) (s : string)
    (r : R) :
  star_k p k s = Some r ->
  exists run rest,
    s = (run ++ rest)%string /\ all_chars p run = true /\ k rest = Some r.
Proof.
  induction s as [| c s IH]; simpl.
  - intros H. now exists EmptyString, EmptyString.
  - destruct (p c) eqn:Ep.
    + destruct (star_k p k s) as [r' |] eqn:Es.
      * intros [= ->]. destruct (IH eq_refl) as [run [rest [-> [Hr Hk]]]].
        exists (String c run), rest. simpl. now rewrite Ep, Hr.
      * intros H. now exists EmptyString, (String c s).
    + intros H. now exists EmptyString, (String c s).
Qed.

Lemma plus_k_inv (p : ascii -> bool) (k : string -> string -> option R)
    (s acc : string) (r : R) :
  plus_k p k acc s = Some r ->
  exists run rest,
    s = (run ++ rest)%string /\ run <> EmptyString
    /\ all_chars p run = true /\ k (acc ++ run)%string rest = Some r.
Proof.
  revert acc. induction s as [| c s IH]; intros acc; simpl; [discriminate |].
  destruct (p c) eqn:Ep; [| discriminate].
  destruct (plus_k p k (acc ++ String c EmptyString) s) as [r' |] eqn:Es.
  - intros [= ->]. destruct (IH _ Es) as [run [rest [-> [_ [Hr Hk]]]]].
    exists (String c run), rest. simpl. rewrite Ep, Hr.
    repeat split; [discriminate |].
    rewrite append_assoc in Hk. exact Hk.
  - intros H. exists (String c EmptyString), s. simpl. rewrite Ep.
    repeat split; [discriminate | exact H].
Qed.
End MatcherInversion.

Lemma match_include_inv (line name : string) :
  match_include line = Some name ->
  exists ws o c rest,
    strip line = ("#include" ++ ws ++ String o (name ++ String c rest))%string
    /\ all_chars is_space ws = true
    /\ is_open o = true /\ is_close c = true
    /\ name <> EmptyString
    /\ all_chars (fun x => negb (is_close x)) name = true.
Proof.
  unfold match_include, include_pattern.
  destruct (re_match _ (strip line) None) as [[n |] |] eqn:E; try discriminate.
  intros [= ->]. cbn [re_match] in E.
  destruct (strip_prefix "#include" (strip line)) as [s1 |] eqn:E1;
    [| discriminate].
  apply strip_prefix_inv in E1.
  apply star_k_inv in E as [ws [s2 [-> [Hws E]]]].
  destruct s2 as [| o s3]; [discriminate |].
  destruct (is_open o) eqn:Ho; [| discriminate].
  apply plus_k_inv in E as [run [s4 [-> [Hne [Hrun E]]]]].
  destruct s4 as [| c rest]; [discriminate |].
  destruct (is_close c) eqn:Hc; [| discriminate].
  simpl in E. injection E as <-.
  exists ws, o, c, rest. rewrite E1. repeat split; auto.
Qed.

(** X1. A name that [parse_includes] extracts from a line is never empty
    and holds neither a closing angle bracket nor a double quote; the
    stripped line starts with the directive, followed by white space only,
    an opening delimiter, the name and a closing delimiter. So a directive
    that is not at the start of the stripped line, or is written with a
    space after the hash sign, yields nothing. *)
Theorem match_include_only_at_line_start :
  forall line name : string,
    match_include line = Some name ->
    (exists ws o c rest,
        strip line
        = ("#include" ++ ws ++ String o (name ++ String c rest))%string
        /\ all_chars is_space ws = true
        /\ is_open o = true /\ is_close c = true)
    /\ name <> EmptyString
    /\ all_chars (fun x => negb (is_close x)) name = true
    /\ startswith (strip line) "#include" = true.
Proof.
  intros line name H.
  destruct (match_include_inv line name H)
    as [ws [o [c [rest [E [Hws [Ho [Hc [Hne Hn]]]]]]]]].
  split; [now exists ws, o, c, rest |]. split; [exact Hne |].
  split; [exact Hn |]. unfold startswith. rewrite E. apply prefix_refl.
Qed.

Lemma match_include_only_at_line_start_witness :
  startswith (strip ("  #include <a/b.h> // x" ++ nl)) "#include" = true.
Proof.
  exact (proj2 (proj2 (proj2
    (match_include_only_at_line_start
       ("  #include <a/b.h> // x" ++ nl)%string "a/b.h" eq_refl)))).
Defined.

(** X2. [parse_includes] returns every name once; a name is returned
    exactly when some line that was read yields it; and a warning is
    printed exactly when reading failed. *)
Theorem parse_includes_collects_each_name_once :
  forall (w : world) (file_path : string),
    NoDup (fst (parse_includes w file_path))
    /\ (forall name,
          In name (fst (parse_includes w file_path)) <->
          exists line,
            In line (rr_lines (open_read w file_path))
            /\ match_include line = Some name)
    /\ (snd (parse_includes w file_path) = [] <->
        rr_error (open_read w file_path) = None).
Proof.
  intros w file_path. unfold parse_includes.
  assert (Hn : NoDup (fold_left scan_line (rr_lines (open_read w file_path)) []))
    by (apply scan_lines_NoDup; constructor).
  assert (Hi : forall name,
             In name (fold_left scan_line (rr_lines (open_read w file_path)) [])
             <-> exists line,
                 In line (rr_lines (open_read w file_path))
                 /\ match_include line = Some name).
  { intros name. split.
    - intros H. apply scan_lines_origin in H as [[] | H]. exact H.
    - intros [line [Hl Hm]]. eapply scan_lines_found; eassumption. }
  destruct (rr_error (open_read w file_path)); simpl;
    (split; [exact Hn |]; split; [exact Hi |]); split; congruence.
Qed.

(** ** Include resolution *)

Lemma search_include_dirs_none (w : world) (dirs : list string) (name : string) :
  search_include_dirs w dirs name = None <->
  forall dir, In dir dirs -> os_path_exists w (os_path_join dir name) = false.
Proof.
  induction dirs as [| d dirs IH]; simpl.
  - split; [intros _ dir [] | reflexivity].
  - destruct (os_path_exists w (os_path_join d name)) eqn:E.
    + split; [discriminate |]. intros H.
      rewrite (H d (or_introl eq_refl)) in E. discriminate.
    + rewrite IH. split.
      * intros H dir [<- | Hd]; auto.
      * intros H dir Hd. apply H. now right.
Qed.

Lemma search_include_dirs_first (w : world) (pre post : list string)
    (dir name : string) :
  (forall d, In d pre -> os_path_exists w (os_path_join d name) = false) ->
  os_path_exists w (os_path_join dir name) = true ->
  search_include_dirs w (pre ++ dir :: post) name
  = Some (os_path_relpath w (os_path_join dir name)).
Proof.
  intros Hpre Hd. induction pre as [| d pre IH]; simpl.
  - now rewrite Hd.
  - rewrite (Hpre d (or_introl eq_refl)). apply IH.
    intros x Hx. apply Hpre. now right.
Qed.

(** X3. [resolve_include] looks the name up in the discovery mapping
    first: a discovered file wins over the include directories. Otherwise
    the first include directory, in order, that holds the name decides.
    The name is unresolved exactly when it is in neither; the prefixes of
    system headers change nothing, so [sys/x.h] resolves when an include
    directory holds it. *)
Theorem resolve_include_prefers_discovered_files :
  forall (w : world) (a : analyzer) (name : string),
    (forall p, dict_get (files a) name = Some p ->
               resolve_include w a name = Some p)
    /\ (forall pre dir post,
          dict_get (files a) name = None ->
          include_dirs a = pre ++ dir :: post ->
          (forall d, In d pre ->
                     os_path_exists w (os_path_join d name) = false) ->
          os_path_exists w (os_path_join dir name) = true ->
          resolve_include w a name
          = Some (os_path_relpath w (os_path_join dir name)))
    /\ (resolve_include w a name = None <->
        dict_get (files a) name = None
        /\ forall dir, In dir (include_dirs a) ->
                       os_path_exists w (os_path_join dir name) = false).
Proof.
  intros w a name. unfold resolve_include. split; [| split].
  - intros p H. now rewrite H.
  - intros pre dir post Hf Hd Hpre He. rewrite Hf, Hd.
    now rewrite (search_include_dirs_first w pre post dir name Hpre He).
  - destruct (dict_get (files a) name) as [p |] eqn:Ef.
    + split; [discriminate | intros [H _]; discriminate].
    + rewrite <- search_include_dirs_none.
      destruct (search_include_dirs w (include_dirs a) name) eqn:Es.
      * split; [discriminate | intros [_ H]; discriminate].
      * destruct (existsb (startswith name) system_prefixes); tauto.
Qed.

(** ** Warnings of the builder *)

Lemma visit_sources_output (w : world) (a : analyzer)
    (items : list (string * string)) (st : (graph * graph) * list string) :
  snd (fold_left (visit_source w a) items st)
  = snd st
    ++ flat_map
         (fun item =>
            if is_compiled (snd item) then snd (parse_includes w (snd item))
            else [])
         items.
Proof.
  revert st. induction items as [| item items IH]; intros st;
    cbn [fold_left flat_map]; [now rewrite app_nil_r |].
  rewrite IH, app_assoc. f_equal. unfold visit_source.
  destruct (is_compiled (snd item)); cbn [negb]; [| now rewrite app_nil_r].
  destruct (parse_includes w (snd item)); reflexivity.
Qed.

(** X14. The builder prints a line exactly for the discovered files that
    end in [.c] or [.S] and could not be read to the end, and the line is
    the warning for that file: a header that cannot be read is passed over
    in silence, since headers are never opened. *)
Theorem builder_warns_about_scanned_files_only :
  forall (w : world) (sd id : list string) (line : string),
    In line (snd (build_dependency_graph w (init sd id))) <->
    exists name path e,
      In (name, path) (files (find_source_files w (init sd id)))
      /\ is_compiled path = true
      /\ rr_error (open_read w path) = Some e
      /\ line = warning path e.
Proof.
  intros w sd id line. unfold build_dependency_graph. cbn [snd].
  rewrite visit_sources_output. cbn [snd app]. rewrite in_flat_map. split.
  - intros [[name path] [Hin H]]. cbn [snd] in H.
    destruct (is_compiled path) eqn:Ec; [| destruct H].
    unfold parse_includes in H.
    destruct (rr_error (open_read w path)) as [e |] eqn:Ee; [| destruct H].
    destruct H as [<- | []]. now exists name, path, e.
  - intros [name [path [e [Hin [Hc [He ->]]]]]].
    exists (name, path). split; [exact Hin |]. cbn [snd]. rewrite Hc.
    unfold parse_includes. rewrite He. now left.
Qed.

(** ** Discovery: the last file of a name wins *)

Lemma visit_files_assign (w : world) (root : string) (names : list string)
    (fs : dict string) :
  fold_left (visit_file w root) names fs
  = fold_left assign (file_recordings w root names) fs.
Proof.
  revert fs. induction names as [| f names IH]; intros fs;
    cbn [fold_left file_recordings flat_map]; [reflexivity |].
  fold (file_recordings w root names).
  rewrite fold_left_app, <- IH, visit_file_kept.
  destruct (kept root f); reflexivity.
Qed.

Lemma visit_dirs_assign (w : world) (entries : list (string * list string))
    (fs : dict string) :
  fold_left (visit_dir w) entries fs
  = fold_left assign
      (flat_map
         (fun entry =>
            if skipped_root (fst entry) then []
            else file_recordings w (fst entry) (snd entry))
         entries) fs.
Proof.
  revert fs. induction entries as [| [root names] entries IH]; intros fs;
    cbn [fold_left flat_map]; [reflexivity |].
  rewrite fold_left_app, <- IH. cbn [visit_dir fst snd].
  destruct (skipped_root root); [reflexivity |].
  now rewrite visit_files_assign.
Qed.

Lemma scan_roots_assign (w : world) (sd : list string) (fs : dict string) :
  fold_left (scan_root w) sd fs = fold_left assign (recordings w sd) fs.
Proof.
  revert fs. induction sd as [| s sd IH]; intros fs;
    cbn [fold_left recordings flat_map]; [reflexivity |].
  fold (recordings w sd). rewrite fold_left_app, <- IH. unfold scan_root.
  destruct (os_path_exists w s); cbn [negb]; [| reflexivity].
  now rewrite visit_dirs_assign.
Qed.

Lemma assign_all_get {V} (l : list (string * V)) (d : dict V) (k : string) :
  ~ In k (map fst l) -> dict_get (fold_left assign l d) k = dict_get d k.
Proof.
  revert d. induction l as [| [k' v] l IH]; intros d H; simpl; [reflexivity |].
  rewrite IH by (intros Hin; apply H; now right).
  unfold assign. simpl. rewrite dict_get_set.
  destruct (String.eqb_spec k' k) as [-> | Hne]; [| reflexivity].
  exfalso. apply H. now left.
Qed.

Lemma assign_all_last {V} (pre post : list (string * V)) (d : dict V)
    (k : string) (v : V) :
  ~ In k (map fst post) ->
  dict_get (fold_left assign (pre ++ (k, v) :: post) d) k = Some v.
Proof.
  intros H. rewrite fold_left_app. simpl. rewrite (assign_all_get post _ k H).
  unfold assign. simpl. now rewrite dict_get_set, String.eqb_refl.
Qed.

Lemma assign_all_keys {V} (l : list (string * V)) (d : dict V) (k : string) :
  In k (dict_keys (fold_left assign l d)) <-> In k (dict_keys d) \/ In k (map fst l).
Proof.
  revert d. induction l as [| [k' v] l IH]; intros d; simpl; [tauto |].
  rewrite IH. unfold assign. simpl. rewrite <- !dict_has_In.
  unfold dict_has. rewrite dict_get_set.
  destruct (String.eqb_spec k' k) as [-> | Hne].
  - split; [auto | intros _; now left].
  - split; [tauto | intros [H | [H | H]]; [now left | congruence | now right]].
Qed.

Lemma assign_all_wf {V} (l : list (string * V)) (d : dict V) :
  dict_wf d -> dict_wf (fold_left assign l d).
Proof.
  revert d. induction l as [| kv l IH]; intros d H; simpl; [exact H |].
  apply IH. now apply dict_set_wf.
Qed.

(** X4. Discovery is keyed by bare file name and the last writer wins:
    when several recorded files share a name, the mapping holds the path
    of the one recorded last. A name is a key exactly when some file of
    that name was recorded, and no name is a key twice. *)
Theorem find_source_files_last_writer_wins :
  forall (w : world) (sd id : list string),
    (forall pre file p post,
        recordings w sd = pre ++ (file, p) :: post ->
        ~ In file (map fst post) ->
        dict_get (files (find_source_files w (init sd id))) file = Some p)
    /\ (forall file,
          In file (dict_keys (files (find_source_files w (init sd id))))
          <-> In file (map fst (recordings w sd)))
    /\ dict_wf (files (find_source_files w (init sd id))).
Proof.
  intros w sd id. unfold find_source_files. simpl.
  rewrite scan_roots_assign. split; [| split].
  - intros pre file p post E H. rewrite E. now apply assign_all_last.
  - intros file. rewrite assign_all_keys. simpl. tauto.
  - apply assign_all_wf. constructor.
Qed.

(** ** Shape of the graph the builder returns *)

Lemma In_dict_set {V} (d : dict V) (k : string) (v : V) (e : string * V) :
  In e (dict_set d k v) -> e = (k, v) \/ In e d.
Proof.
  induction d as [| [k0 v0] d IH]; simpl.
  - intros [<- | []]. now left.
  - destruct (String.eqb_spec k0 k) as [-> | Hne]; simpl.
    + intros [<- | H]; auto.
    + intros [<- | H]; auto. destruct (IH H); auto.
Qed.

Lemma dict_set_app_new {V} (d : dict V) (k : string) (v0 v : V) :
  dict_get d k = None -> dict_set (d ++ [(k, v0)]) k v = d ++ [(k, v)].
Proof.
  induction d as [| [k' v'] d IH]; simpl.
  - intros _. now rewrite String.eqb_refl.
  - destruct (String.eqb_spec k' k); [discriminate |].
    intros H. now rewrite (IH H).
Qed.

Lemma In_dd_add (d : graph) (k x : string) (e : string * list string) :
  In e (dd_add d k x) -> e = (k, set_add x (adj d k)) \/ In e d.
Proof.
  unfold dd_add, touch, dd_get. destruct (dict_get d k) eqn:E; simpl.
  - apply In_dict_set.
  - rewrite (dict_set_app_new d k [] _ E), in_app_iff. simpl.
    intros [H | [<- | []]]; auto.
Qed.

Lemma dd_add_nonempty (d : graph) (k x : string) : dd_add d k x <> [].
Proof.
  unfold dd_add. destruct (touch d k) as [| [k0 v0] t]; simpl; [discriminate |].
  destruct (String.eqb k0 k); discriminate.
Qed.

Lemma sets_ok_adj (d : graph) (k : string) : sets_ok d -> NoDup (adj d k).
Proof.
  intros H. rewrite adj_get. destruct (dict_get d k) eqn:E; [| constructor].
  apply dict_get_In in E. exact (proj2 (H _ _ E)).
Qed.

Lemma dd_add_sets_ok (d : graph) (k x : string) :
  sets_ok d -> sets_ok (dd_add d k x).
Proof.
  intros H k' l Hin. apply In_dd_add in Hin as [E | Hin]; [| exact (H _ _ Hin)].
  injection E as -> ->. split.
  - unfold set_add. destruct (mem x (adj d k)) eqn:Em.
    + apply mem_In in Em. intros E. now rewrite E in Em.
    + destruct (adj d k); discriminate.
  - apply set_add_NoDup. now apply sets_ok_adj.
Qed.

Lemma add_edges_sets_ok (l : list (string * string)) (g : graph * graph) :
  sets_ok (fst g) -> sets_ok (snd g) ->
  sets_ok (fst (fold_left add_edge l g))
  /\ sets_ok (snd (fold_left add_edge l g)).
Proof.
  revert g. induction l as [| [s t] l IH]; intros g H1 H2; simpl; [auto |].
  apply IH; simpl; now apply dd_add_sets_ok.
Qed.

Lemma add_edges_nonempty (l : list (string * string)) (g : graph * graph) :
  fst g <> [] /\ snd g <> [] ->
  fst (fold_left add_edge l g) <> [] /\ snd (fold_left add_edge l g) <> [].
Proof.
  revert g. induction l as [| [s t] l IH]; intros g H; simpl; [exact H |].
  apply IH. simpl. split; apply dd_add_nonempty.
Qed.

Lemma add_edges_both_empty (l : list (string * string)) :
  (fst (fold_left add_edge l ([], [])) = []
   <-> snd (fold_left add_edge l ([], [])) = [])
  /\ (fst (fold_left add_edge l ([], [])) = [] <-> l = []).
Proof.
  destruct l as [| [s t] l]; [simpl; tauto |].
  cbn [fold_left].
  destruct (add_edges_nonempty l (add_edge ([], []) (s, t))) as [H1 H2].
  - split; apply dd_add_nonempty.
  - split; split; intros H; try contradiction; discriminate.
Qed.

Lemma build_dependency_graph_both_empty (w : world) (sd id : list string) :
  let b := fst (build_dependency_graph w (init sd id)) in
  dependencies b = [] <-> reverse_deps b = [].
Proof.
  pose proof (build_dependency_graph_fold w sd id) as H. cbv zeta in *.
  assert (Hd : dependencies (fst (build_dependency_graph w (init sd id)))
               = fst (fold_left add_edge
                        (edge_insertions w (find_source_files w (init sd id)))
                        ([], [])))
    by (now rewrite <- H).
  assert (Hr : reverse_deps (fst (build_dependency_graph w (init sd id)))
               = snd (fold_left add_edge
                        (edge_insertions w (find_source_files w (init sd id)))
                        ([], [])))
    by (now rewrite <- H).
  rewrite Hd, Hr. apply add_edges_both_empty.
Qed.

(** X5. In the graph the builder returns, both mappings hold each key
    once, every set is non-empty and without repetition, and the forward
    mapping is empty exactly when the reverse index is, which is when no
    include of a scanned file resolved to another file. *)
Theorem builder_graph_has_no_empty_set :
  forall (w : world) (sd id : list string),
    let b := fst (build_dependency_graph w (init sd id)) in
    dict_wf (dependencies b) /\ dict_wf (reverse_deps b)
    /\ sets_ok (dependencies b) /\ sets_ok (reverse_deps b)
    /\ (dependencies b = [] <-> reverse_deps b = [])
    /\ (dependencies b = [] <->
        edge_insertions w (find_source_files w (init sd id)) = []).
Proof.
  intros w sd id b.
  pose proof (build_dependency_graph_fold w sd id) as H. cbv zeta in H.
  fold b in H.
  assert (Hd : dependencies b
               = fst (fold_left add_edge
                        (edge_insertions w (find_source_files w (init sd id)))
                        ([], [])))
    by (now rewrite <- H).
  assert (Hr : reverse_deps b
               = snd (fold_left add_edge
                        (edge_insertions w (find_source_files w (init sd id)))
                        ([], [])))
    by (now rewrite <- H).
  rewrite Hd, Hr.
  assert (Hnil : dict_wf (@nil (string * list string))) by constructor.
  assert (Snil : sets_ok []) by (intros k l []).
  destruct (add_edges_wf
              (edge_insertions w (find_source_files w (init sd id))) ([], [])
              Hnil Hnil) as [W1 W2].
  destruct (add_edges_sets_ok
              (edge_insertions w (find_source_files w (init sd id))) ([], [])
              Snil Snil) as [S1 S2].
  destruct (add_edges_both_empty
              (edge_insertions w (find_source_files w (init sd id))))
    as [E1 E2].
  split; [exact W1 |]. split; [exact W2 |]. split; [exact S1 |].
  split; [exact S2 |]. split; [exact E1 | exact E2].
Qed.

(** ** The analyses leave the edges alone *)

Lemma dict_get_app {V} (d l : dict V) (k : string) :
  dict_get (d ++ l) k
  = match dict_get d k with Some v => Some v | None => dict_get l k end.
Proof.
  induction d as [| [k' v'] d IH]; simpl; [reflexivity |].
  destruct (String.eqb k' k); [reflexivity | exact IH].
Qed.

Lemma dict_get_empty_entries (ks : list string) (k : string) :
  dict_get (empty_entries ks) k = if mem k ks then Some [] else None.
Proof.
  induction ks as [| x ks IH]; simpl; [reflexivity |].
  rewrite (String.eqb_sym k x). destruct (String.eqb x k); [reflexivity | exact IH].
Qed.

Lemma adj_app_empty (d : graph) (ks : list string) (k : string) :
  adj (d ++ empty_entries ks) k = adj d k.
Proof.
  rewrite !adj_get, dict_get_app, dict_get_empty_entries.
  destruct (dict_get d k); [reflexivity |]. destruct (mem k ks); reflexivity.
Qed.

Lemma keys_app_empty (d : graph) (ks : list string) :
  dict_keys (d ++ empty_entries ks) = dict_keys d ++ ks.
Proof.
  unfold dict_keys, empty_entries. rewrite map_app, map_map. simpl.
  now rewrite map_id.
Qed.

Lemma grown_refl (d : graph) : grown d d.
Proof.
  exists []. simpl. rewrite app_nil_r. split; [reflexivity |].
  split; [constructor | intros x []].
Qed.

Lemma grown_adj (d d' : graph) (k : string) : grown d d' -> adj d' k = adj d k.
Proof. intros [ks [-> _]]. apply adj_app_empty. Qed.

Lemma grown_wf (d d' : graph) : grown d d' -> dict_wf d -> dict_wf d'.
Proof.
  intros [ks [-> [Hnd Hks]]] Hwf. unfold dict_wf. rewrite keys_app_empty.
  apply NoDup_app; [exact Hwf | exact Hnd |].
  intros x Hx Hk. exact (proj2 (Hks x Hk) Hx).
Qed.

Lemma grown_touch (d d' : graph) (k : string) :
  grown d d' -> In k (graph_nodes d) -> grown d (touch d' k).
Proof.
  intros [ks [-> [Hnd Hks]]] Hk. unfold touch, dd_get.
  destruct (dict_get (d ++ empty_entries ks) k) eqn:E; simpl.
  - now exists ks.
  - apply dict_get_None in E. rewrite keys_app_empty, in_app_iff in E.
    exists (ks ++ [k]). split; [| split].
    + unfold empty_entries. rewrite map_app, <- app_assoc. reflexivity.
    + apply NoDup_snoc; tauto.
    + intros x Hx. apply in_app_iff in Hx as [Hx | [<- | []]]; [auto |].
      split; tauto.
Qed.

Lemma grown_nodes_length (d d' : graph) :
  grown d d' ->
  List.length (graph_nodes d) <= List.length (graph_nodes d').
Proof.
  intros [ks [-> _]]. unfold graph_nodes, dict_keys, dict_values.
  rewrite !map_app, concat_app, !length_app. lia.
Qed.

Lemma grown_values (d d' : graph) :
  grown d d' ->
  flat_map (fun item => map (edge_stmt (fst item)) (snd item)) d'
  = flat_map (fun item => map (edge_stmt (fst item)) (snd item)) d.
Proof.
  intros [ks [-> _]]. rewrite flat_map_app.
  assert (E : flat_map (fun item => map (edge_stmt (fst item)) (snd item))
                (empty_entries ks) = []).
  { induction ks as [| k ks IH]; simpl; auto. }
  rewrite E. apply app_nil_r.
Qed.

Section GrownSearch.
Variable d0 : graph.

Lemma for_neighbors_grown (fuel : nat) :
  (forall node st r st',
      grown d0 (st_deps st) -> In node (graph_nodes d0) ->
      dfs fuel node st = Ok (r, st') -> grown d0 (st_deps st')) ->
  forall ns st r st',
    grown d0 (st_deps st) -> (forall n, In n ns -> In n (graph_nodes d0)) ->
    for_neighbors (dfs fuel) ns st = Ok (r, st') -> grown d0 (st_deps st').
Proof.
  intros Hdfs. induction ns as [| n ns IH]; intros st r st' G HU H.
  - simpl in H. injection H as _ <-. exact G.
  - cbn [for_neighbors] in H.
    assert (HU' : forall x, In x ns -> In x (graph_nodes d0))
      by (intros x Hx; apply HU; now right).
    destruct (negb (mem n (st_visited st))).
    + destruct (dfs fuel n st) as [[c st1] | e |] eqn:E; try discriminate.
      assert (G1 : grown d0 (st_deps st1))
        by (eapply Hdfs; [exact G | apply HU; now left | exact E]).
      destruct (is_cycle_found c).
      * injection H as _ <-. exact G1.
      * eapply IH; eassumption.
    + destruct (mem n (st_rec st)).
      * destruct (slice_from n (st_path st)); [| discriminate].
        injection H as _ <-. exact G.
      * eapply IH; eassumption.
Qed.

Lemma dfs_grown (fuel : nat) :
  forall node st r st',
    grown d0 (st_deps st) -> In node (graph_nodes d0) ->
    dfs fuel node st = Ok (r, st') -> grown d0 (st_deps st').
Proof.
  induction fuel as [| fuel IH]; intros node st r st' G HU H; [discriminate |].
  cbn [dfs] in H.
  destruct (for_neighbors (dfs fuel) (adj (st_deps st) node) (dfs_enter node st))
    as [[[c |] st1] | e |] eqn:E; try discriminate.
  - injection H as _ <-.
    eapply (for_neighbors_grown fuel IH); [| | exact E].
    + simpl. now apply grown_touch.
    + intros n Hn. rewrite (grown_adj _ _ _ G) in Hn.
      eapply adj_in_nodes; eassumption.
  - assert (G1 : grown d0 (st_deps st1)).
    { eapply (for_neighbors_grown fuel IH); [| | exact E].
      - simpl. now apply grown_touch.
      - intros n Hn. rewrite (grown_adj _ _ _ G) in Hn.
        eapply adj_in_nodes; eassumption. }
    unfold dfs_leave in H. destruct (st_path st1); [discriminate |].
    destruct (mem node (st_rec st1)); [| discriminate].
    injection H as _ <-. exact G1.
Qed.

Lemma find_cycles_grown (fuel : nat) :
  forall nodes d visited r d',
    grown d0 d -> (forall n, In n nodes -> In n (graph_nodes d0)) ->
    find_cycles fuel nodes d visited = Ok (r, d') -> grown d0 d'.
Proof.
  induction nodes as [| node nodes IH]; intros d visited r d' G HU H.
  - simpl in H. injection H as _ <-. exact G.
  - cbn [find_cycles] in H.
    assert (HU' : forall x, In x nodes -> In x (graph_nodes d0))
      by (intros x Hx; apply HU; now right).
    destruct (negb (mem node visited)); [| eapply IH; eassumption].
    destruct (dfs fuel node _) as [[c st1] | e |] eqn:E; try discriminate.
    assert (G1 : grown d0 (st_deps st1)).
    { eapply dfs_grown; [| | exact E]; [exact G | apply HU; now left]. }
    destruct (is_cycle_found c).
    + injection H as _ <-. exact G1.
    + eapply IH; eassumption.
Qed.
End GrownSearch.

Lemma find_circular_dependencies_grown (w : world) (d : graph)
    (r : option (list string)) (d' : graph) :
  find_circular_dependencies w d = Ok (r, d') -> grown d d'.
Proof.
  intros H. eapply find_cycles_grown; [apply grown_refl | | exact H].
  intros n Hn. unfold graph_nodes. apply in_or_app. now left.
Qed.

Lemma kahn_loop_grown (d : graph) (fuel : nat) :
  dict_wf d ->
  forall s t,
    kahn_inv d s -> grown d (k_deps s) ->
    kahn_loop fuel s = Ok t -> grown d (k_deps t).
Proof.
  intros Hwf. induction fuel as [| fuel IH]; intros s t I G H.
  - simpl in H. destruct (k_queue s); [| discriminate].
    injection H as <-. exact G.
  - simpl in H. destruct (k_queue s) as [| node queue] eqn:Eq.
    + injection H as <-. exact G.
    + apply (IH (kahn_step node queue s)); [| | exact H].
      * now apply kahn_step_inv.
      * unfold kahn_step. cbn [k_deps]. apply grown_touch; [exact G |].
        apply (ki_nodes _ _ I). rewrite Eq. apply in_or_app. right. now left.
Qed.

Lemma get_build_order_grown (d : graph) (order : list string) (d' : graph) :
  dict_wf d -> get_build_order d = Ok (order, d') -> grown d d'.
Proof.
  intros Hwf H. unfold get_build_order in H.
  destruct (kahn_loop _ (kahn_init d)) as [t | e |] eqn:E; try discriminate.
  injection H as _ <-.
  eapply kahn_loop_grown; [exact Hwf | apply kahn_init_inv, Hwf | | exact E].
  apply grown_refl.
Qed.

(** X6. Neither analysis alters an edge. The forward mapping that
    [find_circular_dependencies] or [get_build_order] leaves behind is the
    one it was given, followed by keys with an empty set for nodes that
    were only edge targets before; every adjacency set reads as before. *)
Theorem analyses_only_add_empty_keys :
  forall (w : world) (d d' : graph),
    ((exists r, find_circular_dependencies w d = Ok (r, d'))
     \/ (dict_wf d /\ exists order, get_build_order d = Ok (order, d'))) ->
    (exists ks,
        d' = d ++ map (fun k => (k, [])) ks
        /\ forall x, In x ks -> In x (graph_nodes d) /\ ~ In x (dict_keys d))
    /\ forall k, adj d' k = adj d k.
Proof.
  intros w d d' H.
  assert (G : grown d d').
  { destruct H as [[r H] | [Hwf [order H]]].
    - eapply find_circular_dependencies_grown; eassumption.
    - eapply get_build_order_grown; eassumption. }
  split; [| intros k; now apply grown_adj].
  destruct G as [ks [E [_ Hks]]]. now exists ks.
Qed.

Lemma analyses_only_add_empty_keys_witness :
  (exists ks,
      [("a.c", ["b.h"]); ("b.h", [])]
      = [("a.c", ["b.h"])] ++ map (fun k => (k, [])) ks
      /\ forall x, In x ks ->
                   In x (graph_nodes [("a.c", ["b.h"])])
                   /\ ~ In x (dict_keys [("a.c", ["b.h"])]))
  /\ forall k, adj [("a.c", ["b.h"]); ("b.h", [])] k
               = adj [("a.c", ["b.h"])] k.
Proof.
  apply (analyses_only_add_empty_keys Scenario.sources_world
           [("a.c", ["b.h"])] [("a.c", ["b.h"]); ("b.h", [])]).
  left. exists None. reflexivity.
Defined.

(** ** The build order does not depend on an earlier cycle check *)

Lemma count_node_grown (d d' : graph) (deg : dict Z) (node : string) :
  grown d d' -> count_node d' deg node = count_node d deg node.
Proof. intros G. unfold count_node. now rewrite (grown_adj _ _ node G). Qed.

Lemma count_nodes_grown (d d' : graph) (l : list string) (deg : dict Z) :
  grown d d' ->
  fold_left (count_node d') l deg = fold_left (count_node d) l deg.
Proof.
  intros G. revert deg. induction l as [| n l IH]; intros deg; simpl; auto.
  now rewrite IH, (count_node_grown d d' deg n G).
Qed.

Lemma count_node_known (d : graph) (deg : dict Z) (node : string) :
  dict_has deg node = true -> adj d node = [] -> count_node d deg node = deg.
Proof. intros H E. unfold count_node. now rewrite H, E. Qed.

Lemma in_degrees_grown (d d' : graph) :
  dict_wf d -> grown d d' -> in_degrees d' = in_degrees d.
Proof.
  intros Hwf G. unfold in_degrees. rewrite (count_nodes_grown d d' _ _ G).
  destruct G as [ks [-> [_ Hks]]]. rewrite keys_app_empty, fold_left_app.
  fold (in_degrees d).
  assert (H : forall l,
             (forall x, In x l -> In x ks) ->
             fold_left (count_node d) l (in_degrees d) = in_degrees d).
  { induction l as [| x l IH]; intros Hl; simpl; [reflexivity |].
    rewrite count_node_known; [apply IH; intros y Hy; apply Hl; now right | |].
    - apply dict_has_In. apply in_degrees_keys; [exact Hwf |].
      apply Hks, Hl. now left.
    - rewrite adj_get.
      destruct (dict_get d x) eqn:E; [| reflexivity].
      apply dict_get_Some_key in E.
      exfalso. exact (proj2 (Hks x (Hl x (or_introl eq_refl))) E). }
  apply H. auto.
Qed.

Lemma kahn_loop_more_fuel (fuel fuel' : nat) (s t : kahn_state) :
  kahn_loop fuel s = Ok t -> fuel <= fuel' -> kahn_loop fuel' s = Ok t.
Proof.
  revert fuel' s. induction fuel as [| fuel IH]; intros fuel' s H Hle.
  - simpl in H. destruct (k_queue s) eqn:Eq; [| discriminate].
    destruct fuel'; simpl; now rewrite Eq.
  - destruct fuel' as [| fuel']; [lia |]. simpl in *.
    destruct (k_queue s); [exact H |]. apply IH; [exact H | lia].
Qed.

Lemma kahn_loop_same_adj (fuel : nat) :
  forall s s' t,
    (forall k, adj (k_deps s') k = adj (k_deps s) k) ->
    k_deg s' = k_deg s -> k_queue s' = k_queue s ->
    k_result s' = k_result s ->
    kahn_loop fuel s = Ok t ->
    exists t', kahn_loop fuel s' = Ok t' /\ k_result t' = k_result t.
Proof.
  induction fuel as [| fuel IH]; intros s s' t Ha Hd Hq Hr H.
  - simpl in *. rewrite Hq. destruct (k_queue s); [| discriminate].
    injection H as <-. now exists s'.
  - simpl in *. rewrite Hq. destruct (k_queue s) as [| node queue].
    + injection H as <-. now exists s'.
    + apply (IH (kahn_step node queue s)); [| | | | exact H];
        unfold kahn_step; cbn [k_deps k_deg k_queue k_result];
        rewrite ?Ha, ?Hd, ?Hr; try reflexivity.
      intros k. now rewrite !adj_touch.
Qed.

(** X7. Running the cycle check first does not change the build order:
    on the forward mapping that [find_circular_dependencies] leaves behind,
    [get_build_order] returns the same sequence as on the mapping it was
    given. *)
Theorem build_order_unchanged_by_cycle_check :
  forall (w : world) (d d' d1 : graph) (r : option (list string))
         (order : list string),
    dict_wf d ->
    find_circular_dependencies w d = Ok (r, d') ->
    get_build_order d = Ok (order, d1) ->
    exists d2, get_build_order d' = Ok (order, d2).
Proof.
  intros w d d' d1 r order Hwf Hc Ho.
  pose proof (find_circular_dependencies_grown w d r d' Hc) as G.
  unfold get_build_order in *.
  destruct (kahn_loop (List.length (graph_nodes d)) (kahn_init d))
    as [t | e |] eqn:E; try discriminate.
  injection Ho as <- <-.
  apply (kahn_loop_more_fuel _ (List.length (graph_nodes d'))) in E;
    [| now apply grown_nodes_length].
  assert (Hs : exists t',
             kahn_loop (List.length (graph_nodes d')) (kahn_init d') = Ok t'
             /\ k_result t' = k_result t).
  { apply (kahn_loop_same_adj (List.length (graph_nodes d'))
             (kahn_init d) (kahn_init d') t); try exact E;
      unfold kahn_init; cbn [k_deps k_deg k_queue k_result];
      rewrite ?(in_degrees_grown d d' Hwf G); try reflexivity.
    intros k. now apply grown_adj. }
  destruct Hs as [t' [E' Hr]].
  rewrite E'. exists (k_deps t'). now rewrite Hr.
Qed.

Lemma build_order_unchanged_by_cycle_check_witness :
  exists d2,
    get_build_order [("a.c", ["b.h"]); ("b.h", [])] = Ok (["a.c"; "b.h"], d2).
Proof.
  apply (build_order_unchanged_by_cycle_check Scenario.sources_world
           [("a.c", ["b.h"])] [("a.c", ["b.h"]); ("b.h", [])]
           [("a.c", ["b.h"]); ("b.h", [])] None ["a.c"; "b.h"]).
  - repeat constructor. intros [].
  - reflexivity.
  - reflexivity.
Defined.

(** ** The cycle reported passes through no node twice *)

Lemma simple_cycle_found (c : list string) :
  simple_cycle c -> is_cycle_found (Some c) = true.
Proof. intros [x [mid [-> _]]]. reflexivity. Qed.

Section SimpleSearch.
Variable d0 : graph.

Lemma for_neighbors_simple (fuel : nat) :
  (forall node st,
      dfs_inv d0 st -> ~ In node (st_visited st) ->
      In node (graph_nodes d0) -> chain d0 (st_path st ++ [node]) ->
      unvisited d0 (st_visited st) <= fuel -> NoDup (st_path st) ->
      simple_post (dfs fuel node st)) ->
  forall ns st p0 node,
    dfs_inv d0 st -> st_path st = p0 ++ [node] ->
    (forall v, In v ns -> edge d0 node v) ->
    unvisited d0 (st_visited st) <= fuel -> NoDup (st_path st) ->
    simple_post (for_neighbors (dfs fuel) ns st).
Proof.
  intros Hdfs. induction ns as [| n ns IH];
    intros st p0 node I Hp Hadj Hfuel Hnd; [exact Logic.I |].
  assert (He : edge d0 node n) by (apply Hadj; now left).
  assert (Hadj' : forall v, In v ns -> edge d0 node v)
    by (intros v Hv; apply Hadj; now right).
  cbn [for_neighbors].
  destruct (mem n (st_visited st)) eqn:Ev; cbn [negb].
  - destruct (mem n (st_rec st)) eqn:Er.
    + apply mem_In in Er. apply (inv_rec _ _ I) in Er.
      destruct (slice_from_spec n _ Er) as [pre [rest [E ->]]]. simpl.
      exists n, rest. split; [reflexivity |].
      rewrite E in Hnd. now apply NoDup_app_remove_l in Hnd.
    + eapply IH; eassumption.
  - apply mem_false in Ev.
    assert (HU : In n (graph_nodes d0)) by (eapply adj_in_nodes; exact He).
    assert (Hc : chain d0 (st_path st ++ [n])).
    { rewrite Hp, <- app_assoc. simpl. apply chain_snoc; [| exact He].
      rewrite <- Hp. apply (inv_chain _ _ I). }
    pose proof (Hdfs n st I Ev HU Hc Hfuel Hnd) as Hs.
    pose proof (dfs_spec d0 fuel n st I Ev HU Hc Hfuel) as Hd.
    destruct (dfs fuel n st) as [[[c |] st'] | e |]; simpl in Hs, Hd;
      try exact Logic.I.
    + rewrite (simple_cycle_found c Hs). exact Hs.
    + cbn [is_cycle_found]. destruct Hd as [I' [Hp' [Hv' _]]].
      apply (IH st' p0 node); auto.
      * congruence.
      * eapply Nat.le_trans; [apply unvisited_mono, Hv' | exact Hfuel].
      * now rewrite Hp'.
Qed.

Lemma dfs_simple (fuel : nat) :
  forall node st,
    dfs_inv d0 st -> ~ In node (st_visited st) ->
    In node (graph_nodes d0) -> chain d0 (st_path st ++ [node]) ->
    unvisited d0 (st_visited st) <= fuel -> NoDup (st_path st) ->
    simple_post (dfs fuel node st).
Proof.
  induction fuel as [| fuel IH]; intros node st I Hn HU Hc Hfuel Hnd;
    [exact Logic.I |].
  cbn [dfs]. rewrite (inv_adj _ _ I).
  pose proof (dfs_enter_inv d0 st node I Hn HU Hc) as I1.
  assert (Hfuel1 : unvisited d0 (st_visited (dfs_enter node st)) <= fuel).
  { simpl. pose proof (unvisited_add d0 (st_visited st) node HU Hn). lia. }
  assert (Hnd1 : NoDup (st_path (dfs_enter node st))).
  { simpl. apply NoDup_snoc; [exact Hnd |]. intros H. apply Hn.
    now apply (inv_path _ _ I). }
  pose proof (for_neighbors_simple fuel IH (adj d0 node) (dfs_enter node st)
                (st_path st) node I1 eq_refl (fun v H => H) Hfuel1 Hnd1) as Hl.
  destruct (for_neighbors (dfs fuel) (adj d0 node) (dfs_enter node st))
    as [[[c |] st2] | e |]; simpl in Hl; try exact Logic.I.
  - exact Hl.
  - unfold dfs_leave. destruct (st_path st2); [exact Logic.I |].
    destruct (mem node (st_rec st2)); exact Logic.I.
Qed.
End SimpleSearch.

Lemma find_cycles_simple (d0 : graph) (fuel : nat) :
  node_count d0 <= fuel ->
  forall nodes d visited,
    dfs_inv d0 (top_state d visited) ->
    (forall n, In n nodes -> In n (graph_nodes d0)) ->
    match find_cycles fuel nodes d visited with
    | Ok (Some c, _) => simple_cycle c
    | _ => True
    end.
Proof.
  intros Hfuel. induction nodes as [| node nodes IH]; intros d visited I HU;
    [exact Logic.I |].
  cbn [find_cycles].
  assert (HU' : forall n, In n nodes -> In n (graph_nodes d0))
    by (intros n Hn; apply HU; now right).
  destruct (mem node visited) eqn:Ev; cbn [negb]; [now apply IH |].
  apply mem_false in Ev.
  assert (Hlt : unvisited d0 (st_visited (top_state d visited)) <= fuel)
    by (eapply Nat.le_trans; [apply unvisited_le_nodes | exact Hfuel]).
  pose proof (dfs_spec d0 fuel node (top_state d visited) I Ev
                (HU node (or_introl eq_refl)) Logic.I Hlt) as Hd.
  pose proof (dfs_simple d0 fuel node (top_state d visited) I Ev
                (HU node (or_introl eq_refl)) Logic.I Hlt (NoDup_nil _)) as Hs.
  fold (top_state d visited).
  destruct (dfs fuel node (top_state d visited)) as [[[c |] st'] | e |];
    simpl in Hd, Hs; try exact Logic.I.
  - rewrite (simple_cycle_found c Hs). exact Hs.
  - cbn [is_cycle_found]. destruct Hd as [I' [Hp' [Hv' Hn']]].
    assert (Hst : st' = top_state (st_deps st') (st_visited st')).
    { destruct st' as [sd sp sv sr]. simpl in *. subst sp.
      unfold top_state. f_equal.
      destruct sr as [| z sr]; [reflexivity |].
      exfalso. apply (proj1 (inv_rec _ _ I' z)). now left. }
    rewrite Hst in I'. now apply IH.
Qed.

(** X8. A cycle that [find_circular_dependencies] returns passes through
    no node twice: apart from the last element, which repeats the first,
    its elements are distinct. *)
Theorem find_circular_dependencies_returns_simple_cycle :
  forall (w : world) (d d' : graph) (c : list string),
    find_circular_dependencies w d = Ok (Some c, d') ->
    exists x mid, c = x :: mid ++ [x] /\ NoDup (x :: mid).
Proof.
  intros w d d' c H.
  pose proof (find_cycles_simple d (Nat.max (dfs_frames w) (node_count d))
                (Nat.le_max_r _ _) (dict_keys d) d [] (top_state_init d))
    as Hs.
  unfold find_circular_dependencies in H.
  apply (find_cycles_more_frames _ (Nat.max (dfs_frames w) (node_count d))
           (Nat.le_max_l _ _)) in H.
  rewrite H in Hs. apply Hs.
  intros n Hn. unfold graph_nodes. apply in_or_app. now left.
Qed.

Lemma find_circular_dependencies_returns_simple_cycle_witness :
  exists x mid, ["b"; "c"; "d"; "b"] = x :: mid ++ [x] /\ NoDup (x :: mid).
Proof.
  apply (find_circular_dependencies_returns_simple_cycle
           Scenario.sources_world
           [("a", ["b"; "c"]); ("b", ["c"]); ("c", ["d"]); ("d", ["b"])]
           [("a", ["b"; "c"]); ("b", ["c"]); ("c", ["d"]); ("d", ["b"])]).
  reflexivity.
Defined.

(** ** More on the build order *)

Lemma relax_all_queue (ns : list string) (s : dict Z * list string) :
  exists l, snd (fold_left relax ns s) = snd s ++ l.
Proof.
  revert s. induction ns as [| n ns IH]; intros s; simpl.
  - exists []. now rewrite app_nil_r.
  - destruct (IH (relax s n)) as [l ->]. unfold relax.
    destruct (Z.eqb _ 0); simpl; [| now exists l].
    exists (n :: l). now rewrite <- app_assoc.
Qed.

Lemma kahn_loop_extends (fuel : nat) :
  forall s t,
    kahn_loop fuel s = Ok t ->
    exists l, k_result t = (k_result s ++ k_queue s) ++ l.
Proof.
  induction fuel as [| fuel IH]; intros s t H; simpl in H.
  - destruct (k_queue s); [| discriminate]. injection H as <-.
    exists []. now rewrite !app_nil_r.
  - destruct (k_queue s) as [| node queue].
    + injection H as <-. exists []. now rewrite !app_nil_r.
    + destruct (IH _ _ H) as [l ->]. unfold kahn_step.
      cbn [k_result k_queue].
      destruct (relax_all_queue (adj (k_deps s) node) (k_deg s, queue))
        as [l' ->]. simpl.
      exists (l' ++ l). now rewrite <- !app_assoc.
Qed.

Lemma unincluded_nodes (d : graph) (x : string) :
  dict_wf d ->
  In x (k_queue (kahn_init d))
  <-> In x (graph_nodes d) /\ forall u, ~ edge d u x.
Proof.
  intros Hwf. unfold kahn_init. cbn [k_queue].
  assert (Hdw : dict_wf (in_degrees d)) by (apply count_nodes_wf; constructor).
  rewrite (zero_entries _ _ Hdw), (in_degrees_keys d x Hwf), in_degrees_degree.
  split; intros [Hx H]; (split; [exact Hx |]).
  - intros u He. apply (incoming_zero d _ u x H); [| exact He].
    eapply edge_key; eassumption.
  - pose proof (incoming_nonneg d (dict_keys d) x) as Hn.
    destruct (Z.eq_dec (incoming d (dict_keys d) x) 0) as [E | E]; [exact E |].
    destruct (incoming_pos d (dict_keys d) x) as [u [_ He]]; [lia |].
    exfalso. exact (H u He).
Qed.

(** X9. The build order starts with the nodes that no file includes, all
    of them, before any node that is included by some file. *)
Theorem get_build_order_starts_with_unincluded_nodes :
  forall d : graph,
    dict_wf d ->
    exists order d' first rest,
      get_build_order d = Ok (order, d')
      /\ order = first ++ rest
      /\ (forall x, In x first <->
                    In x (graph_nodes d) /\ forall u, ~ edge d u x)
      /\ (forall x, In x rest -> exists u, edge d u x).
Proof.
  intros d Hwf.
  destruct (kahn_loop_spec d (List.length (graph_nodes d)) Hwf (kahn_init d)
              (kahn_init_inv d Hwf)) as [t [El [I Hq]]]; [simpl; lia |].
  destruct (kahn_loop_extends _ _ _ El) as [rest Hr]. simpl in Hr.
  exists (k_result t), (k_deps t), (k_queue (kahn_init d)), rest.
  unfold get_build_order. rewrite El. split; [reflexivity |].
  split; [exact Hr |]. split; [intros x; now apply unincluded_nodes |].
  intros x Hx.
  assert (Hnd : NoDup (k_result t)).
  { pose proof (ki_nodup _ _ I) as H. now rewrite Hq, app_nil_r in H. }
  assert (Hres : In x (k_result t)) by (rewrite Hr; apply in_or_app; now right).
  assert (Hnf : ~ In x (k_queue (kahn_init d))).
  { rewrite Hr in Hnd. intros Hf.
    apply in_split in Hx as [a [b ->]].
    rewrite app_assoc in Hnd. apply NoDup_remove_2 in Hnd. apply Hnd.
    apply in_or_app. left. apply in_or_app. now left. }
  assert (HU : In x (graph_nodes d)).
  { apply (ki_nodes _ _ I). rewrite Hq, app_nil_r. exact Hres. }
  pose proof (incoming_nonneg d (dict_keys d) x) as Hn.
  destruct (Z.eq_dec (incoming d (dict_keys d) x) 0) as [E0 | E0].
  - exfalso. apply Hnf. apply (unincluded_nodes d x Hwf). split; [exact HU |].
    intros u He. apply (incoming_zero d _ u x E0); [| exact He].
    eapply edge_key; eassumption.
  - destruct (incoming_pos d (dict_keys d) x) as [u [_ He]]; [lia |].
    now exists u.
Qed.

Lemma get_build_order_starts_with_unincluded_nodes_witness :
  exists order d' first rest,
    get_build_order [("a.c", ["b.h"])] = Ok (order, d')
    /\ order = first ++ rest.
Proof.
  destruct (get_build_order_starts_with_unincluded_nodes [("a.c", ["b.h"])])
    as [order [d' [first [rest [E [H _]]]]]].
  - repeat constructor. intros [].
  - now exists order, d', first, rest.
Defined.

Lemma backward_chain_to (d : graph) (P : string -> Prop) :
  (forall v, P v -> exists u, P u /\ edge d u v) ->
  forall n v, P v ->
    exists l,
      List.length l = n /\ chain d (l ++ [v]) /\ forall y, In y l -> P y.
Proof.
  intros Hp. induction n as [| n IH]; intros v Hv.
  - exists []. split; [reflexivity |]. split; [exact I | intros y []].
  - destruct (IH v Hv) as [l [Hl [Hc Hall]]].
    assert (Hh : exists h t, l ++ [v] = h :: t /\ P h).
    { destruct l as [| h t]; [now exists v, [] |].
      exists h, (t ++ [v]). split; [reflexivity |]. apply Hall. now left. }
    destruct Hh as [h [t [Eh Ph]]].
    destruct (Hp h Ph) as [u [Hu He]].
    exists (u :: l). split; [simpl; lia |]. split.
    + simpl. rewrite Eh in *. split; assumption.
    + intros y [<- | Hy]; auto.
Qed.

Lemma unprocessed_has_predecessor (d : graph) (s : kahn_state) (x : string) :
  kahn_inv d s -> k_queue s = [] ->
  In x (graph_nodes d) -> ~ In x (k_result s) ->
  exists u, (In u (graph_nodes d) /\ ~ In u (k_result s)) /\ edge d u x.
Proof.
  intros I Hq Hx Hnx.
  assert (Hd : (0 < degree (k_deg s) x)%Z).
  { pose proof (incoming_nonneg d (pending d (k_result s)) x) as Hi.
    rewrite <- (ki_degree _ _ I) in Hi.
    destruct (Z.eq_dec (degree (k_deg s) x) 0) as [E | E]; [| lia].
    exfalso. apply Hnx. pose proof (ki_ready _ _ I x Hx E) as H.
    now rewrite Hq, app_nil_r in H. }
  rewrite (ki_degree _ _ I) in Hd.
  apply incoming_pos in Hd as [u [Hu He]].
  unfold pending in Hu. apply filter_In in Hu as [Hk Hm].
  apply negb_true_iff, mem_false in Hm.
  exists u. split; [| exact He]. split; [| exact Hm].
  unfold graph_nodes. apply in_or_app. now left.
Qed.

Lemma ordered_ancestor (d : graph) (l : list string) (x v : string) :
  ordered d l -> reachable d x v -> In v l -> In x l.
Proof.
  intros Ho [w [Hc Hv]] Hl.
  apply in_split in Hv as [pre [post E]].
  apply in_split in Hl as [l1 [l2 ->]].
  destruct pre as [| x' pre].
  - injection E as -> _. apply in_or_app. right. now left.
  - injection E as <- E. apply in_or_app. left.
    apply (ancestors_before d _ Ho (x :: pre) v l1 l2 eq_refl); [| now left].
    apply (chain_app_l d ((x :: pre) ++ [v]) post).
    rewrite <- app_assoc. simpl. rewrite <- E. exact Hc.
Qed.

(** X10. Whatever the graph, the build order holds no node twice, lists
    a node after all the nodes that include it, and holds exactly the
    nodes that cannot be reached from a node on a cycle: everything a file
    on a cycle includes, directly or not, is left out with it. *)
Theorem get_build_order_drops_what_cycles_reach :
  forall d : graph,
    dict_wf d ->
    exists order d',
      get_build_order d = Ok (order, d')
      /\ NoDup order
      /\ ordered d order
      /\ forall v,
          In v order <->
          In v (graph_nodes d)
          /\ forall x, on_cycle d x -> ~ reachable d x v.
Proof.
  intros d Hwf. destruct (get_build_order_spec d Hwf) as [s [E [I Hq]]].
  exists (k_result s), (k_deps s). split; [exact E |].
  pose proof (ki_order _ _ I) as Ho. rewrite Hq, app_nil_r in Ho.
  pose proof (ki_nodup _ _ I) as Hnd. rewrite Hq, app_nil_r in Hnd.
  split; [exact Hnd |]. split; [exact Ho |]. intros v. split.
  - intros Hv. split.
    + apply (ki_nodes _ _ I). rewrite Hq, app_nil_r. exact Hv.
    + intros x Hx Hr.
      exact (ordered_no_cycle d _ x Ho (ordered_ancestor d _ x v Ho Hr Hv) Hx).
  - intros [Hv Hfree].
    destruct (in_dec string_dec v (k_result s)) as [Hin | Hout]; [exact Hin |].
    exfalso.
    destruct (backward_chain_to d
                (fun x => In x (graph_nodes d) /\ ~ In x (k_result s))
                (fun x Hx => unprocessed_has_predecessor d s x I Hq
                               (proj1 Hx) (proj2 Hx))
                (S (List.length (graph_nodes d))) v (conj Hv Hout))
      as [l [Hl [Hc Hall]]].
    destruct (repeated_element l) as [x [l1 [l2 [l3 ->]]]].
    + intros Hndl.
      assert (Hle : List.length l <= List.length (graph_nodes d)).
      { apply NoDup_incl_length; [exact Hndl |]. intros y Hy.
        exact (proj1 (Hall y Hy)). }
      lia.
    + apply (Hfree x).
      * exists l2. split; [| now exists x, l2].
        rewrite <- app_assoc in Hc. apply chain_app_r in Hc.
        apply (chain_app_l d (x :: l2 ++ [x]) (l3 ++ [v])).
        simpl. rewrite <- !app_assoc. simpl.
        simpl in Hc. rewrite <- app_assoc in Hc. exact Hc.
      * exists (l3 ++ [v]). split.
        -- rewrite <- app_assoc in Hc. apply chain_app_r in Hc.
           simpl in Hc. rewrite <- app_assoc in Hc.
           change (chain d ((x :: l2) ++ (x :: l3 ++ [v]))) in Hc.
           apply chain_app_r in Hc. exact Hc.
        -- right. apply in_or_app. right. now left.
Qed.

Lemma get_build_order_drops_what_cycles_reach_witness :
  exists order d',
    get_build_order [("a.c", ["b.c"; "c.h"]); ("b.c", ["a.c"])]
    = Ok (order, d')
    /\ NoDup order
    /\ ordered [("a.c", ["b.c"; "c.h"]); ("b.c", ["a.c"])] order.
Proof.
  destruct (get_build_order_drops_what_cycles_reach
              [("a.c", ["b.c"; "c.h"]); ("b.c", ["a.c"])])
    as [order [d' [E [Hn [H _]]]]].
  - repeat constructor; simpl; intuition discriminate.
  - now exists order, d'.
Defined.

(** ** Statistics *)

Lemma string_compare_refl (s : string) : String.compare s s = Eq.
Proof.
  pose proof (String.compare_antisym s s) as H.
  destruct (String.compare s s); simpl in H; congruence.
Qed.

Lemma ascii_compare_lt_trans (a b c : ascii) :
  Ascii.compare a b = Lt -> Ascii.compare b c = Lt -> Ascii.compare a c = Lt.
Proof.
  unfold Ascii.compare. rewrite !N.compare_lt_iff. lia.
Qed.

Lemma string_compare_lt_trans (a b c : string) :
  String.compare a b = Lt -> String.compare b c = Lt -> String.compare a c = Lt.
Proof.
  revert b c. induction a as [| x a IH]; intros [| y b] [| z c]; simpl;
    try discriminate; try reflexivity.
  destruct (Ascii.compare x y) eqn:Exy; try discriminate.
  - apply Ascii.compare_eq_iff in Exy. subst y.
    destruct (Ascii.compare x z); try discriminate; auto. apply IH.
  - intros _. destruct (Ascii.compare y z) eqn:Eyz; try discriminate.
    + apply Ascii.compare_eq_iff in Eyz. subst z. now rewrite Exy.
    + now rewrite (ascii_compare_lt_trans x y z Exy Eyz).
Qed.

Lemma string_ltb_trans (a b c : string) :
  String.ltb a b = true -> String.ltb b c = true -> String.ltb a c = true.
Proof.
  unfold String.ltb. intros H1 H2.
  destruct (String.compare a b) eqn:E1; try discriminate.
  destruct (String.compare b c) eqn:E2; try discriminate.
  now rewrite (string_compare_lt_trans a b c E1 E2).
Qed.

Lemma tuple_gt_irrefl (x : nat * string) : tuple_gt x x = false.
Proof.
  unfold tuple_gt, String.ltb. rewrite Nat.ltb_irrefl, string_compare_refl.
  now rewrite andb_false_r.
Qed.

Lemma tuple_gt_bound (x b y : nat * string) :
  tuple_gt y b = true -> tuple_gt x b = false -> tuple_gt x y = false.
Proof.
  unfold tuple_gt. intros Hy Hx.
  apply orb_false_iff in Hx as [Hx1 Hx2]. apply Nat.ltb_ge in Hx1.
  apply orb_false_iff. apply orb_true_iff in Hy as [Hy | Hy].
  - apply Nat.ltb_lt in Hy. split; [apply Nat.ltb_ge; lia |].
    apply andb_false_iff. left. apply Nat.eqb_neq. lia.
  - apply andb_true_iff in Hy as [Hy1 Hy2]. apply Nat.eqb_eq in Hy1.
    split; [apply Nat.ltb_ge; lia |].
    destruct (Nat.eqb_spec (fst x) (fst y)) as [E | E]; [| reflexivity].
    simpl. apply andb_false_iff in Hx2 as [Hx2 | Hx2].
    + apply Nat.eqb_neq in Hx2. lia.
    + destruct (String.ltb (snd y) (snd x)) eqn:El; [| reflexivity].
      now rewrite (string_ltb_trans _ _ _ Hy2 El) in Hx2.
Qed.

Lemma py_max_fold (rest : list (nat * string)) (best : nat * string)
    (seen : list (nat * string)) :
  In best seen -> (forall x, In x seen -> tuple_gt x best = false) ->
  let m := fold_left (fun best y => if tuple_gt y best then y else best)
             rest best in
  In m (seen ++ rest) /\ forall x, In x (seen ++ rest) -> tuple_gt x m = false.
Proof.
  revert best seen. induction rest as [| y rest IH]; intros best seen Hb Hs.
  - simpl. rewrite app_nil_r. auto.
  - cbn [fold_left]. cbv zeta.
    replace (seen ++ y :: rest) with ((seen ++ [y]) ++ rest)
      by (now rewrite <- app_assoc).
    apply IH.
    + destruct (tuple_gt y best); apply in_or_app; [right; now left | now left].
    + intros x Hx. apply in_app_iff in Hx as [Hx | [<- | []]].
      * destruct (tuple_gt y best) eqn:E; [| auto].
        eapply tuple_gt_bound; [exact E | auto].
      * destruct (tuple_gt y best) eqn:E; [apply tuple_gt_irrefl | exact E].
Qed.

Lemma py_max_spec (items : list (nat * string)) :
  match py_max items with
  | None => items = []
  | Some m => In m items /\ forall x, In x items -> tuple_gt x m = false
  end.
Proof.
  destruct items as [| x rest]; [reflexivity |]. unfold py_max.
  apply (py_max_fold rest x [x]); [now left |].
  intros y [<- | []]. apply tuple_gt_irrefl.
Qed.

Lemma tuple_gt_false (x m : nat * string) :
  tuple_gt x m = false ->
  fst x <= fst m /\ (fst x = fst m -> String.ltb (snd m) (snd x) = false).
Proof.
  unfold tuple_gt. intros H. apply orb_false_iff in H as [H1 H2].
  apply Nat.ltb_ge in H1. split; [exact H1 |]. intros E.
  apply Nat.eqb_eq in E. rewrite E in H2. exact H2.
Qed.

Lemma sizes_max (d : graph) :
  d <> [] ->
  exists k l,
    py_max (sizes d) = Some (List.length l, k) /\ In (k, l) d
    /\ forall k' l',
        In (k', l') d ->
        List.length l' <= List.length l
        /\ (List.length l' = List.length l -> String.ltb k k' = false).
Proof.
  intros Hne. pose proof (py_max_spec (sizes d)) as H.
  destruct (py_max (sizes d)) as [m |].
  - destruct H as [Hin Hmax]. unfold sizes in Hin.
    apply in_map_iff in Hin as [[k l] [E Hin]]. simpl in E. subst m.
    exists k, l. split; [reflexivity |]. split; [exact Hin |].
    intros k' l' H'.
    apply (tuple_gt_false (List.length l', k') (List.length l, k)).
    apply Hmax. unfold sizes. apply in_map_iff. now exists (k', l').
  - destruct d; [contradiction | discriminate].
Qed.

(** X11. When both mappings hold an entry, [print_statistics] prints five
    lines and returns. The file reported with the most dependencies has a
    set at least as large as every other file of the forward mapping, and
    among the files with sets of that size it is the one with the greatest
    path in code point order; the same holds of the reverse index. When
    either mapping is empty the call raises [ValueError]. *)
Theorem print_statistics_reports_the_largest_sets :
  forall a : analyzer,
    (dependencies a <> [] -> reverse_deps a <> [] ->
     exists k l k' l',
       print_statistics a
       = (["Source files: " ++ str_of_nat (count_files a is_compiled);
           "Header files: "
             ++ str_of_nat (count_files a (fun f => endswith f ".h"));
           "Dependencies: " ++ str_of_nat (total_deps (dependencies a));
           most_line "Most dependencies: " "deps" (List.length l, k);
           most_line "Most dependents: " "dependents" (List.length l', k')]%string,
          Ok tt)
       /\ In (k, l) (dependencies a) /\ In (k', l') (reverse_deps a)
       /\ (forall k1 l1,
             In (k1, l1) (dependencies a) ->
             List.length l1 <= List.length l
             /\ (List.length l1 = List.length l -> String.ltb k k1 = false))
       /\ (forall k1 l1,
             In (k1, l1) (reverse_deps a) ->
             List.length l1 <= List.length l'
             /\ (List.length l1 = List.length l' -> String.ltb k' k1 = false)))
    /\ (dependencies a = [] \/ reverse_deps a = [] ->
        snd (print_statistics a) = Raise "ValueError").
Proof.
  intros a. split.
  - intros H1 H2.
    destruct (sizes_max (dependencies a) H1) as [k [l [E1 [I1 M1]]]].
    destruct (sizes_max (reverse_deps a) H2) as [k' [l' [E2 [I2 M2]]]].
    exists k, l, k', l'. unfold print_statistics. rewrite E1, E2.
    split; [reflexivity | auto].
  - intros [H | H]; unfold print_statistics; rewrite H.
    + reflexivity.
    + destruct (py_max (sizes (dependencies a))); reflexivity.
Qed.

Lemma print_statistics_reports_the_largest_sets_witness :
  (exists k l,
      In (k, l) [("a.c", ["b.h"]); ("z.c", ["b.h"])]
      /\ String.ltb k "z.c" = false
      /\ snd (print_statistics
                {| src_dirs := []; include_dirs := [];
                   dependencies := [("a.c", ["b.h"]); ("z.c", ["b.h"])];
                   reverse_deps := [("b.h", ["a.c"; "z.c"])];
                   files := [] |})
         = Ok tt)
  /\ snd (print_statistics
            {| src_dirs := []; include_dirs := []; dependencies := [];
               reverse_deps := []; files := [] |})
     = Raise "ValueError".
Proof.
  split.
  - destruct (proj1 (print_statistics_reports_the_largest_sets
                       {| src_dirs := []; include_dirs := [];
                          dependencies := [("a.c", ["b.h"]); ("z.c", ["b.h"])];
                          reverse_deps := [("b.h", ["a.c"; "z.c"])];
                          files := [] |}))
      as [k [l [k' [l' [E [H [_ [Hm _]]]]]]]];
      [discriminate | discriminate |].
    exists k, l. split; [exact H |]. split.
    + cbn [dependencies] in Hm, H.
      destruct (Hm "z.c" ["b.h"]) as [_ Hz]; [right; now left |].
      apply Hz. destruct H as [[= <- <-] | [[= <- <-] | []]]; reflexivity.
    + rewrite E. reflexivity.
  - apply (print_statistics_reports_the_largest_sets
             {| src_dirs := []; include_dirs := []; dependencies := [];
                reverse_deps := []; files := [] |}).
    now left.
Defined.

(** ** Outcome of the command *)

Lemma snd_io_bind {A B} (m : io A) (f : A -> io B) :
  snd (io_bind m f)
  = match snd m with
    | Ok x => snd (f x)
    | Raise e => Raise e
    | Exhausted => Exhausted
    end.
Proof.
  destruct m as [o [x | e |]]; simpl; try reflexivity.
  destruct (f x); reflexivity.
Qed.

Lemma print_order_returns (order : list string) (i : nat) :
  snd (print_order i order) = Ok tt.
Proof.
  revert i. induction order as [| f order IH]; intros i; cbn [print_order];
    [reflexivity |].
  rewrite snd_io_bind. cbn [io_print snd]. apply IH.
Qed.

Lemma check_cycles_outcome (w : world) (d : graph) :
  snd (check_cycles w d)
  = match find_circular_dependencies w d with
    | Ok r => Ok (snd r)
    | Raise e => Raise e
    | Exhausted => Exhausted
    end.
Proof.
  unfold check_cycles. rewrite snd_io_bind. cbn [io_print snd].
  rewrite snd_io_bind. cbn [snd].
  destruct (find_circular_dependencies w d) as [[r d'] | e |];
    [| reflexivity | reflexivity].
  rewrite snd_io_bind.
  destruct (is_cycle_found (fst (r, d'))); reflexivity.
Qed.

Lemma build_order_returns (d : graph) :
  dict_wf d -> exists d', snd (build_order d) = Ok d' /\ grown d d'.
Proof.
  intros Hwf. destruct (get_build_order_spec d Hwf) as [s [E _]].
  exists (k_deps s). split; [| eapply get_build_order_grown; eassumption].
  unfold build_order. rewrite snd_io_bind. cbn [io_print snd].
  rewrite snd_io_bind, E. cbn [snd]. rewrite snd_io_bind.
  now rewrite print_order_returns.
Qed.

Lemma dot_writes_grown (a : analyzer) (d' : graph) (r : graph) :
  grown (dependencies a) d' -> dot_writes (set_graph a d' r) = dot_writes a.
Proof.
  intros G. unfold dot_writes. cbn [set_graph files dependencies].
  rewrite !fold_edges_flat_map. now rewrite (grown_values _ _ G).
Qed.

Lemma grown_trans_values (d d1 d2 : graph) :
  grown d d1 -> grown d1 d2 ->
  flat_map (fun item => map (edge_stmt (fst item)) (snd item)) d2
  = flat_map (fun item => map (edge_stmt (fst item)) (snd item)) d.
Proof. intros G1 G2. now rewrite (grown_values _ _ G2), (grown_values _ _ G1). Qed.

(** The last step of [main], on a forward mapping with the edges of the
    one that was built. *)
Lemma main_export (w : world) (ar : args) (a : analyzer) (d2 : graph) :
  flat_map (fun item => map (edge_stmt (fst item)) (snd item)) d2
  = flat_map (fun item => map (edge_stmt (fst item)) (snd item))
      (dependencies a) ->
  snd (match arg_dot ar with
       | Some output_file =>
           if truthy output_file then
             io_bind
               (export_dot w (set_graph a d2 (reverse_deps a)) output_file)
               (fun f => io_ret (Some f))
           else io_ret None
       | None => io_ret None
       end)
  = dot_outcome w ar a.
Proof.
  intros Hv. unfold dot_outcome.
  destruct (arg_dot ar) as [f |]; [| reflexivity].
  destruct (truthy f); [| reflexivity].
  rewrite snd_io_bind. unfold export_dot. rewrite snd_io_bind.
  unfold generate_dot_graph. destruct (open_write_ok w f); [| reflexivity].
  cbn [snd io_ret]. rewrite !snd_io_bind. cbn [snd io_print io_ret].
  do 3 f_equal. f_equal. unfold dot_writes.
  cbn [set_graph files dependencies]. rewrite !fold_edges_flat_map.
  now rewrite Hv.
Qed.

(** The steps of [main] after the cycle check. *)
Lemma main_tail (w : world) (ar : args) (a : analyzer) (d1 : graph) :
  dict_wf (dependencies a) -> grown (dependencies a) d1 ->
  snd (io_bind (if arg_build_order ar then build_order d1 else io_ret d1)
         (fun d2 =>
            match arg_dot ar with
            | Some output_file =>
                if truthy output_file then
                  io_bind
                    (export_dot w (set_graph a d2 (reverse_deps a))
                       output_file)
                    (fun f => io_ret (Some f))
                else io_ret None
            | None => io_ret None
            end))
  = dot_outcome w ar a.
Proof.
  intros Hwf G1. rewrite snd_io_bind. destruct (arg_build_order ar).
  - destruct (build_order_returns d1 (grown_wf _ _ G1 Hwf)) as [d2 [E2 G2]].
    rewrite E2. apply main_export. now apply grown_trans_values with d1.
  - cbn [snd io_ret]. apply main_export. now apply grown_values.
Qed.

(** How [main] ends, for every tree and every choice of flags. *)
Lemma main_outcome (w : world) (ar : args) :
  let b := fst (build_dependency_graph w (init main_src_dirs main_include_dirs)) in
  snd (main w ar)
  = match dependencies b with
    | [] => Raise "ValueError"
    | _ :: _ =>
        match (if arg_check_cycles ar
               then find_circular_dependencies w (dependencies b)
               else Ok (None, dependencies b)) with
        | Ok _ => dot_outcome w ar b
        | Raise e => Raise e
        | Exhausted => Exhausted
        end
    end.
Proof.
  cbv zeta.
  destruct (build_dependency_graph_wf w main_src_dirs main_include_dirs)
    as [Hwf _].
  pose proof (build_dependency_graph_both_empty w main_src_dirs
                main_include_dirs) as Hboth.
  cbv zeta in Hwf, Hboth. unfold main.
  destruct (build_dependency_graph w (init main_src_dirs main_include_dirs))
    as [a warnings] eqn:Eb.
  cbn [fst] in *.
  rewrite snd_io_bind. cbn [snd]. rewrite snd_io_bind. cbn [snd io_print].
  rewrite snd_io_bind. cbn [snd io_print]. rewrite snd_io_bind.
  destruct (dependencies a) as [| e0 d0] eqn:Ed.
  - assert (Hp : snd (print_statistics a) = Raise "ValueError")
      by (apply print_statistics_empty_graph; exact Ed).
    now rewrite Hp.
  - assert (Hp : snd (print_statistics a) = Ok tt).
    { unfold print_statistics. rewrite Ed.
      destruct (reverse_deps a) as [| e1 r1] eqn:Er;
        [exfalso;
         assert (H : e0 :: d0 = []) by (apply Hboth; reflexivity);
         discriminate |].
      reflexivity. }
    rewrite Hp, snd_io_bind. rewrite <- Ed in Hwf.
    destruct (arg_check_cycles ar).
    + rewrite check_cycles_outcome.
      destruct (find_circular_dependencies w (e0 :: d0)) as [[r d1] | e |] eqn:E;
        [| reflexivity | reflexivity].
      cbn [snd]. apply main_tail; [exact Hwf |]. rewrite Ed.
      eapply find_circular_dependencies_grown. exact E.
    + cbn [snd io_ret]. apply main_tail; [exact Hwf |].
      rewrite Ed. apply grown_refl.
Qed.

(** X12. Once [parse_args] has returned the arguments, the run ends with
    status 0 exactly when the graph that was built has an edge, the cycle
    search, if [--check-cycles] asks for it, returns instead of running
    out of frames, and the file named by a non-empty [--dot] can be
    written; otherwise it ends with status 1. So on a graph with no more
    nodes than the recursion limit leaves frames, neither a cycle nor any
    choice of [--check-cycles] and [--build-order] changes the status. *)
Theorem main_exit_status :
  forall (w : world) (ar : args),
    let b := fst (build_dependency_graph w
                    (init main_src_dirs main_include_dirs)) in
    (exit_status (main w ar) = Some 0 <->
     dependencies b <> []
     /\ (arg_check_cycles ar = true ->
         exists r, find_circular_dependencies w (dependencies b) = Ok r)
     /\ forall f, arg_dot ar = Some f -> f <> EmptyString ->
                  open_write_ok w f = true)
    /\ (node_count (dependencies b) <= dfs_frames w ->
        (exit_status (main w ar) = Some 0 <->
         dependencies b <> []
         /\ forall f, arg_dot ar = Some f -> f <> EmptyString ->
                      open_write_ok w f = true))
    /\ (exit_status (main w ar) = Some 0 \/ exit_status (main w ar) = Some 1).
Proof.
  intros w ar b.
  assert (Hdot : forall a,
             (exists x, dot_outcome w ar a = Ok x)
             \/ (exists e, dot_outcome w ar a = Raise e)).
  { intros a. unfold dot_outcome. destruct (arg_dot ar) as [f |]; eauto.
    destruct (truthy f); eauto. destruct (open_write_ok w f); eauto. }
  assert (Hdot0 : forall a,
             (exists x, dot_outcome w ar a = Ok x) <->
             forall f, arg_dot ar = Some f -> f <> EmptyString ->
                       open_write_ok w f = true).
  { intros a. unfold dot_outcome. destruct (arg_dot ar) as [f |].
    - destruct f as [| c f]; cbn [truthy].
      + split; [intros _ f' [= <-] Hn; now destruct Hn | eauto].
      + destruct (open_write_ok w (String c f)) eqn:Ew.
        * split; [intros _ f' [= <-] _; exact Ew | eauto].
        * split; [intros [x Hx]; discriminate |].
          intros H. specialize (H _ eq_refl). rewrite Ew in H.
          discriminate H. discriminate.
    - split; [intros _ f' [=] | eauto]. }
  assert (Hmain :
            (exit_status (main w ar) = Some 0 <->
             dependencies b <> []
             /\ (arg_check_cycles ar = true ->
                 exists r, find_circular_dependencies w (dependencies b) = Ok r)
             /\ forall f, arg_dot ar = Some f -> f <> EmptyString ->
                          open_write_ok w f = true)
            /\ (exit_status (main w ar) = Some 0
                \/ exit_status (main w ar) = Some 1)).
  { unfold exit_status.
    pose proof (main_outcome w ar) as H. cbv zeta in H. fold b in H.
    rewrite H. pose proof (find_circular_dependencies_sound w (dependencies b))
      as Hs.
    destruct (dependencies b) as [| e0 d0] eqn:Ed.
    - split; [| now right]. split; [discriminate | intros [Hn _]; congruence].
    - destruct (arg_check_cycles ar).
      + destruct (find_circular_dependencies w (e0 :: d0)) as [r | e |];
          [| | contradiction].
        * destruct (Hdot b) as [[x Hx] | [e Hx]]; rewrite Hx.
          -- split; [| now left]. split; [| reflexivity]. intros _.
             split; [discriminate |]. split; [eauto |].
             apply (Hdot0 b). eauto.
          -- split; [| now right]. split; [discriminate |].
             intros [_ [_ Hf]]. apply (Hdot0 b) in Hf. destruct Hf as [x Hf].
             congruence.
        * split; [| now right]. split; [discriminate |].
          intros [_ [Hr _]]. destruct (Hr eq_refl) as [r Hr']. discriminate.
      + destruct (Hdot b) as [[x Hx] | [e Hx]]; rewrite Hx.
        * split; [| now left]. split; [| reflexivity]. intros _.
          split; [discriminate |]. split; [discriminate |].
          apply (Hdot0 b). eauto.
        * split; [| now right]. split; [discriminate |].
          intros [_ [_ Hf]]. apply (Hdot0 b) in Hf. destruct Hf as [x Hf].
          congruence. }
  destruct Hmain as [Hiff Hcases].
  split; [exact Hiff |]. split; [| exact Hcases].
  intros Hfit. rewrite Hiff. split.
  - intros [Hn [_ Hf]]. now split.
  - intros [Hn Hf]. split; [exact Hn |]. split; [| exact Hf].
    intros _.
    destruct (find_circular_dependencies_fits w (dependencies b) Hfit)
      as [r [d' E]].
    now exists (r, d').
Qed.

Lemma main_exit_status_witness :
  exit_status
    (main Scenario.sources_world
       {| arg_dot := Some "deps.dot"; arg_check_cycles := true;
          arg_build_order := true |})
  = Some 0.
Proof.
  apply (proj2 (proj1 (proj2 (main_exit_status Scenario.sources_world
                                 {| arg_dot := Some "deps.dot";
                                    arg_check_cycles := true;
                                    arg_build_order := true |}))
                  ltac:(vm_compute; lia))).
  split; [vm_compute; discriminate |].
  intros f [= <-] _. reflexivity.
Defined.

(** X13. A run that writes the file named by [--dot] was given a name
    that is not empty, and it writes the export of the graph as it was
    built: the cycle check and the build order, when they run first, leave
    no trace in the file. *)
Theorem main_exports_graph_as_built :
  forall (w : world) (ar : args) (out : list string) (f text : string),
    main w ar = (out, Ok (Some (f, text))) ->
    arg_dot ar = Some f
    /\ f <> EmptyString
    /\ text
       = String.concat EmptyString
           (dot_writes
              (fst (build_dependency_graph w
                      (init main_src_dirs main_include_dirs)))).
Proof.
  intros w ar out f text Hm.
  pose proof (main_outcome w ar) as H. cbv zeta in H.
  rewrite Hm in H. cbn [snd] in H. unfold dot_outcome in H.
  destruct (dependencies _) as [| e0 d0]; [discriminate |].
  destruct (if arg_check_cycles ar then _ else _) as [r | e |];
    [| discriminate | discriminate].
  destruct (arg_dot ar) as [f' |]; [| discriminate].
  destruct f' as [| c f']; [discriminate |]. cbn [truthy] in H.
  destruct (open_write_ok w (String c f')); [| discriminate].
  injection H as -> ->. split; [reflexivity |]. split; [discriminate |].
  reflexivity.
Qed.

Lemma main_exports_graph_as_built_witness :
  exists out text,
    main Scenario.sources_world
      {| arg_dot := Some "deps.dot"; arg_check_cycles := true;
         arg_build_order := true |}
    = (out, Ok (Some ("deps.dot", text)))
    /\ text
       = String.concat EmptyString
           (dot_writes
              (fst (build_dependency_graph Scenario.sources_world
                      (init main_src_dirs main_include_dirs)))).
Proof.
  eexists. eexists. split; [reflexivity |].
  exact (proj2 (proj2 (main_exports_graph_as_built Scenario.sources_world
                  {| arg_dot := Some "deps.dot"; arg_check_cycles := true;
                     arg_build_order := true |} _ "deps.dot" _ eq_refl))).
Defined.
